(** * dora-proxy: attestation tracking and caching

    A shallow embedding of the attestation tracker of [proxy.go]
    ([LastAttestCache], [hexBitlist], [validatorsForAttestation],
    [processSlot], [fetchCommitteesForSlot], the slot scanner of [Start],
    [Backfill] and [scanEpochRange]) and the properties the specification
    states about them.  Further on, the response transforms of the proxy
    ([mapValidatorStatus], [attachLastAttestSlot], [enrichSlotConsensus],
    [buildSlotResponseFromMap]), [resolveHeadRoot], [copyHeaders] and
    [loadConfig], with properties read off the code.

    Conventions.  A Go [uint64] is an [N]; where the source can wrap around,
    the reduction modulo 2^64 is written out ([U64.wrap]).  A Go
    [map[uint64]T] is a [gmap N T]; the nil map and the empty map read the
    same and are both [∅].  A nil slice and an empty slice are both [[]]. *)

From Stdlib Require Import NArith ZArith Ascii String List Lia DecimalString.
From Stdlib Require DecimalN Sorted.
From stdpp Require Import base option list gmap gmultiset strings.

Local Open Scope N_scope.

(** ** 64-bit unsigned arithmetic *)

Module U64.

Definition modulus : N := 2 ^ 64.
Definition max : N := modulus - 1.
Definition wrap (x : N) : N := x mod modulus.
Definition add (a b : N) : N := wrap (a + b).
(** [a - b] on [uint64]: the difference modulo 2^64. *)
Definition sub (a b : N) : N := wrap (a + (modulus - wrap b)).
Definition mul (a b : N) : N := wrap (a * b).

End U64.

(** ** LastAttestCache *)

Module Cache.

(** The map [m] of the cache: validator index -> last attestation slot. *)
Abbreviation store := (gmap N N).

(** [NewLastAttestCache]. *)
Definition NewLastAttestCache : store := ∅.

(** Go's two-valued map read [cur, ok := m[index]]: the zero value and
    [false] when the key is absent. *)
Definition lookup2 (m : store) (index : N) : N * bool :=
  match m !! index with
  | Some v => (v, true)
  | None => (0, false)
  end.

(** [Get]: [return c.m[index]]. *)
Definition Get (m : store) (index : N) : N := fst (lookup2 m index).

(** [SetIfGreater], the critical section as one atomic action: the new
    store and the value of [updated]. *)
Definition SetIfGreater (m : store) (index slot : N) : store * bool :=
  let '(cur, ok) := lookup2 m index in
  if negb ok || (cur <? slot) then (<[index := slot]> m, true) else (m, false).

(** A sequence of [SetIfGreater] calls, in the order in which they take
    the lock. *)
Definition run (calls : list (N * N)) (m : store) : store :=
  fold_left (fun acc c => fst (SetIfGreater acc (fst c) (snd c))) calls m.

(** The slots passed for [index] in a sequence of calls. *)
Definition slots_for (index : N) (calls : list (N * N)) : list N :=
  map snd (filter (fun c => fst c = index) calls).

Definition highest (l : list N) : N := fold_right N.max 0 l.

(** *** The calls as goroutines run them, statement by statement

    [mu] is a [sync.RWMutex]: [Lock] needs no other holder, [RLock] needs
    no writer.  [writer] records which goroutine holds the write lock. *)

Record rwmutex := { writer : option nat; readers : nat }.

(** Where a goroutine stands: the statement it executes next. *)
Inductive pc :=
| Idle
| SLock (index slot : N)                   (* c.mu.Lock() *)
| SRead (index slot : N)                   (* cur, ok := c.m[index] *)
| STest (index slot cur : N) (ok : bool)   (* if !ok || slot > cur { ... } *)
| SUnlock (updated : bool)                 (* c.mu.Unlock() *)
| SRet (updated : bool)                    (* return updated *)
| GRLock (index : N)                       (* c.mu.RLock() *)
| GRead (index : N)                        (* the operand c.m[index] of return *)
| GRUnlock (v : N)                         (* the deferred c.mu.RUnlock() *)
| GRet (v : N).                            (* Get returns v *)

Record state := { mem : store; mu : rwmutex; threads : list pc }.

(** What a step lets the outside see. *)
Inductive event :=
| Tau
| ERead (index v : N)                          (* a Get read v for index *)
| EApplied (index slot : N) (updated : bool).  (* a SetIfGreater ran its test *)

(** One statement of goroutine [i]. *)
Inductive tstep (i : nat) : store -> rwmutex -> pc -> event -> store -> rwmutex -> pc -> Prop :=
| call_set m l index slot :
    tstep i m l Idle Tau m l (SLock index slot)
| call_get m l index :
    tstep i m l Idle Tau m l (GRLock index)
| set_lock m index slot :
    tstep i m {| writer := None; readers := 0 |} (SLock index slot) Tau
          m {| writer := Some i; readers := 0 |} (SRead index slot)
| set_read m l index slot :
    tstep i m l (SRead index slot) Tau
          m l (STest index slot (fst (lookup2 m index)) (snd (lookup2 m index)))
| set_test_store m l index slot cur ok :
    negb ok || (cur <? slot) = true ->
    tstep i m l (STest index slot cur ok) (EApplied index slot true)
          (<[index := slot]> m) l (SUnlock true)
| set_test_skip m l index slot cur ok :
    negb ok || (cur <? slot) = false ->
    tstep i m l (STest index slot cur ok) (EApplied index slot false)
          m l (SUnlock false)
| set_unlock m l updated :
    tstep i m l (SUnlock updated) Tau
          m {| writer := None; readers := readers l |} (SRet updated)
| set_ret m l updated :
    tstep i m l (SRet updated) Tau m l Idle
| get_rlock m n index :
    tstep i m {| writer := None; readers := n |} (GRLock index) Tau
          m {| writer := None; readers := S n |} (GRead index)
| get_read m l index :
    tstep i m l (GRead index) (ERead index (Get m index))
          m l (GRUnlock (Get m index))
| get_runlock m l v :
    tstep i m l (GRUnlock v) Tau
          m {| writer := writer l; readers := pred (readers l) |} (GRet v)
| get_ret m l v :
    tstep i m l (GRet v) Tau m l Idle.

Inductive step : state -> event -> state -> Prop :=
| step_thread s i p e m' l' p' :
    threads s !! i = Some p ->
    tstep i (mem s) (mu s) p e m' l' p' ->
    step s e {| mem := m'; mu := l'; threads := <[i := p']> (threads s) |}.

(** Executions and their traces, oldest event first. *)
Inductive exec : state -> list event -> state -> Prop :=
| exec_nil s : exec s [] s
| exec_cons s e s' tr s'' : step s e s' -> exec s' tr s'' -> exec s (e :: tr) s''.

(** A fresh cache shared by [n] goroutines that have not called yet. *)
Definition init (n : nat) : state :=
  {| mem := NewLastAttestCache;
     mu := {| writer := None; readers := 0 |};
     threads := replicate n Idle |}.

(** The values the Gets of [index] read, in the order of the reads. *)
Fixpoint reads_of (index : N) (tr : list event) : list N :=
  match tr with
  | [] => []
  | ERead i v :: tr' => if i =? index then v :: reads_of index tr' else reads_of index tr'
  | _ :: tr' => reads_of index tr'
  end.

Fixpoint nondecreasing (l : list N) : Prop :=
  match l with
  | [] => True
  | x :: l' => Forall (fun y => x <= y) l' /\ nondecreasing l'
  end.

(** What the write lock protects: a goroutine between [Lock] and [Unlock]
    is the holder, and what it read is still what the map holds. *)
Definition holds_lock (s : state) (i : nat) (p : pc) : Prop :=
  match p with
  | SRead _ _ | SUnlock _ => writer (mu s) = Some i
  | STest index _ cur ok => writer (mu s) = Some i /\ (cur, ok) = lookup2 (mem s) index
  | _ => True
  end.

Definition mutex_inv (s : state) : Prop :=
  forall i p, threads s !! i = Some p -> holds_lock s i p.

End Cache.

(** ** hexBitlist *)

Module Hex.

Definition is_upper (c : ascii) : bool :=
  (("A"%char <=? c) && (c <=? "Z"%char))%char.

(** [strings.ToLower] on the bytes of the string: an ASCII capital gets its
    small letter.  Bytes above 127 are left as they are: whatever Unicode
    lower-casing makes of them is no hexadecimal digit, before or after. *)
Definition lower (c : ascii) : ascii :=
  if is_upper c then ascii_of_N (N_of_ascii c + 32) else c.

Fixpoint ToLower (s : string) : string :=
  match s with
  | EmptyString => EmptyString
  | String c s' => String (lower c) (ToLower s')
  end.

(** [strings.HasPrefix]. *)
Fixpoint HasPrefix (s prefix : string) {struct prefix} : bool :=
  match prefix with
  | EmptyString => true
  | String a prefix' =>
      match s with
      | EmptyString => false
      | String b s' => Ascii.eqb a b && HasPrefix s' prefix'
      end
  end.

(** The slice [s[n:]]. *)
Fixpoint from (n : nat) (s : string) : string :=
  match n, s with
  | S n', String _ s' => from n' s'
  | _, _ => s
  end.

(** [strings.TrimPrefix]: [s[len(prefix):]] if [s] has the prefix. *)
Definition TrimPrefix (s prefix : string) : string :=
  if HasPrefix s prefix then from (String.length prefix) s else s.

(** [encoding/hex]: the value of one hexadecimal digit. *)
Definition fromHexChar (c : ascii) : option N :=
  let n := N_of_ascii c in
  if (48 <=? n) && (n <=? 57) then Some (n - 48)
  else if (97 <=? n) && (n <=? 102) then Some (n - 97 + 10)
  else if (65 <=? n) && (n <=? 70) then Some (n - 65 + 10)
  else None.

(** [hex.DecodeString]: two digits a byte, [(a << 4) | b]; [None] stands
    for its errors (a byte that is no digit, an odd length). *)
Fixpoint DecodeString (s : string) : option (list N) :=
  match s with
  | EmptyString => Some []
  | String _ EmptyString => None
  | String p (String q rest) =>
      match fromHexChar p, fromHexChar q with
      | Some a, Some b =>
          match DecodeString rest with
          | Some bs => Some (N.lor (N.shiftl a 4) b :: bs)
          | None => None
          end
      | _, _ => None
      end
  end.

(** The test [((by>>uint(i))&1) == 1]. *)
Definition bit (by_ : N) (i : N) : bool := N.land (N.shiftr by_ i) 1 =? 1.

(** The inner loop [for i := 0; i < 8; i++ { bits = append(bits, ...) }]. *)
Definition append_byte (bits : list bool) (by_ : N) : list bool :=
  fold_left (fun acc i => acc ++ [bit by_ i]) [0; 1; 2; 3; 4; 5; 6; 7] bits.

Definition hexBitlist (hexstr : string) : list bool :=
  if String.eqb hexstr "" then []
  else
    let hs := TrimPrefix (ToLower hexstr) "0x" in
    match DecodeString hs with
    | None => []
    | Some b => fold_left append_byte b []
    end.

(** The reading the specification gives: the bits of each byte, least
    significant first, byte after byte. *)
Definition byte_bits (by_ : N) : list bool :=
  map (N.testbit by_) [0; 1; 2; 3; 4; 5; 6; 7].

Definition bits_of_bytes (bs : list N) : list bool := flat_map byte_bits bs.

(** Hexadecimal digits, as characters. *)
Definition hexdigit (c : ascii) : Prop :=
  In c (list_ascii_of_string "0123456789abcdefABCDEF").

(** What is left of the input once lower-cased and rid of the prefix. *)
Definition digits (s : string) : string := TrimPrefix (ToLower s) "0x".

(** A well-formed input: hexadecimal digits only, two for each byte. *)
Definition wellformed (s : string) : Prop :=
  Forall hexdigit (list_ascii_of_string (digits s)) /\ Nat.Even (String.length (digits s)).

(** [hex.EncodeToString], with small or capital letters. *)
Definition digit (upper : bool) (n : N) : ascii :=
  if n <? 10 then ascii_of_N (48 + n)
  else ascii_of_N ((if upper then 65 else 97) + (n - 10)).

Fixpoint encode (upper : bool) (bs : list N) : string :=
  match bs with
  | [] => EmptyString
  | b :: bs' => String (digit upper (b / 16)) (String (digit upper (b mod 16)) (encode upper bs'))
  end.

End Hex.

(** ** Decoded JSON and the voters of an attestation *)

Module Voter.

(** What [encoding/json] decodes into an [interface{}]: nil, bool, float64
    (kept by its bit pattern, the tracker never reads one), string,
    [[]interface{}] and [map[string]interface{}]. *)
#[local] Unset Elimination Schemes.
Inductive value :=
| VNil
| VBool (b : bool)
| VNumber (bits : N)
| VString (s : string)
| VArray (l : list value)
| VObject (m : gmap string value).
#[local] Set Elimination Schemes.

(** The assertion [x, ok := m[key].(string)]. *)
Definition as_string (m : gmap string value) (key : string) : string * bool :=
  match m !! key with
  | Some (VString s) => (s, true)
  | _ => (EmptyString, false)
  end.

(** The assertion [x, _ := m[key].(map[string]interface{})]; [None] is the
    nil map. *)
Definition as_object (m : gmap string value) (key : string) : option (gmap string value) :=
  match m !! key with
  | Some (VObject o) => Some o
  | _ => None
  end.

(** The assertion [x, _ := m[key].([]interface{})]; nil is [[]]. *)
Definition as_array (m : gmap string value) (key : string) : list value :=
  match m !! key with
  | Some (VArray l) => l
  | _ => []
  end.

(** [for i, b := range l]: the elements with their positions. *)
Definition indexed {A} (l : list A) : list (nat * A) := combine (seq 0 (length l)) l.

(** The read [idxToValidators[ci]]: nil for a missing key and for the nil map. *)
Definition committee (idxToValidators : gmap N (list N)) (ci : N) : list N :=
  default [] (idxToValidators !! ci).

(** [validatorsForAttestation].  The result is [None] where the Go code
    would panic on [concat[i]] out of range. *)
Definition validatorsForAttestation (att : gmap string value)
    (idxToValidators : gmap N (list N)) : option (list N) :=
  let voters : list N := [] in
  let aggBitsStr := fst (as_string att "aggregation_bits") in
  let aggBits := Hex.hexBitlist aggBitsStr in
  let '(cbitsStr, ok) := as_string att "committee_bits" in
  if ok && negb (String.eqb cbitsStr "") then
    let cbits := Hex.hexBitlist cbitsStr in
    let included :=
      fold_left (fun (inc : list N) (ib : nat * bool) => if snd ib then inc ++ [N.of_nat (fst ib)] else inc)
                (indexed cbits) [] in
    let concat :=
      fold_left (fun acc ci => acc ++ committee idxToValidators ci) included [] in
    fold_left
      (fun (acc : option (list N)) (ib : nat * bool) =>
         match acc with
         | None => None
         | Some voters =>
             if snd ib && (fst ib <? length concat)%nat
             then match concat !! fst ib with
                  | Some v => Some (voters ++ [v])
                  | None => None
                  end
             else Some voters
         end)
      (indexed aggBits) (Some voters)
  else Some voters.

(** The voter list in the words of the specification. *)

(** The positions of the set bits, ascending. *)
Definition set_positions (bits : list bool) : list nat :=
  List.filter (fun p => nth p bits false) (seq 0 (length bits)).

Definition included_committees (cbits : list bool) : list N :=
  map N.of_nat (set_positions cbits).

Definition concatenation (idxToValidators : gmap N (list N)) (cbits : list bool) : list N :=
  flat_map (committee idxToValidators) (included_committees cbits).

(** For each set aggregation bit at a position inside the concatenation,
    the validator at that position. *)
Definition voters_spec (idxToValidators : gmap N (list N)) (cbits aggBits : list bool) : list N :=
  let concat := concatenation idxToValidators cbits in
  map (fun p => nth p concat 0)
      (List.filter (fun p => (p <? length concat)%nat) (set_positions aggBits)).

End Voter.

(** ** The consensus node: requests, replies, processSlot *)

Module Upstream.

Import Voter.

(** [strconv.ParseUint(s, 10, 64)]: decimal digits only, not empty, at most
    2^64-1; [None] stands for its errors. *)
Fixpoint parse_digits (s : string) (n : N) : option N :=
  match s with
  | EmptyString => Some n
  | String c s' =>
      let d := N_of_ascii c in
      if (48 <=? d) && (d <=? 57) then parse_digits s' (n * 10 + (d - 48)) else None
  end.

Definition ParseUint (s : string) : option N :=
  if String.eqb s "" then None
  else match parse_digits s 0 with
       | Some n => if n <=? U64.max then Some n else None
       | None => None
       end.

(** [strconv.FormatUint(n, 10)]. *)
Definition FormatUint (n : N) : string := DecimalString.NilZero.string_of_uint (N.to_uint n).

(** [strings.TrimRight(s, "/")] for a one-character cutset. *)
Fixpoint TrimRight (s : string) (c : ascii) : string :=
  match s with
  | EmptyString => EmptyString
  | String a s' =>
      match TrimRight s' c with
      | EmptyString => if Ascii.eqb a c then EmptyString else String a EmptyString
      | t => String a t
      end
  end.

(** A response body, by what [json.Decoder.Decode] makes of it into each of
    the three targets the tracker decodes into; [None] is a decoding error. *)
Record body := {
  as_block : option (gmap string value);            (* map[string]interface{} *)
  as_committees : option (list (string * list string)); (* data[]: index, validators *)
  as_head : option string                           (* data.message.slot *)
}.

(** What [client.Do] returns. *)
Inductive outcome :=
| NetErr
| Response (status : N) (b : body).

(** What the tracker does to the outside, oldest first. *)
Inductive io :=
| Request (url : string)
| Backoff (ms : N)      (* the timer of a backoff fired: a full wait *)
| Cancelled (ms : N).   (* ctx.Done() won the select of a backoff of ms *)

Definition is_request (e : io) : bool :=
  match e with Request _ => true | _ => false end.

(** How many requests, and how many backoff selects, a log holds. *)
Definition requests (lg : list io) : nat := length (List.filter is_request lg).

Definition waits (lg : list io) : nat :=
  length (List.filter (fun e => negb (is_request e)) lg).

(** The surroundings of a call: which URLs [http.NewRequestWithContext]
    accepts, what the node answers to the n-th request, and whether the
    timer of the n-th backoff fires before the context is done. *)
Record env := {
  parses : string -> bool;
  answer : nat -> string -> outcome;
  outlives : nat -> bool
}.

Record world := { log : list io; cache : Cache.store }.

Definition StatusOK : N := 200.
Definition maxAttempts : N := 3.

(** The test [err == nil && r != nil && r.StatusCode == http.StatusOK]:
    the response the loop keeps. *)
Definition accepted (r : outcome) : option body :=
  match r with
  | Response status b => if status =? StatusOK then Some b else None
  | NetErr => None
  end.

(** The retry loop of [processSlot] over [attempt = 1 .. maxAttempts]: the
    response it breaks with, or [None] where the code returns 0 or leaves
    the loop with [resp == nil]. *)
Fixpoint fetch_block (E : env) (url : string) (attempts : list N) (lg : list io)
  : list io * option body :=
  match attempts with
  | [] => (lg, None)
  | attempt :: later =>
      if negb (parses E url) then (lg, None)
      else
        let r := answer E (requests lg) url in
        let lg := lg ++ [Request url] in
        match accepted r with
        | Some b => (lg, Some b)
        | None =>
            if attempt =? maxAttempts then (lg, None)
            else
              let backoff := attempt * 100 in
              if outlives E (waits lg)
              then fetch_block E url later (lg ++ [Backoff backoff])
              else (lg ++ [Cancelled backoff], None)
        end
  end.

(** What one call of the retry loop can add to the log, with its result. *)
Inductive fetch_shape (url : string) : list io -> option body -> Prop :=
| fs_unbuilt : fetch_shape url [] None
| fs_first b : fetch_shape url [Request url] (Some b)
| fs_cancel1 : fetch_shape url [Request url; Cancelled 100] None
| fs_second b : fetch_shape url [Request url; Backoff 100; Request url] (Some b)
| fs_cancel2 :
    fetch_shape url [Request url; Backoff 100; Request url; Cancelled 200] None
| fs_third r :
    fetch_shape url
      [Request url; Backoff 100; Request url; Backoff 200; Request url] r.

(** The URL [processSlot] asks for the block of [slot]. *)
Definition block_url (consensusAPI : string) (slot : N) : string :=
  TrimRight consensusAPI "/" +:+ "/eth/v2/beacon/blocks/" +:+ FormatUint slot.

(** The URL [fetchCommitteesForSlot] asks. *)
Definition committees_url (consensusAPI : string) (slot : N) : string :=
  TrimRight consensusAPI "/" +:+ "/eth/v1/beacon/states/" +:+ FormatUint slot
    +:+ "/committees?slot=" +:+ FormatUint slot.

(** [fetchCommitteesForSlot]; the nil map it returns on failure is [∅]. *)
Definition fetchCommitteesForSlot (E : env) (consensusAPI : string) (lg : list io) (slot : N)
  : list io * gmap N (list N) :=
  let url := committees_url consensusAPI slot in
  if negb (parses E url) then (lg, ∅)
  else
    let r := answer E (requests lg) url in
    let lg := lg ++ [Request url] in
    match r with
    | NetErr => (lg, ∅)
    | Response status b =>
        if negb (status =? StatusOK) then (lg, ∅)
        else match as_committees b with
             | None => (lg, ∅)
             | Some data =>
                 (lg,
                  fold_left
                    (fun (res : gmap N (list N)) (c : string * list string) =>
                       match ParseUint (fst c) with
                       | None => res
                       | Some idx =>
                           let vals :=
                             fold_left (fun (vals : list N) (s : string) =>
                                          match ParseUint s with
                                          | None => vals
                                          | Some vi => vals ++ [vi]
                                          end) (snd c) [] in
                           <[idx := vals]> res
                       end) data ∅)
             end
    end.

(** The loop [for _, vi := range voters] of [processSlot]. *)
Definition apply_voters (slot : N) (voters : list N) (cu : Cache.store * N) : Cache.store * N :=
  fold_left (fun (cu : Cache.store * N) (vi : N) =>
               let '(c, b) := Cache.SetIfGreater (fst cu) vi slot in
               (c, if b then U64.add (snd cu) 1 else snd cu))
            voters cu.

(** The loop [for _, a := range attestations]; [None] if a voter decode
    panics. *)
Definition apply_attestations (slot : N) (idxToValidators : gmap N (list N))
    (attestations : list value) (cu : Cache.store * N) : option (Cache.store * N) :=
  fold_left (fun (acc : option (Cache.store * N)) (a : value) =>
               match acc with
               | None => None
               | Some cu =>
                   match a with
                   | VObject att =>
                       match validatorsForAttestation att idxToValidators with
                       | Some voters => Some (apply_voters slot voters cu)
                       | None => None
                       end
                   | _ => Some cu
                   end
               end)
            attestations (Some cu).

(** [processSlot]: the world after the call and the number of updates;
    [None] if the call panics. *)
Definition processSlot (E : env) (consensusAPI : string) (w : world) (slot : N)
  : option (world * N) :=
  let url := block_url consensusAPI slot in
  let '(lg, resp) := fetch_block E url [1; 2; 3]%N (log w) in
  let w := {| log := lg; cache := cache w |} in
  match resp with
  | None => Some (w, 0)
  | Some b =>
      match as_block b with
      | None => Some (w, 0)
      | Some payload =>
          match as_object payload "data" with
          | None => Some (w, 0)
          | Some data =>
              match as_object data "message" with
              | None => Some (w, 0)
              | Some message =>
                  match as_object message "body" with
                  | None => Some (w, 0)
                  | Some body_ =>
                      let attestations := as_array body_ "attestations" in
                      if (length attestations =? 0)%nat then Some (w, 0)
                      else
                        let '(lg, idxToValidators) :=
                          fetchCommitteesForSlot E consensusAPI lg slot in
                        match apply_attestations slot idxToValidators attestations (cache w, 0) with
                        | None => None
                        | Some (c, updated) => Some ({| log := lg; cache := c |}, updated)
                        end
                  end
              end
          end
      end
  end.

(** [getHeadSlot]; [None] stands for its errors. *)
Definition getHeadSlot (E : env) (consensusAPI : string) (lg : list io) : list io * option N :=
  let base := TrimRight consensusAPI "/" in
  let url := base +:+ "/eth/v2/beacon/blocks/head" in
  if negb (parses E url) then (lg, None)
  else
    let r := answer E (requests lg) url in
    let lg := lg ++ [Request url] in
    match r with
    | NetErr => (lg, None)
    | Response status b =>
        if negb (status =? StatusOK) then (lg, None)
        else match as_head b with
             | None => (lg, None)
             | Some slot => if String.eqb slot "" then (lg, None) else (lg, ParseUint slot)
             end
    end.

(** The example of the specification: a block at slot 9 whose one
    attestation has committee bits 0x01 and aggregation bits 0x03, and the
    committee 0 = [42, 17]. *)
Definition example_block : gmap string value :=
  <["data" := VObject
     (<["message" := VObject
        (<["body" := VObject
           (<["attestations" := VArray
              [VObject (<["committee_bits" := VString "0x01"]>
                          (<["aggregation_bits" := VString "0x03"]> ∅))]]> ∅)]> ∅)]> ∅)]> ∅.

Definition example_node : env :=
  {| parses := fun _ => true;
     answer := fun _ _ =>
       Response 200 {| as_block := Some example_block;
                       as_committees := Some [("0", ["42"; "17"])];
                       as_head := Some "9" |};
     outlives := fun _ => true |}.

End Upstream.

(** ** The slot scanner started by [Start] *)

Module Scanner.

Import Upstream.

(** The fields of [AttestationTracker] a tick reads and writes, with the
    world the tracker acts on. *)
Record tracker := { lastScannedSlot : N; world_ : world }.

(** What one pass of the ticker loop did. *)
Inductive report :=
| HeadFailed                                   (* getHeadSlot failed: continue *)
| Already                                      (* start > headSlot: continue *)
| Scanned (from to count slots updates : N) (aborted : bool).

(** The loop [slotsLoop].  [live] is the number of polls of [ctx2.Done()]
    that still find the context live: the 90 s deadline fires at some
    point, so the number is finite.  [visited] collects the slots handed to
    [processSlot], oldest first.  [None] if [processSlot] panics. *)
Fixpoint slotsLoop (E : env) (consensusAPI : string) (headSlot : N) (live : nat)
    (s : N) (w : world) (slots updates : N) (visited : list N)
  : option (world * (N * N * bool) * list N) :=
  if s <=? headSlot then
    match live with
    | O => Some (w, (slots, updates, true), visited)
    | S live' =>
        match processSlot E consensusAPI w s with
        | None => None
        | Some (w', u) =>
            slotsLoop E consensusAPI headSlot live' (U64.add s 1) w'
                      (U64.add slots 1) (U64.add updates u) (visited ++ [s])
        end
    end
  else Some (w, (slots, updates, false), visited).

(** One pass of [for range ticker.C]: the tracker afterwards, the report,
    and the slots handed to [processSlot]. *)
Definition tick (E : env) (consensusAPI : string) (live : nat) (t : tracker)
  : option (tracker * report * list N) :=
  let w := world_ t in
  let '(lg, head) := getHeadSlot E consensusAPI (log w) in
  let w := {| log := lg; cache := cache w |} in
  match head with
  | None => Some ({| lastScannedSlot := lastScannedSlot t; world_ := w |}, HeadFailed, [])
  | Some headSlot =>
      let start := U64.add (lastScannedSlot t) 1 in
      let start := if lastScannedSlot t =? 0 then headSlot else start in
      let already := headSlot <? start in
      if already
      then Some ({| lastScannedSlot := lastScannedSlot t; world_ := w |}, Already, [])
      else
        let count := U64.add (U64.sub headSlot start) 1 in
        match slotsLoop E consensusAPI headSlot live start w 0 0 [] with
        | None => None
        | Some (w', (slots, updates, aborted), visited) =>
            Some ({| lastScannedSlot := headSlot; world_ := w' |},
                  Scanned start headSlot count slots updates aborted, visited)
        end
  end.

(** Successive ticks, one [live] per tick: the tracker at the end and what
    each tick handed to [processSlot]. *)
Fixpoint ticks (E : env) (consensusAPI : string) (lives : list nat) (t : tracker)
  : option (tracker * list (list N)) :=
  match lives with
  | [] => Some (t, [])
  | live :: lives' =>
      match tick E consensusAPI live t with
      | None => None
      | Some (t', _, visited) =>
          match ticks E consensusAPI lives' t' with
          | None => None
          | Some (t'', vs) => Some (t'', visited :: vs)
          end
      end
  end.

(** A tracker as [NewAttestationTracker] makes it, on a fresh cache. *)
Definition fresh : tracker :=
  {| lastScannedSlot := 0; world_ := {| log := []; cache := Cache.NewLastAttestCache |} |}.

(** The node never reports the slot 2^64-1 as its head. *)
Definition below_max (E : env) (consensusAPI : string) : Prop :=
  forall lg h, snd (getHeadSlot E consensusAPI lg) = Some h -> h < U64.max.

(** The two readings of the scan range the specification gives, as they
    stand: a tick that finds the cursor at 0 hands only the head to
    [processSlot]; a slot of the range that an aborted tick left out is
    not handed to [processSlot] by the next tick. *)
Definition first_tick_only_head : Prop :=
  forall E consensusAPI live t t' rep visited h,
    lastScannedSlot t = 0 ->
    snd (getHeadSlot E consensusAPI (log (world_ t))) = Some h ->
    tick E consensusAPI live t = Some (t', rep, visited) ->
    forall v, In v visited -> v = h.

Definition skipped_never_revisited : Prop :=
  forall E consensusAPI live1 live2 t t1 t2 from to count slots updates
         visited1 rep2 visited2 s,
    tick E consensusAPI live1 t =
      Some (t1, Scanned from to count slots updates true, visited1) ->
    tick E consensusAPI live2 t1 = Some (t2, rep2, visited2) ->
    from <= s <= to -> ~ In s visited1 -> ~ In s visited2.

(** A node that answers every request with status 200 and the head slot
    [head], and no block. *)
Definition node_at (head : string) : env :=
  {| parses := fun _ => true;
     answer := fun _ _ =>
       Response 200 {| as_block := None; as_committees := None; as_head := Some head |};
     outlives := fun _ => true |}.

End Scanner.

(** ** Backfill and scanEpochRange *)

Module Backfill.

Definition slotsPerEpoch : N := 32.

(** The epochs [Backfill] hands to [scanEpochRange]: [(headEpoch, end)]. *)
Definition window (headSlot : N) : N * N :=
  let headEpoch := headSlot / slotsPerEpoch in
  let end_ := if 2 <=? headEpoch then U64.sub headEpoch 2 else 0 in
  (headEpoch, end_).

Definition startSlot (epoch : N) : N := U64.mul epoch slotsPerEpoch.
Definition endSlot (epoch : N) : N := U64.add (startSlot epoch) (slotsPerEpoch - 1).

(** The producer's control flow once the job [slot] of [epoch] is handled
    and nothing aborted: the next pair of the two loops, or [None] when
    the outer loop breaks. *)
Definition next_job (endEpoch epoch slot : N) : option (N * N) :=
  if slot =? startSlot epoch then
    if epoch =? endEpoch then None
    else if epoch =? 0 then None
    else let epoch' := U64.sub epoch 1 in Some (epoch', endSlot epoch')
  else Some (epoch, U64.sub slot 1).

(** The slots the two loops offer to the channel when nothing aborts, in
    order; [None] when [fuel] passes are not enough to reach the break. *)
Fixpoint produce (fuel : nat) (endEpoch epoch slot : N) : option (list N) :=
  match fuel with
  | O => None
  | S fuel' =>
      match next_job endEpoch epoch slot with
      | None => Some [slot]
      | Some (epoch', slot') =>
          match produce fuel' endEpoch epoch' slot' with
          | Some l => Some (slot :: l)
          | None => None
          end
      end
  end.

(** The number of passes the loops make from [startEpoch] to [endEpoch]. *)
Definition passes (startEpoch endEpoch : N) : nat :=
  N.to_nat (slotsPerEpoch * (if endEpoch <=? startEpoch then startEpoch - endEpoch + 1 else startEpoch + 1)).

Definition jobs_of (startEpoch endEpoch : N) : option (list N) :=
  produce (passes startEpoch endEpoch) endEpoch startEpoch (endSlot startEpoch).

(** The enumeration in the words of the specification: the epochs from
    [startEpoch] down to [endEpoch], and in each its 32 slots from the
    highest down. *)
Definition epochs_down (startEpoch endEpoch : N) : list N :=
  rev (map N.of_nat (seq (N.to_nat endEpoch) (N.to_nat (startEpoch + 1 - endEpoch)))).

Definition slots_down (epoch : N) : list N :=
  rev (map (fun i => slotsPerEpoch * epoch + N.of_nat i) (seq 0 32)).

Definition window_slots (startEpoch endEpoch : N) : list N :=
  flat_map slots_down (epochs_down startEpoch endEpoch).

(** An epoch of a 64-bit slot: its slots do not wrap. *)
Definition small (epoch : N) : Prop := epoch < 2 ^ 59.

(** The slots [32 epoch + j] down to [32 epoch]. *)
Definition run_down (epoch : N) (j : nat) : list N :=
  rev (map (fun i => slotsPerEpoch * epoch + N.of_nat i) (seq 0 (S j))).

(** What the outer loop does once an epoch is finished. *)
Definition after_epoch (endEpoch epoch : N) : option N :=
  if epoch =? endEpoch then None
  else if epoch =? 0 then None
  else Some (U64.sub epoch 1).

End Backfill.

(** ** scanEpochRange: the producer, the channel and the workers *)

Module Pool.

Definition maxConcurrency : nat := 16.

(** The buffer of [jobs]: [make(chan uint64, maxConcurrency*2)]. *)
Definition capacity : nat := maxConcurrency * 2.

(** Where the producer stands.  [rest] holds the slots the two loops have
    still to offer, the current one first (see [Backfill.produce]). *)
Inductive ppc :=
| PTop (rest : list N)     (* the select with default on ctx.Done() *)
| PSend (rest : list N)    (* the select between ctx.Done() and jobs <- slot *)
| PClose                   (* close(jobs) *)
| PWait                    (* wg.Wait() *)
| PErr                     (* ctx.Err() *)
| PDone (slots updates_ : N) (err : bool).  (* returned; err: a non-nil error *)

(** Where a worker stands. *)
Inductive wpc :=
| WRecv                    (* for slot := range jobs *)
| WPoll (slot : N)         (* the select on ctx.Done() *)
| WProc (slot : N)         (* past the select: u := t.processSlot(ctx, slot) *)
| WCount (u : N)           (* atomic.AddUint64(&slotsScanned, 1) *)
| WAdd (u : N)             (* atomic.AddUint64(&updates, u) *)
| WExit.                   (* returned, wg.Done() ran *)

(** [expired]: [ctx.Done()] is closed and [ctx.Err()] is not nil.
    [processed] records the calls of [processSlot] that returned, with
    their results, oldest first. *)
Record state := {
  expired : bool;
  queue : list N;
  closed : bool;
  prod : ppc;
  workers : list wpc;
  slotsScanned : N;
  updates : N;
  processed : list (N * N)
}.

Inductive event :=
| Tau
| EExpire                  (* the deadline passes *)
| ESend (slot : N)         (* the producer put slot on the channel *)
| EPass (slot : N)         (* a worker's select found the context live *)
| EFinish (slot u : N).    (* the call processSlot(slot) was made and returned u *)

Definition with_expired (s : state) (b : bool) : state :=
  {| expired := b; queue := queue s; closed := closed s; prod := prod s;
     workers := workers s; slotsScanned := slotsScanned s; updates := updates s;
     processed := processed s |}.

Definition with_queue (s : state) (q : list N) : state :=
  {| expired := expired s; queue := q; closed := closed s; prod := prod s;
     workers := workers s; slotsScanned := slotsScanned s; updates := updates s;
     processed := processed s |}.

Definition with_closed (s : state) (b : bool) : state :=
  {| expired := expired s; queue := queue s; closed := b; prod := prod s;
     workers := workers s; slotsScanned := slotsScanned s; updates := updates s;
     processed := processed s |}.

Definition with_prod (s : state) (p : ppc) : state :=
  {| expired := expired s; queue := queue s; closed := closed s; prod := p;
     workers := workers s; slotsScanned := slotsScanned s; updates := updates s;
     processed := processed s |}.

Definition with_worker (s : state) (i : nat) (w : wpc) : state :=
  {| expired := expired s; queue := queue s; closed := closed s; prod := prod s;
     workers := <[i := w]> (workers s); slotsScanned := slotsScanned s;
     updates := updates s; processed := processed s |}.

Definition with_slotsScanned (s : state) (n : N) : state :=
  {| expired := expired s; queue := queue s; closed := closed s; prod := prod s;
     workers := workers s; slotsScanned := n; updates := updates s;
     processed := processed s |}.

Definition with_updates (s : state) (n : N) : state :=
  {| expired := expired s; queue := queue s; closed := closed s; prod := prod s;
     workers := workers s; slotsScanned := slotsScanned s; updates := n;
     processed := processed s |}.

Definition with_processed (s : state) (l : list (N * N)) : state :=
  {| expired := expired s; queue := queue s; closed := closed s; prod := prod s;
     workers := workers s; slotsScanned := slotsScanned s; updates := updates s;
     processed := l |}.

(** Where the producer goes after a send: to the next slot, or out of both
    loops. *)
Definition after_send (rest : list N) : ppc :=
  match rest with
  | [] => PClose
  | _ :: _ => PTop rest
  end.

Definition returned (s : state) : Prop :=
  exists a b e, prod s = PDone a b e.

(** One statement of the producer or of a worker, or the deadline.  Of a
    select whose two cases are both ready either may run.  The select of a
    worker and its call of [processSlot] are two statements: the deadline
    can pass between them, and then the call is made all the same
    ([w_proc] after [expire]). *)
Inductive step : state -> event -> state -> Prop :=
| expire s :
    expired s = false -> ~ returned s ->
    step s EExpire (with_expired s true)
| p_top_done s rest :
    prod s = PTop rest -> expired s = true ->
    step s Tau (with_prod s PClose)
| p_top_live s slot rest :
    prod s = PTop (slot :: rest) -> expired s = false ->
    step s Tau (with_prod s (PSend (slot :: rest)))
| p_top_end s :
    prod s = PTop [] -> expired s = false ->
    step s Tau (with_prod s PClose)
| p_send s slot rest :
    prod s = PSend (slot :: rest) -> (length (queue s) < capacity)%nat ->
    step s (ESend slot) (with_prod (with_queue s (queue s ++ [slot])) (after_send rest))
| p_send_done s rest :
    prod s = PSend rest -> expired s = true ->
    step s Tau (with_prod s PClose)
| p_close s :
    prod s = PClose ->
    step s Tau (with_prod (with_closed s true) PWait)
| p_wait s :
    prod s = PWait -> Forall (fun w => w = WExit) (workers s) ->
    step s Tau (with_prod s PErr)
| p_err s :
    prod s = PErr ->
    step s Tau (with_prod s (PDone (slotsScanned s) (updates s) (expired s)))
| w_recv s i slot q :
    workers s !! i = Some WRecv -> queue s = slot :: q ->
    step s Tau (with_worker (with_queue s q) i (WPoll slot))
| w_recv_closed s i :
    workers s !! i = Some WRecv -> queue s = [] -> closed s = true ->
    step s Tau (with_worker s i WExit)
| w_poll_done s i slot :
    workers s !! i = Some (WPoll slot) -> expired s = true ->
    step s Tau (with_worker s i WExit)
| w_poll_live s i slot :
    workers s !! i = Some (WPoll slot) -> expired s = false ->
    step s (EPass slot) (with_worker s i (WProc slot))
| w_proc s i slot u :
    workers s !! i = Some (WProc slot) ->
    step s (EFinish slot u)
         (with_worker (with_processed s (processed s ++ [(slot, u)])) i (WCount u))
| w_count s i u :
    workers s !! i = Some (WCount u) ->
    step s Tau (with_worker (with_slotsScanned s (U64.add (slotsScanned s) 1)) i (WAdd u))
| w_add s i u :
    workers s !! i = Some (WAdd u) ->
    step s Tau (with_worker (with_updates s (U64.add (updates s) u)) i WRecv).

Inductive exec : state -> list event -> state -> Prop :=
| exec_nil s : exec s [] s
| exec_cons s e s' tr s'' : step s e s' -> exec s' tr s'' -> exec s (e :: tr) s''.

(** [scanEpochRange] is entered with the slots [jobs] to offer. *)
Definition init (jobs : list N) : state :=
  {| expired := false; queue := []; closed := false; prod := PTop jobs;
     workers := replicate maxConcurrency WRecv;
     slotsScanned := 0; updates := 0; processed := [] |}.


Definition is_pass (e : event) : bool :=
  match e with EPass _ => true | _ => false end.





(** The slot a worker holds and has not finished. *)
Definition held (w : wpc) : list N :=
  match w with
  | WPoll slot | WProc slot => [slot]
  | _ => []
  end.

Definition unsent (p : ppc) : list N :=
  match p with
  | PTop rest | PSend rest => rest
  | _ => []
  end.

(** What a worker has still to add to the two counters. *)
Definition to_count (w : wpc) : N :=
  match w with WCount _ => 1 | _ => 0 end.

Definition to_add (w : wpc) : N :=
  match w with WCount u | WAdd u => u | _ => 0 end.

Definition sumN (l : list N) : N := fold_right N.add 0 l.

Definition ms (l : list N) : gmultiset N := list_to_set_disj l.

(** The jobs are all accounted for: processed, held by a worker, on the
    channel, not yet offered, or dropped; and before the deadline none is
    dropped. *)
Definition conserved (jobs : list N) (s : state) : Prop :=
  exists dropped : gmultiset N,
    ms jobs =
      ms (map fst (processed s)) ⊎ ms (flat_map held (workers s)) ⊎ ms (queue s) ⊎
      ms (unsent (prod s)) ⊎ dropped /\
    (expired s = false -> dropped = ∅).

Definition counted (s : state) : Prop :=
  slotsScanned s < U64.modulus /\ updates s < U64.modulus /\
  U64.wrap (slotsScanned s + sumN (map to_count (workers s))) =
    U64.wrap (N.of_nat (length (processed s))) /\
  U64.wrap (updates s + sumN (map to_add (workers s))) =
    U64.wrap (sumN (map snd (processed s))).

Definition producer_inv (s : state) : Prop :=
  match prod s with
  | PTop _ => closed s = false
  | PSend rest => closed s = false /\ rest <> []
  | PClose => closed s = false
  | PWait => closed s = true
  | PErr => closed s = true /\ Forall (fun w => w = WExit) (workers s)
  | PDone a b e =>
      closed s = true /\ Forall (fun w => w = WExit) (workers s) /\
      a = slotsScanned s /\ b = updates s /\ e = expired s
  end.

Definition exits_inv (s : state) : Prop :=
  forall i, workers s !! i = Some WExit ->
            expired s = true \/ (closed s = true /\ queue s = []).

Definition inv (jobs : list N) (s : state) : Prop :=
  conserved jobs s /\ counted s /\ producer_inv s /\ exits_inv s /\
  length (workers s) = maxConcurrency.




(** A bound on the steps left. *)
Definition producer_weight (p : ppc) : nat :=
  match p with
  | PTop rest => 8 * length rest + 5
  | PSend rest => 8 * length rest + 4
  | PClose => 3
  | PWait => 2
  | PErr => 1
  | PDone _ _ _ => 0
  end.

Definition worker_weight (w : wpc) : nat :=
  match w with
  | WRecv => 1
  | WPoll _ => 6
  | WProc _ => 5
  | WCount _ => 4
  | WAdd _ => 3
  | WExit => 0
  end.

Definition weight (s : state) : nat :=
  (if expired s then 0 else 1) + producer_weight (prod s) +
  list_sum (map worker_weight (workers s)) + 6 * length (queue s).

End Pool.

(** ** The attestations of a block *)

Module Block.

Import Voter Upstream.

(** The path [payload["data"]["message"]["body"]["attestations"]] that
    [processSlot] walks; nil stands for every step that is missing or of
    another type. *)
Definition attestations_of (b : body) : list value :=
  match as_block b with
  | None => []
  | Some payload =>
      match as_object payload "data" with
      | None => []
      | Some data =>
          match as_object data "message" with
          | None => []
          | Some message =>
              match as_object message "body" with
              | None => []
              | Some body_ => as_array body_ "attestations"
              end
          end
      end
  end.


End Block.

(** ** Decimal numerals *)

Module Digits.

(** The digits of a decimal numeral, most significant first, read on top
    of [n]. *)
Fixpoint read_uint (d : Decimal.uint) (n : N) : N :=
  match d with
  | Decimal.Nil => n
  | Decimal.D0 d => read_uint d (n * 10)
  | Decimal.D1 d => read_uint d (n * 10 + 1)
  | Decimal.D2 d => read_uint d (n * 10 + 2)
  | Decimal.D3 d => read_uint d (n * 10 + 3)
  | Decimal.D4 d => read_uint d (n * 10 + 4)
  | Decimal.D5 d => read_uint d (n * 10 + 5)
  | Decimal.D6 d => read_uint d (n * 10 + 6)
  | Decimal.D7 d => read_uint d (n * 10 + 7)
  | Decimal.D8 d => read_uint d (n * 10 + 8)
  | Decimal.D9 d => read_uint d (n * 10 + 9)
  end.

End Digits.

(** ** The committees payload *)

Module Committees.

Import Upstream.

(** What the decoding loop of [fetchCommitteesForSlot] keeps of one entry
    of [data]: nothing if the index does not parse, else the index with
    the validators that parse, in order. *)
Definition decode_entry (c : string * list string) : option (N * list N) :=
  match ParseUint (fst c) with
  | None => None
  | Some idx => Some (idx, omap ParseUint (snd c))
  end.

(** The payload a node writes for an assignment. *)
Definition encode (asg : list (N * list N)) : list (string * list string) :=
  map (fun c => (FormatUint (fst c), map FormatUint (snd c))) asg.

(** The numbers of an assignment fit 64 bits. *)
Definition in_range (asg : list (N * list N)) : Prop :=
  Forall (fun c => fst c <= U64.max /\ Forall (fun v => v <= U64.max) (snd c)) asg.

Definition head_url (consensusAPI : string) : string :=
  TrimRight consensusAPI "/" +:+ "/eth/v2/beacon/blocks/head".

(** A payload that decodes and is malformed all the same: an index or a
    validator of an entry is no decimal 64-bit number. *)
Definition malformed (data : list (string * list string)) : Prop :=
  Exists (fun c => ParseUint (fst c) = None \/
                   Exists (fun s => ParseUint s = None) (snd c)) data.

(** The sentence of the specification on a malformed payload, as it
    stands: the assignment returned is empty. *)
Definition malformed_gives_empty : Prop :=
  forall E consensusAPI lg slot b data,
    parses E (committees_url consensusAPI slot) = true ->
    answer E (requests lg) (committees_url consensusAPI slot) = Response 200 b ->
    as_committees b = Some data ->
    malformed data ->
    snd (fetchCommitteesForSlot E consensusAPI lg slot) = ∅.

(** A node whose committees payload has a validator and an index that are
    no numbers. *)
Definition garbled_node : env :=
  {| parses := fun _ => true;
     answer := fun _ _ =>
       Response 200 {| as_block := None;
                       as_committees := Some [("0", ["42"; "x"; "7"]); ("y", ["9"])];
                       as_head := None |};
     outlives := fun _ => true |}.

End Committees.

(** ** The channel of scanEpochRange, and Backfill as a whole *)

Module Channel.

Import Pool.

(** The slots the producer put on the channel, in the order of the sends. *)
Definition sent (tr : list event) : list N :=
  flat_map (fun e => match e with ESend slot => [slot] | _ => [] end) tr.

End Channel.

Module Entry.

Import Upstream.

(** What [Backfill] returns: the error of [getHeadSlot], or what
    [scanEpochRange] returned, whose totals it only logs. *)
Inductive result :=
| HeadError
| Ran (slots updates_ : N) (err : bool).

(** [Backfill]: it resolves the head, derives the window and runs
    [scanEpochRange] over it to its return.  [Backfill E api lg lg' done r]:
    from the log [lg] the call leaves the log [lg'] (the scan's own
    requests apart), the calls of [processSlot] that returned are [done]
    and the call returns [r]. *)
Inductive Backfill (E : env) (consensusAPI : string) (lg : list io)
  : list io -> list (N * N) -> result -> Prop :=
| bf_head_error :
    snd (getHeadSlot E consensusAPI lg) = None ->
    Backfill E consensusAPI lg (fst (getHeadSlot E consensusAPI lg)) [] HeadError
| bf_scan headSlot jobs tr s a b e :
    snd (getHeadSlot E consensusAPI lg) = Some headSlot ->
    Backfill.jobs_of (fst (Backfill.window headSlot)) (snd (Backfill.window headSlot)) =
      Some jobs ->
    Pool.exec (Pool.init jobs) tr s ->
    Pool.prod s = Pool.PDone a b e ->
    Backfill E consensusAPI lg (fst (getHeadSlot E consensusAPI lg)) (Pool.processed s)
      (Ran a b e).

End Entry.

(** ** The response transforms of the validator route *)

Module Dyn.

(** What sits behind an [interface{}] of a response body: the values
    [encoding/json] decodes (nil, bool, float64 by its bit pattern, string,
    [[]interface{}], [map[string]interface{}]) and the [uint64] the proxy
    stores itself. *)
#[local] Unset Elimination Schemes.
Inductive value :=
| VNil
| VBool (b : bool)
| VFloat (bits : N)
| VString (s : string)
| VUint (n : N)
| VArray (l : list value)
| VObject (m : gmap string value).
#[local] Set Elimination Schemes.

(** A decoded JSON value as such a value. *)
Fixpoint of_json (v : Voter.value) : value :=
  match v with
  | Voter.VNil => VNil
  | Voter.VBool b => VBool b
  | Voter.VNumber bits => VFloat bits
  | Voter.VString s => VString s
  | Voter.VArray l => VArray (map of_json l)
  | Voter.VObject m => VObject (of_json <$> m)
  end.

(** The number of nodes of a value. *)
Fixpoint size (v : value) : nat :=
  match v with
  | VObject m => S (map_fold (fun _ x n => size x + n)%nat 0%nat m)
  | VArray l => S (list_sum (map size l))
  | _ => 1
  end.

(** [v] occurs in [root]: it is [root], or it occurs in a field of the
    object [root] or in an item of the array [root]. *)
Inductive inside (v : value) : value -> Prop :=
| inside_here : inside v v
| inside_field m k x : m !! k = Some x -> inside v x -> inside v (VObject m)
| inside_item l x : In x l -> inside v x -> inside v (VArray l).

(** The outermost constructor of a value, with its scalar if it is one. *)
Definition shallow (v : value) : value :=
  match v with
  | VObject _ => VObject ∅
  | VArray _ => VArray []
  | _ => v
  end.

(** A function on values that keeps the outermost constructor and the
    scalars, as the walks of the two transforms do. *)
Definition walker (f : value -> value) : Prop := forall v, shallow (f v) = shallow v.

(** The assertions [m[k].(string)] and [m[k].(bool)]. *)
Definition string_at (m : gmap string value) (k : string) : option string :=
  match m !! k with
  | Some (VString s) => Some s
  | _ => None
  end.

Definition flag_at (m : gmap string value) (k : string) : bool :=
  match m !! k with
  | Some (VBool b) => b
  | _ => false
  end.

(** *** mapValidatorStatus *)

(** The [if status, hasStatus := v["status"].(string); hasStatus] block:
    what it does to the object itself. *)
Definition remap (v : gmap string value) : gmap string value :=
  match v !! "status" with
  | Some (VString status) =>
      let slashed := match v !! "slashed" with Some (VBool b) => b | _ => false end in
      if String.eqb status "active_ongoing" then <["status" := VString "active_online"]> v
      else if String.eqb status "withdrawal_done" then
        if slashed then <["status" := VString "slashed"]> v
        else <["status" := VString "exited"]> v
      else v
  | _ => v
  end.

(** [mapValidatorStatus]: the value the argument holds after the call.
    The source remaps the object and then walks its values; the walk
    leaves strings and booleans as they are, so the map is the same if the
    values are walked first ([remap_walk] below), which is how the
    recursion is written here, on the values of the argument. *)
Fixpoint mapValidatorStatus (data : value) : value :=
  match data with
  | VObject v => VObject (remap (mapValidatorStatus <$> v))
  | VArray v => VArray (map mapValidatorStatus v)
  | _ => data
  end.

(** The status [remap] writes, if it writes one. *)
Definition new_status (m : gmap string value) : option string :=
  match string_at m "status" with
  | Some status =>
      if String.eqb status "active_ongoing" then Some "active_online"
      else if String.eqb status "withdrawal_done"
           then Some (if flag_at m "slashed" then "slashed" else "exited")
           else None
  | None => None
  end.

(** A value with the string under every key ["status"] blanked. *)
Definition blank_status (m : gmap string value) : gmap string value :=
  match m !! "status" with
  | Some (VString _) => <["status" := VString ""]> m
  | _ => m
  end.

Fixpoint blanked (v : value) : value :=
  match v with
  | VObject m => VObject (blank_status (blanked <$> m))
  | VArray l => VArray (map blanked l)
  | _ => v
  end.

(** The two statuses of Dora that the route rewrites. *)
Definition rewritten (status : string) : bool :=
  String.eqb status "active_ongoing" || String.eqb status "withdrawal_done".

(** *** attachLastAttestSlot *)

Section Conversions.

(** The conversion [uint64(t)] of a [float64], on bit patterns; Go leaves
    its result open where the value does not fit. *)
Variable uint64_of_float : N -> N.

(** [parseUint64FromInterface]. *)
Definition parseUint64FromInterface (v : value) : N * bool :=
  match v with
  | VString t =>
      if String.eqb t "" then (0, false)
      else match Upstream.ParseUint t with
           | None => (0, false)
           | Some n => (n, true)
           end
  | VFloat t => (uint64_of_float t, true)
  | _ => (0, false)
  end.

(** The [if val, has := m["validatorindex"]; has] block. *)
Definition stamp (cache : Cache.store) (m : gmap string value) : gmap string value :=
  match m !! "validatorindex" with
  | Some val =>
      let '(idx, ok) := parseUint64FromInterface val in
      if ok then <["lastattestationslot" := VUint (Cache.Get cache idx)]> m else m
  | None => m
  end.

(** The index [stamp] looks up, if it writes. *)
Definition index_at (m : gmap string value) : option N :=
  match m !! "validatorindex" with
  | Some val =>
      let '(idx, ok) := parseUint64FromInterface val in
      if ok then Some idx else None
  | None => None
  end.

(** [attachLastAttestSlot]: the value the argument holds after the call,
    written like [mapValidatorStatus] ([stamp_walk] below).  [cache] is
    the content of the cache during the call: the tracker does not write
    to it meanwhile. *)
Fixpoint attachLastAttestSlot (cache : Cache.store) (v : value) : value :=
  match v with
  | VObject m => VObject (stamp cache (attachLastAttestSlot cache <$> m))
  | VArray m => VArray (map (attachLastAttestSlot cache) m)
  | _ => v
  end.

(** The transform of [POST /api/v1/validator]. *)
Definition validator_transform (cache : Cache.store) (body : value) : value :=
  attachLastAttestSlot cache (mapValidatorStatus body).

End Conversions.

(** A value with the key ["lastattestationslot"] taken out of every object. *)
Fixpoint unstamped (v : value) : value :=
  match v with
  | VObject m => VObject (delete "lastattestationslot" (unstamped <$> m))
  | VArray l => VArray (map unstamped l)
  | _ => v
  end.

End Dyn.

(** ** The slot route: enrichment from the consensus node and projection *)

Module Slot.

Import Dyn.

(** [DoraSlotData], [BeaconMissingFields] and [SlotResponse]; a [float64]
    by its bit pattern. *)
Record DoraSlotData := {
  AttestationsCount : N;
  AttesterSlashingsCount : N;
  BlockRoot : string;
  DepositsCount : N;
  Epoch : N;
  ExecBaseFeePerGas : N;
  ExecBlockHash : string;
  ExecBlockNumber : N;
  ExecExtraData : string;
  ExecFeeRecipient : string;
  ExecGasLimit : N;
  ExecGasUsed : N;
  ExecTransactionsCount : N;
  Graffiti : string;
  GraffitiText : string;
  ParentRoot : string;
  Proposer : N;
  ProposerSlashingsCount : N;
  Slot : N;
  StateRoot : string;
  Status : string;
  SyncAggregateParticipation : N;
  VoluntaryExitsCount : N;
  WithdrawalCount : N;
  BlobCount : N
}.

Record BeaconMissingFields := {
  Eth1dataBlockHash : string;
  Eth1dataDepositCount : N;
  Eth1dataDepositRoot : string;
  ExecLogsBloom : string;
  ExecParentHash : string;
  ExecRandom : string;
  ExecReceiptsRoot : string;
  ExecStateRoot : string;
  ExecTimestamp : N;
  Randaoreveal : string;
  Signature : string;
  SyncaggregateBits : string;
  SyncaggregateSignature : string
}.

Record SlotResponse := {
  Dora : DoraSlotData;
  Beacon : BeaconMissingFields
}.

(** The read [m[key]]: the nil interface for a missing key. *)
Definition at_key (m : gmap string value) (key : string) : value :=
  default VNil (m !! key).

(** The comparison [f != 0] of a [float64]: neither of the two zeros. *)
Definition float_nonzero (bits : N) : bool :=
  negb ((bits =? 0) || (bits =? 2 ^ 63)).

(** [asString]. *)
Definition asString (v : value) : string :=
  match v with
  | VString s => s
  | _ => ""
  end.

(** [setStringIfEmpty]; [None] is the nil map. *)
Definition setStringIfEmpty (m : option (gmap string value)) (key val : string)
  : option (gmap string value) :=
  match m with
  | None => m
  | Some m' =>
      if String.eqb val "" then m
      else match m' !! key with
           | Some (VString s) =>
               if negb (String.eqb s "") then m else Some (<[key := VString val]> m')
           | _ => Some (<[key := VString val]> m')
           end
  end.

(** [setUintIfZero]: what it stores is the [uint64] itself. *)
Definition setUintIfZero (m : option (gmap string value)) (key : string) (val : N)
  : option (gmap string value) :=
  match m with
  | None => m
  | Some m' =>
      if val =? 0 then m
      else match m' !! key with
           | Some (VFloat f) =>
               if float_nonzero f then m else Some (<[key := VUint val]> m')
           | _ => Some (<[key := VUint val]> m')
           end
  end.

Section Conversions.

Variable uint64_of_float : N -> N.

(** [strconv.ParseFloat(s, 64)], to the bit pattern; [None] for its errors. *)
Variable ParseFloat : string -> option N.

(** [asUint]. *)
Definition asUint (v : value) : N :=
  match v with
  | VFloat t => uint64_of_float t
  | VString t =>
      if String.eqb t "" then 0
      else match Upstream.ParseUint t with
           | None => 0
           | Some n => n
           end
  | _ => 0
  end.

(** [asFloat]. *)
Definition asFloat (v : value) : N :=
  match v with
  | VFloat t => t
  | VString t =>
      if String.eqb t "" then 0
      else match ParseFloat t with
           | None => 0
           | Some f => f
           end
  | _ => 0
  end.

(** [buildSlotResponseFromMap]. *)
Definition buildSlotResponseFromMap (m : gmap string value) : SlotResponse :=
  {| Dora :=
       {| AttestationsCount := asUint (at_key m "attestationscount");
          AttesterSlashingsCount := asUint (at_key m "attesterslashingscount");
          BlockRoot := asString (at_key m "blockroot");
          DepositsCount := asUint (at_key m "depositscount");
          Epoch := asUint (at_key m "epoch");
          ExecBaseFeePerGas := asUint (at_key m "exec_base_fee_per_gas");
          ExecBlockHash := asString (at_key m "exec_block_hash");
          ExecBlockNumber := asUint (at_key m "exec_block_number");
          ExecExtraData := asString (at_key m "exec_extra_data");
          ExecFeeRecipient := asString (at_key m "exec_fee_recipient");
          ExecGasLimit := asUint (at_key m "exec_gas_limit");
          ExecGasUsed := asUint (at_key m "exec_gas_used");
          ExecTransactionsCount := asUint (at_key m "exec_transactions_count");
          Graffiti := asString (at_key m "graffiti");
          GraffitiText := asString (at_key m "graffiti_text");
          ParentRoot := asString (at_key m "parentroot");
          Proposer := asUint (at_key m "proposer");
          ProposerSlashingsCount := asUint (at_key m "proposerslashingscount");
          Slot := asUint (at_key m "slot");
          StateRoot := asString (at_key m "stateroot");
          Status := asString (at_key m "status");
          SyncAggregateParticipation := asFloat (at_key m "syncaggregate_participation");
          VoluntaryExitsCount := asUint (at_key m "voluntaryexitscount");
          WithdrawalCount := asUint (at_key m "withdrawalcount");
          BlobCount := asUint (at_key m "blob_count") |};
     Beacon :=
       {| Eth1dataBlockHash := asString (at_key m "eth1data_blockhash");
          Eth1dataDepositCount := asUint (at_key m "eth1data_depositcount");
          Eth1dataDepositRoot := asString (at_key m "eth1data_depositroot");
          ExecLogsBloom := asString (at_key m "exec_logs_bloom");
          ExecParentHash := asString (at_key m "exec_parent_hash");
          ExecRandom := asString (at_key m "exec_random");
          ExecReceiptsRoot := asString (at_key m "exec_receipts_root");
          ExecStateRoot := asString (at_key m "exec_state_root");
          ExecTimestamp := asUint (at_key m "exec_timestamp");
          Randaoreveal := asString (at_key m "randaoreveal");
          Signature := asString (at_key m "signature");
          SyncaggregateBits := asString (at_key m "syncaggregate_bits");
          SyncaggregateSignature := asString (at_key m "syncaggregate_signature") |} |}.

(** The pattern [if v, ok := src[from].(string); ok { setStringIfEmpty(slotData, to, v) }]. *)
Definition copy_string (src : gmap string Voter.value) (from to : string)
    (slotData : option (gmap string value)) : option (gmap string value) :=
  let '(v, ok) := Voter.as_string src from in
  if ok then setStringIfEmpty slotData to v else slotData.

(** The part of [enrichSlotConsensus] after [body] is found: the fields
    it fills, in the order of the source. *)
Definition fill (data body_ : gmap string Voter.value)
    (slotData : option (gmap string value)) : option (gmap string value) :=
  let slotData :=
    let '(sig, ok) := Voter.as_string data "signature" in
    if ok && negb (String.eqb sig "") then setStringIfEmpty slotData "signature" sig
    else slotData in
  let slotData :=
    match Voter.as_object body_ "eth1_data" with
    | Some eth1 =>
        let slotData :=
          match eth1 !! "deposit_count" with
          | Some v =>
              let '(n, ok2) := parseUint64FromInterface uint64_of_float (of_json v) in
              if ok2 then setUintIfZero slotData "eth1data_depositcount" n else slotData
          | None => slotData
          end in
        let slotData := copy_string eth1 "deposit_root" "eth1data_depositroot" slotData in
        copy_string eth1 "block_hash" "eth1data_blockhash" slotData
    | None => slotData
    end in
  let slotData :=
    match Voter.as_object body_ "sync_aggregate" with
    | Some sa =>
        let slotData := copy_string sa "sync_committee_bits" "syncaggregate_bits" slotData in
        copy_string sa "sync_committee_signature" "syncaggregate_signature" slotData
    | None => slotData
    end in
  let slotData := copy_string body_ "randao_reveal" "randaoreveal" slotData in
  match Voter.as_object body_ "execution_payload" with
  | Some exec =>
      let slotData := copy_string exec "logs_bloom" "exec_logs_bloom" slotData in
      let slotData := copy_string exec "parent_hash" "exec_parent_hash" slotData in
      let slotData := copy_string exec "prev_randao" "exec_random" slotData in
      let slotData := copy_string exec "receipts_root" "exec_receipts_root" slotData in
      let slotData := copy_string exec "state_root" "exec_state_root" slotData in
      copy_string exec "timestamp" "exec_timestamp" slotData
  | None => slotData
  end.

(** The URL [enrichSlotConsensus] asks. *)
Definition enrich_url (consensusAPI blockID : string) : string :=
  Upstream.TrimRight consensusAPI "/" +:+ "/eth/v2/beacon/blocks/" +:+ blockID.

(** [enrichSlotConsensus]: the log and the slot data after the call. *)
Definition enrichSlotConsensus (E : Upstream.env) (consensusAPI blockID : string)
    (lg : list Upstream.io) (slotData : option (gmap string value))
  : list Upstream.io * option (gmap string value) :=
  let url := enrich_url consensusAPI blockID in
  if negb (Upstream.parses E url) then (lg, slotData)
  else
    let r := Upstream.answer E (Upstream.requests lg) url in
    let lg := lg ++ [Upstream.Request url] in
    match r with
    | Upstream.NetErr => (lg, slotData)
    | Upstream.Response status b =>
        if negb (status =? Upstream.StatusOK) then (lg, slotData)
        else
          match Upstream.as_block b with
          | None => (lg, slotData)
          | Some payload =>
              match Voter.as_object payload "data" with
              | None => (lg, slotData)
              | Some data =>
                  match Voter.as_object data "message" with
                  | None => (lg, slotData)
                  | Some message =>
                      match Voter.as_object message "body" with
                      | None => (lg, slotData)
                      | Some body_ => (lg, fill data body_ slotData)
                      end
                  end
              end
          end
    end.

(** What the slot route answers with for the object [data] under the key
    [data] of the upstream body: [enrichSlotConsensus] and then
    [buildSlotResponseFromMap]. *)
Definition slot_response (E : Upstream.env) (consensusAPI id : string)
    (lg : list Upstream.io) (data : gmap string value) : list Upstream.io * SlotResponse :=
  let '(lg, enriched) := enrichSlotConsensus E consensusAPI id lg (Some data) in
  (lg, buildSlotResponseFromMap (default ∅ enriched)).

End Conversions.

(** *** The block of the consensus node, field by field *)

(** The string at [obj.key] of [m]; empty if there is none. *)
Definition nested (m : gmap string Voter.value) (obj key : string) : string :=
  match Voter.as_object m obj with
  | Some o => fst (Voter.as_string o key)
  | None => ""
  end.

(** The strings [enrichSlotConsensus] offers, by the key of the slot data
    they are for, in the order of the source after the deposit count. *)
Definition offered (data body_ : gmap string Voter.value) : list (string * string) :=
  [ ("eth1data_depositroot", nested body_ "eth1_data" "deposit_root");
    ("eth1data_blockhash", nested body_ "eth1_data" "block_hash");
    ("syncaggregate_bits", nested body_ "sync_aggregate" "sync_committee_bits");
    ("syncaggregate_signature", nested body_ "sync_aggregate" "sync_committee_signature");
    ("randaoreveal", fst (Voter.as_string body_ "randao_reveal"));
    ("exec_logs_bloom", nested body_ "execution_payload" "logs_bloom");
    ("exec_parent_hash", nested body_ "execution_payload" "parent_hash");
    ("exec_random", nested body_ "execution_payload" "prev_randao");
    ("exec_receipts_root", nested body_ "execution_payload" "receipts_root");
    ("exec_state_root", nested body_ "execution_payload" "state_root");
    ("exec_timestamp", nested body_ "execution_payload" "timestamp") ].

(** The deposit count it offers; 0 if there is none that parses. *)
Definition offered_count (uint64_of_float : N -> N) (body_ : gmap string Voter.value) : N :=
  match Voter.as_object body_ "eth1_data" with
  | Some eth1 =>
      match eth1 !! "deposit_count" with
      | Some v => fst (parseUint64FromInterface uint64_of_float (of_json v))
      | None => 0
      end
  | None => 0
  end.

(** The fill as one pass over what is offered. *)
Definition fill_spec (uint64_of_float : N -> N) (data body_ : gmap string Voter.value)
    (slotData : option (gmap string value)) : option (gmap string value) :=
  fold_left (fun sd ks => setStringIfEmpty sd (fst ks) (snd ks)) (offered data body_)
    (setUintIfZero
       (setStringIfEmpty slotData "signature" (fst (Voter.as_string data "signature")))
       "eth1data_depositcount" (offered_count uint64_of_float body_)).

(** The keys [enrichSlotConsensus] may write. *)
Definition enriched_keys : list string :=
  "signature" :: "eth1data_depositcount" :: map fst (offered ∅ ∅).

(** What [setStringIfEmpty] makes of one entry: a string that is there and
    not empty stays, and so does everything if nothing is offered; else
    the entry is the offered string. *)
Definition filled (before after : gmap string value) (key offer : string) : Prop :=
  (asString (at_key before key) <> "" \/ offer = "" -> after !! key = before !! key) /\
  (asString (at_key before key) = "" -> offer <> "" -> after !! key = Some (VString offer)).

(** The JSON tags [buildSlotResponseFromMap] reads. *)
Definition tags : list string :=
  [ "attestationscount"; "attesterslashingscount"; "blockroot"; "depositscount"; "epoch";
    "exec_base_fee_per_gas"; "exec_block_hash"; "exec_block_number"; "exec_extra_data";
    "exec_fee_recipient"; "exec_gas_limit"; "exec_gas_used"; "exec_transactions_count";
    "graffiti"; "graffiti_text"; "parentroot"; "proposer"; "proposerslashingscount";
    "slot"; "stateroot"; "status"; "syncaggregate_participation"; "voluntaryexitscount";
    "withdrawalcount"; "blob_count";
    "eth1data_blockhash"; "eth1data_depositcount"; "eth1data_depositroot";
    "exec_logs_bloom"; "exec_parent_hash"; "exec_random"; "exec_receipts_root";
    "exec_state_root"; "exec_timestamp"; "randaoreveal"; "signature";
    "syncaggregate_bits"; "syncaggregate_signature" ].

End Slot.

(** ** The head root of the slot route *)

Module HeadRoot.

Import Upstream.


Section Decode.

(** What [json.Decoder.Decode] makes of a body into the struct with the
    one field [Data.Root]: that string, or [None] for a decoding error. *)
Variable as_header : body -> option string.



End Decode.



End HeadRoot.

(** ** The configuration *)

Module Config.

Record proxyConfig := {
  ListenAddr : string;
  UpstreamBaseURL : string;
  ConsensusAPIURL : string
}.

(** [strings.HasSuffix]: [len(s) >= len(suffix)] and the last
    [len(suffix)] bytes of [s] are [suffix]. *)
Definition HasSuffix (s suffix : string) : bool :=
  (String.length suffix <=? String.length s)%nat &&
  String.eqb (Hex.from (String.length s - String.length suffix) s) suffix.

Section Environment.

(** [os.Getenv]: the empty string for a variable that is not set. *)
Variable Getenv : string -> string.

(** [getEnv]. *)
Definition getEnv (key def : string) : string :=
  let v := Getenv key in
  if negb (String.eqb v "") then v else def.

(** [loadConfig]. *)
Definition loadConfig : proxyConfig :=
  let cfg :=
    {| ListenAddr := getEnv "PROXY_LISTEN_ADDR" ":8081";
       UpstreamBaseURL := getEnv "PROXY_UPSTREAM_BASE_URL" "http://localhost:8080";
       ConsensusAPIURL := getEnv "PROXY_CONSENSUS_API_URL" "http://localhost:5052" |} in
  if negb (HasSuffix (UpstreamBaseURL cfg) "/api") then
    {| ListenAddr := ListenAddr cfg;
       UpstreamBaseURL := Upstream.TrimRight (UpstreamBaseURL cfg) "/" +:+ "/api";
       ConsensusAPIURL := ConsensusAPIURL cfg |}
  else cfg.

End Environment.

(** An environment with one variable set. *)
Definition setenv (key val : string) (Getenv : string -> string) : string -> string :=
  fun k => if String.eqb k key then val else Getenv k.

End Config.

(** ** The voters of a block *)

Module Marks.

Import Voter Upstream.



End Marks.

(** ** The headers of the upstream request *)

Module Headers.

(** [http.Header]. *)
Abbreviation Header := (gmap string (list string)).

(** The names [shouldSkipHeader] compares with. *)
Definition hop_by_hop : list string :=
  [ "accept-encoding"; "connection"; "keep-alive"; "proxy-authenticate";
    "proxy-authorization"; "te"; "trailer"; "transfer-encoding"; "upgrade"; "host" ].

(** [shouldSkipHeader].  The names of a request's headers are ASCII
    tokens ([net/http] refuses others), for which [strings.ToLower] is the
    byte-wise [Hex.ToLower]. *)
Definition shouldSkipHeader (k : string) : bool :=
  existsb (String.eqb (Hex.ToLower k)) hop_by_hop.

Section Canonical.

(** [textproto.CanonicalMIMEHeaderKey]. *)
Variable canon : string -> string.

(** [Header.Add] and [Header.Set]. *)
Definition Add (h : Header) (key val : string) : Header :=
  <[canon key := default [] (h !! canon key) ++ [val]]> h.

Definition Set_ (h : Header) (key val : string) : Header :=
  <[canon key := [val]]> h.

(** [copyHeaders], with the entries of [src] in the order in which the
    [range] visits them, which Go leaves open. *)
Definition copyHeaders (dst : Header) (src : list (string * list string)) : Header :=
  fold_left
    (fun (dst : Header) (kvv : string * list string) =>
       if shouldSkipHeader (fst kvv) then dst
       else fold_left (fun d v => Add d (fst kvv) v) (snd kvv) dst)
    src dst.

(** The headers [proxyJSON] sends upstream for a request with the headers
    [src]: copied into the empty header of the new request, then [Accept]
    set. *)
Definition upstream_headers (src : list (string * list string)) : Header :=
  Set_ (copyHeaders ∅ src) "Accept" "application/json".

End Canonical.

(** A header that is forwarded: not hop-by-hop, and with a value. *)
Definition forwarded (kvv : string * list string) : Prop :=
  shouldSkipHeader (fst kvv) = false /\ snd kvv <> [].

#[global] Instance forwarded_dec kvv : Decision (forwarded kvv).
Proof. unfold forwarded. apply _. Defined.

End Headers.


(** ** The string fields of the slot response by their JSON tags *)

Module Tags.

Import Slot.

(** The string field of [BeaconMissingFields] with the JSON tag [key]. *)
Definition beacon_string (r : BeaconMissingFields) (key : string) : option string :=
  if String.eqb key "eth1data_blockhash" then Some (Eth1dataBlockHash r)
  else if String.eqb key "eth1data_depositroot" then Some (Eth1dataDepositRoot r)
  else if String.eqb key "exec_logs_bloom" then Some (ExecLogsBloom r)
  else if String.eqb key "exec_parent_hash" then Some (ExecParentHash r)
  else if String.eqb key "exec_random" then Some (ExecRandom r)
  else if String.eqb key "exec_receipts_root" then Some (ExecReceiptsRoot r)
  else if String.eqb key "exec_state_root" then Some (ExecStateRoot r)
  else if String.eqb key "randaoreveal" then Some (Randaoreveal r)
  else if String.eqb key "signature" then Some (Signature r)
  else if String.eqb key "syncaggregate_bits" then Some (SyncaggregateBits r)
  else if String.eqb key "syncaggregate_signature" then Some (SyncaggregateSignature r)
  else None.

(** Dora's string if it has one, else the one the consensus node offers. *)
Definition preferred (dora offer : string) : string :=
  if String.eqb dora "" then offer else dora.

End Tags.

(** * Properties *)

(** ** LastAttestCache *)

Section CacheFacts.

Import Cache.

Implicit Types (m : gmap N N) (index slot v : N).

Lemma Get_lookup m index : Get m index = default 0 (m !! index).
Proof. unfold Get, lookup2. by destruct (m !! index). Qed.

Lemma SetIfGreater_fst m index slot :
  fst (SetIfGreater m index slot) =
    if snd (SetIfGreater m index slot) then <[index := slot]> m else m.
Proof.
  unfold SetIfGreater, lookup2.
  destruct (m !! index) as [cur|]; simpl; [|done].
  by destruct (cur <? slot).
Qed.

Lemma SetIfGreater_updated m index slot :
  snd (SetIfGreater m index slot) = true <->
  m !! index = None \/ exists cur, m !! index = Some cur /\ cur < slot.
Proof.
  unfold SetIfGreater, lookup2.
  destruct (m !! index) as [cur|] eqn:Hm; simpl.
  - destruct (N.ltb_spec cur slot); simpl; split; try done.
    + intros _. right. eauto.
    + intros [|(c & [= <-] & ?)]; [done | lia].
  - split; auto.
Qed.

Lemma Get_SetIfGreater m index slot v :
  Get (fst (SetIfGreater m index slot)) v =
    if decide (index = v) then N.max (Get m v) slot else Get m v.
Proof.
  rewrite !Get_lookup. unfold SetIfGreater, lookup2.
  destruct (decide (index = v)) as [->|Hne].
  - destruct (m !! v) as [cur|] eqn:Hm; simpl.
    + destruct (N.ltb_spec cur slot); simpl.
      * rewrite lookup_insert_eq. simpl. lia.
      * rewrite Hm. simpl. lia.
    + rewrite lookup_insert_eq. simpl. lia.
  - destruct (m !! index) as [cur|]; simpl.
    + destruct (cur <? slot); simpl; [by rewrite lookup_insert_ne|done].
    + by rewrite lookup_insert_ne.
Qed.

Lemma Get_SetIfGreater_le m index slot v :
  Get m v <= Get (fst (SetIfGreater m index slot)) v.
Proof. rewrite Get_SetIfGreater. case_decide; lia. Qed.

Lemma Get_run calls m v :
  Get (run calls m) v = N.max (Get m v) (highest (slots_for v calls)).
Proof.
  revert m. induction calls as [|[i s] calls IH]; intros m; simpl.
  - unfold run. simpl. lia.
  - unfold run in *. simpl. rewrite IH, Get_SetIfGreater.
    unfold slots_for. rewrite filter_cons. simpl.
    destruct (decide (i = v)); simpl; lia.
Qed.

Lemma Get_run_le calls m v : Get m v <= Get (run calls m) v.
Proof. rewrite Get_run. lia. Qed.

End CacheFacts.

(** C4: [Get] is 0 for an index never stored and the highest slot recorded
    for it otherwise; [SetIfGreater] stores [slot] exactly when there is no
    value for the index or [slot] is strictly greater than it, and returns
    [true] exactly then. *)
Theorem cache_contract :
  (forall (m : gmap N N) index, m !! index = None -> Cache.Get m index = 0) /\
  (forall calls index,
     index ∉ map fst calls ->
     Cache.Get (Cache.run calls Cache.NewLastAttestCache) index = 0) /\
  (forall calls index,
     Cache.Get (Cache.run calls Cache.NewLastAttestCache) index =
       Cache.highest (Cache.slots_for index calls)) /\
  (forall (m : gmap N N) index slot,
     snd (Cache.SetIfGreater m index slot) = true <->
     (m !! index = None \/ exists cur, m !! index = Some cur /\ cur < slot)) /\
  (forall (m : gmap N N) index slot,
     fst (Cache.SetIfGreater m index slot) =
       if snd (Cache.SetIfGreater m index slot) then <[index := slot]> m else m).
Proof.
  assert (Hrun : forall calls index,
             Cache.Get (Cache.run calls Cache.NewLastAttestCache) index =
               Cache.highest (Cache.slots_for index calls)).
  { intros calls index. rewrite Get_run, Get_lookup.
    unfold Cache.NewLastAttestCache. rewrite lookup_empty. simpl. lia. }
  split; [|split; [|split; [|split]]].
  - intros m index H. by rewrite Get_lookup, H.
  - intros calls index Hnot. rewrite Hrun.
    replace (Cache.slots_for index calls) with (@nil N); [done|].
    unfold Cache.slots_for. induction calls as [|[i s] calls IH]; [done|].
    rewrite filter_cons. simpl in *.
    apply not_elem_of_cons in Hnot as [Hne Hnot].
    destruct (decide (i = index)); [congruence | auto].
  - exact Hrun.
  - apply SetIfGreater_updated.
  - apply SetIfGreater_fst.
Qed.

Lemma cache_contract_witness :
  Cache.Get (Cache.run [(7, 5); (8, 9); (7, 3)] Cache.NewLastAttestCache) 7 = 5 /\
  Cache.Get (Cache.run [(7, 5); (8, 9); (7, 3)] Cache.NewLastAttestCache) 6 = 0.
Proof.
  destruct cache_contract as (_ & Hnever & Hmax & _).
  split.
  - exact (Hmax [(7, 5); (8, 9); (7, 3)] 7).
  - apply Hnever. intros Hin. simpl in Hin.
    repeat (apply elem_of_cons in Hin as [Hin|Hin]; [discriminate Hin|]).
    by apply elem_of_nil in Hin.
Defined.

Section CacheConcurrent.

Import Cache.

Lemma mutex_inv_init n : mutex_inv (init n).
Proof.
  intros i p H. unfold init in H. simpl in H.
  apply lookup_replicate in H as [-> _]. exact I.
Qed.

Lemma mutex_inv_step s e s' : mutex_inv s -> step s e s' -> mutex_inv s'.
Proof.
  intros Hinv Hstep. destruct Hstep as [s i p e m' l' p' Hi Ht].
  pose proof (Hinv i p Hi) as Hp.
  intros j q Hj. simpl in Hj.
  destruct s as [m l ts]. unfold holds_lock in *. simpl in *.
  destruct (decide (i = j)) as [<-|Hne].
  - rewrite list_lookup_insert_eq in Hj by (by eapply lookup_lt_Some).
    injection Hj as <-.
    inversion Ht; subst; simpl in *; auto; try (by destruct Hp).
    split; [done|].
    match goal with |- context [lookup2 ?a ?b] => by destruct (lookup2 a b) end.
  - rewrite list_lookup_insert_ne in Hj by done.
    pose proof (Hinv j q Hj) as Hq. unfold holds_lock in Hq. simpl in Hq.
    inversion Ht; subst; simpl in *; auto;
      destruct q; simpl in *; auto; try congruence;
      try (destruct Hq; congruence); try (destruct Hp; congruence);
      try (destruct Hp, Hq; congruence).
Qed.

Lemma mutex_inv_exec s tr s' : mutex_inv s -> exec s tr s' -> mutex_inv s'.
Proof. intros Hinv Hex. induction Hex; eauto using mutex_inv_step. Qed.

(** Under the lock, test and store are [SetIfGreater]. *)
Lemma step_applied s index slot b s' :
  mutex_inv s -> step s (EApplied index slot b) s' ->
  mem s' = fst (SetIfGreater (mem s) index slot) /\
  b = snd (SetIfGreater (mem s) index slot).
Proof.
  intros Hinv Hstep. inversion Hstep as [s0 i p e m' l' p' Hi Ht]; subst.
  pose proof (Hinv i p Hi) as Hp.
  destruct s as [m l ts]. unfold holds_lock in *. simpl in *.
  inversion Ht; subst; simpl in *; destruct Hp as [_ Hl];
    unfold SetIfGreater; rewrite <- Hl;
    match goal with H : _ || _ = _ |- _ => rewrite H end; done.
Qed.

Lemma step_mem s e s' :
  step s e s' -> (forall index slot b, e <> EApplied index slot b) -> mem s' = mem s.
Proof.
  intros Hstep Hne. destruct Hstep as [s i p e m' l' p' Hi Ht].
  inversion Ht; subst; simpl; try done; exfalso; eapply Hne; eauto.
Qed.

Lemma step_monotone s e s' v :
  mutex_inv s -> step s e s' -> Get (mem s) v <= Get (mem s') v.
Proof.
  intros Hinv Hstep.
  destruct e as [|i a|i sl b].
  - rewrite (step_mem _ _ _ Hstep); [lia | done].
  - rewrite (step_mem _ _ _ Hstep); [lia | done].
  - destruct (step_applied _ _ _ _ _ Hinv Hstep) as [-> _].
    apply Get_SetIfGreater_le.
Qed.

Lemma exec_monotone s tr s' v :
  mutex_inv s -> exec s tr s' -> Get (mem s) v <= Get (mem s') v.
Proof.
  intros Hinv Hex. induction Hex as [|s e s' tr s'' Hstep Hex IH]; [lia|].
  etrans; [by eapply step_monotone|].
  apply IH. by eapply mutex_inv_step.
Qed.

Lemma step_read s index a s' : step s (ERead index a) s' -> a = Get (mem s) index.
Proof.
  intros Hstep. inversion Hstep as [s0 i p e m' l' p' Hi Ht]; subst.
  by inversion Ht.
Qed.

(** Every later read of [v] is at least what the map holds now. *)
Lemma reads_bounded s tr s' v :
  mutex_inv s -> exec s tr s' -> Forall (fun a => Get (mem s) v <= a) (reads_of v tr).
Proof.
  intros Hinv Hex. induction Hex as [|s e s' tr s'' Hstep Hex IH]; [constructor|].
  pose proof (step_monotone _ _ _ v Hinv Hstep) as Hle.
  specialize (IH (mutex_inv_step _ _ _ Hinv Hstep)).
  assert (Htl : Forall (fun a => Get (mem s) v <= a) (reads_of v tr)).
  { eapply Forall_impl; [exact IH|]. simpl. intros. lia. }
  destruct e as [|i a|i sl b]; simpl; try done.
  destruct (N.eqb_spec i v) as [->|]; [|done].
  constructor; [|done].
  rewrite (step_read _ _ _ _ Hstep). lia.
Qed.

Lemma reads_nondecreasing s tr s' v :
  mutex_inv s -> exec s tr s' -> nondecreasing (reads_of v tr).
Proof.
  intros Hinv Hex. induction Hex as [|s e s' tr s'' Hstep Hex IH]; [exact I|].
  pose proof (mutex_inv_step _ _ _ Hinv Hstep) as Hinv'.
  specialize (IH Hinv').
  destruct e as [|i a|i sl b]; simpl; try done.
  destruct (N.eqb_spec i v) as [->|]; [|done].
  split; [|done].
  rewrite (step_read _ _ _ _ Hstep).
  eapply Forall_impl; [exact (reads_bounded _ _ _ v Hinv' Hex)|].
  simpl. intros a' Ha. pose proof (step_monotone _ _ _ v Hinv Hstep). lia.
Qed.

Lemma exec_app s tr1 s1 tr2 s2 : exec s tr1 s1 -> exec s1 tr2 s2 -> exec s (tr1 ++ tr2) s2.
Proof. intros H1 H2. induction H1; simpl; [done|]. econstructor; eauto. Qed.

(** Once a [SetIfGreater] of [slot] has run its test, the map holds at
    least [slot]. *)
Lemma applied_bound s tr s' v slot b :
  mutex_inv s -> exec s tr s' -> EApplied v slot b ∈ tr -> slot <= Get (mem s') v.
Proof.
  intros Hinv Hex. induction Hex as [|s e s' tr s'' Hstep Hex IH]; intros Hin.
  - by apply elem_of_nil in Hin.
  - pose proof (mutex_inv_step _ _ _ Hinv Hstep) as Hinv'.
    apply elem_of_cons in Hin as [<-|Hin]; [|by apply IH].
    destruct (step_applied _ _ _ _ _ Hinv Hstep) as [Hm _].
    etrans; [|by eapply exec_monotone].
    rewrite Hm, Get_SetIfGreater. rewrite decide_True by done. lia.
Qed.

End CacheConcurrent.

(** C1: whatever calls the goroutines make and however their statements
    interleave, the slot stored for a validator index never decreases, the
    values the [Get]s of an index read never decrease over time, and once a
    [SetIfGreater] of [slot] has been applied no [Get] reads less than
    [slot]; a single [SetIfGreater] never lowers what [Get] returns. *)
Theorem cache_monotone :
  forall n tr1 s1 tr2 s2 v,
    Cache.exec (Cache.init n) tr1 s1 ->
    Cache.exec s1 tr2 s2 ->
    Cache.Get (Cache.mem s1) v <= Cache.Get (Cache.mem s2) v /\
    Cache.nondecreasing (Cache.reads_of v (tr1 ++ tr2)) /\
    (forall slot b,
       Cache.EApplied v slot b ∈ tr1 ->
       slot <= Cache.Get (Cache.mem s1) v /\
       Forall (fun a => slot <= a) (Cache.reads_of v tr2)) /\
    (forall (m : gmap N N) index slot,
       Cache.Get m v <= Cache.Get (fst (Cache.SetIfGreater m index slot)) v).
Proof.
  intros n tr1 s1 tr2 s2 v H1 H2.
  pose proof (mutex_inv_init n) as H0.
  pose proof (mutex_inv_exec _ _ _ H0 H1) as Hinv1.
  split; [by eapply exec_monotone|].
  split; [eapply reads_nondecreasing; [exact H0 | by eapply exec_app]|].
  split.
  - intros slot b Hin.
    pose proof (applied_bound _ _ _ _ _ _ H0 H1 Hin) as Hb.
    split; [done|].
    eapply Forall_impl; [exact (reads_bounded _ _ _ v Hinv1 H2)|].
    simpl. intros. lia.
  - intros. apply Get_SetIfGreater_le.
Qed.

Tactic Notation "cache_step" constr(i) open_constr(rule) :=
  eapply Cache.exec_cons;
  [ eapply (Cache.step_thread _ i); [ reflexivity | eapply rule; try reflexivity ] | simpl ].

Lemma cache_monotone_witness :
  Cache.exec (Cache.init 2)
    [Cache.Tau; Cache.Tau; Cache.Tau; Cache.Tau; Cache.EApplied 7 5 true; Cache.Tau; Cache.Tau]
    {| Cache.mem := <[7 := 5]> Cache.NewLastAttestCache;
       Cache.mu := {| Cache.writer := None; Cache.readers := 1 |};
       Cache.threads := [Cache.SRet true; Cache.GRead 7] |} /\
  Cache.exec
    {| Cache.mem := <[7 := 5]> Cache.NewLastAttestCache;
       Cache.mu := {| Cache.writer := None; Cache.readers := 1 |};
       Cache.threads := [Cache.SRet true; Cache.GRead 7] |}
    [Cache.ERead 7 5; Cache.Tau; Cache.Tau]
    {| Cache.mem := <[7 := 5]> Cache.NewLastAttestCache;
       Cache.mu := {| Cache.writer := None; Cache.readers := 0 |};
       Cache.threads := [Cache.SRet true; Cache.Idle] |} /\
  Forall (fun a => 5 <= a) (Cache.reads_of 7 [Cache.ERead 7 5; Cache.Tau; Cache.Tau]).
Proof.
  assert (H1 : Cache.exec (Cache.init 2)
    [Cache.Tau; Cache.Tau; Cache.Tau; Cache.Tau; Cache.EApplied 7 5 true; Cache.Tau; Cache.Tau]
    {| Cache.mem := <[7 := 5]> Cache.NewLastAttestCache;
       Cache.mu := {| Cache.writer := None; Cache.readers := 1 |};
       Cache.threads := [Cache.SRet true; Cache.GRead 7] |}).
  { unfold Cache.init. simpl.
    cache_step 0%nat (Cache.call_set 0%nat _ _ 7 5).
    cache_step 1%nat (Cache.call_get 1%nat _ _ 7).
    cache_step 0%nat Cache.set_lock.
    cache_step 0%nat Cache.set_read.
    cache_step 0%nat Cache.set_test_store.
    cache_step 0%nat Cache.set_unlock.
    cache_step 1%nat Cache.get_rlock.
    apply Cache.exec_nil. }
  assert (H2 : Cache.exec
    {| Cache.mem := <[7 := 5]> Cache.NewLastAttestCache;
       Cache.mu := {| Cache.writer := None; Cache.readers := 1 |};
       Cache.threads := [Cache.SRet true; Cache.GRead 7] |}
    [Cache.ERead 7 5; Cache.Tau; Cache.Tau]
    {| Cache.mem := <[7 := 5]> Cache.NewLastAttestCache;
       Cache.mu := {| Cache.writer := None; Cache.readers := 0 |};
       Cache.threads := [Cache.SRet true; Cache.Idle] |}).
  { eapply Cache.exec_cons.
    { eapply (Cache.step_thread _ 1%nat); [reflexivity|]. simpl.
      pose proof (Cache.get_read 1%nat (<[7 := 5]> Cache.NewLastAttestCache)
                    {| Cache.writer := None; Cache.readers := 1 |} 7) as Hs.
      assert (E : Cache.Get (<[7 := 5]> Cache.NewLastAttestCache) 7 = 5) by reflexivity.
      rewrite E in Hs. exact Hs. }
    simpl.
    cache_step 1%nat Cache.get_runlock.
    cache_step 1%nat Cache.get_ret.
    apply Cache.exec_nil. }
  split; [exact H1|]. split; [exact H2|].
  destruct (cache_monotone 2 _ _ _ _ 7 H1 H2) as (_ & _ & Happ & _).
  destruct (Happ 5 true) as [_ HF]; [|exact HF].
  do 4 apply list_elem_of_further. apply list_elem_of_here.
Defined.

(** ** hexBitlist *)

Section HexFacts.

Import Hex.

Lemma bit_testbit b i : bit b i = N.testbit b i.
Proof.
  unfold bit.
  rewrite <- (N.add_0_l i) at 2. rewrite <- N.shiftr_spec'.
  change 1 with (N.ones 1) at 1. rewrite N.land_ones. change (2 ^ 1) with 2.
  rewrite <- N.bit0_mod. by destruct (N.testbit (N.shiftr b i) 0).
Qed.

Lemma append_byte_spec bits b : append_byte bits b = bits ++ byte_bits b.
Proof.
  unfold append_byte, byte_bits. simpl. rewrite !bit_testbit.
  by repeat rewrite <- app_assoc.
Qed.

Lemma fold_append_byte bs bits :
  fold_left append_byte bs bits = bits ++ bits_of_bytes bs.
Proof.
  revert bits. induction bs as [|b bs IH]; intros bits; simpl.
  - by rewrite app_nil_r.
  - rewrite IH, append_byte_spec. unfold bits_of_bytes. simpl.
    by rewrite <- app_assoc.
Qed.

Lemma length_bits_of_bytes bs : length (bits_of_bytes bs) = (8 * length bs)%nat.
Proof.
  unfold bits_of_bytes. induction bs as [|b bs IH]; [done|].
  simpl. rewrite IH. lia.
Qed.

Lemma bits_of_bytes_cons b bs : bits_of_bytes (b :: bs) = byte_bits b ++ bits_of_bytes bs.
Proof. reflexivity. Qed.

Lemma length_byte_bits b : length (byte_bits b) = 8%nat.
Proof. reflexivity. Qed.

(** Bit [i] of byte [k] sits at position [8k + i]. *)
Lemma nth_bits_of_bytes bs k i :
  (k < length bs)%nat -> (i < 8)%nat ->
  nth (8 * k + i) (bits_of_bytes bs) false = N.testbit (nth k bs 0) (N.of_nat i).
Proof.
  revert k. induction bs as [|b bs IH]; intros k Hk Hi; simpl in Hk; [lia|].
  rewrite bits_of_bytes_cons.
  destruct k as [|k].
  - rewrite app_nth1 by (rewrite length_byte_bits; lia).
    replace (8 * 0 + i)%nat with i by lia. simpl nth at 2.
    do 8 (destruct i as [|i]; [reflexivity|]). lia.
  - rewrite app_nth2 by (rewrite length_byte_bits; lia).
    rewrite length_byte_bits.
    replace (8 * S k + i - 8)%nat with (8 * k + i)%nat by lia.
    simpl nth at 2. apply IH; lia.
Qed.

Lemma hexBitlist_decoded s bs :
  DecodeString (TrimPrefix (ToLower s) "0x") = Some bs ->
  hexBitlist s = bits_of_bytes bs.
Proof.
  intros H. unfold hexBitlist.
  destruct (String.eqb_spec s "") as [->|_].
  - simpl in H. by injection H as <-.
  - rewrite H. apply fold_append_byte.
Qed.

Lemma hexBitlist_undecoded s :
  DecodeString (TrimPrefix (ToLower s) "0x") = None -> hexBitlist s = [].
Proof.
  intros H. unfold hexBitlist. destruct (String.eqb s ""); [done|]. by rewrite H.
Qed.

Lemma digit_value upper n :
  n < 16 -> fromHexChar (lower (digit upper n)) = Some n.
Proof.
  intros H.
  assert (Hc : In n (map N.of_nat (seq 0 16))).
  { apply in_map_iff. exists (N.to_nat n). split; [lia|]. apply in_seq. lia. }
  cbn in Hc.
  destruct upper; repeat (destruct Hc as [<-|Hc]; [reflexivity|]); destruct Hc.
Qed.

Lemma lor_nibbles b : N.lor (N.shiftl (b / 16) 4) (b mod 16) = b.
Proof.
  apply N.bits_inj. intros n.
  rewrite N.lor_spec.
  change 16 with (2 ^ 4). rewrite <- N.shiftr_div_pow2, <- N.land_ones.
  rewrite N.land_spec.
  destruct (N.lt_ge_cases n 4) as [Hlt|Hge].
  - rewrite N.shiftl_spec_low by done. rewrite N.ones_spec_low by done.
    simpl. by rewrite andb_true_r.
  - rewrite N.shiftl_spec_high' by done. rewrite N.shiftr_spec'.
    rewrite N.ones_spec_high by done.
    rewrite andb_false_r, orb_false_r. f_equal. lia.
Qed.

Lemma decode_encode upper bs :
  Forall (fun b => b < 256) bs ->
  DecodeString (ToLower (encode upper bs)) = Some bs.
Proof.
  induction 1 as [|b bs Hb _ IH]; [done|].
  simpl. rewrite !digit_value.
  - by rewrite IH, lor_nibbles.
  - apply N.mod_lt. lia.
  - apply N.Div0.div_lt_upper_bound. lia.
Qed.

Lemma encode_no_prefix upper bs :
  HasPrefix (ToLower (encode upper bs)) "0x" = false.
Proof.
  destruct bs as [|b bs]; [done|].
  cbn [encode ToLower HasPrefix].
  destruct (Ascii.eqb_spec "0" (lower (digit upper (b / 16)))); [|done].
  assert (Hm : b mod 16 < 16) by (apply N.mod_lt; lia).
  pose proof (digit_value upper (b mod 16) Hm) as Hd.
  destruct (Ascii.eqb_spec "x" (lower (digit upper (b mod 16)))) as [Hx|]; [|done].
  rewrite <- Hx in Hd. discriminate.
Qed.

Lemma TrimPrefix_0x s : TrimPrefix (String.append "0x" s) "0x" = s.
Proof. reflexivity. Qed.

Lemma hexBitlist_encode pre upper bs :
  pre = "0x" \/ pre = "0X" \/ pre = "" ->
  Forall (fun b => b < 256) bs ->
  hexBitlist (String.append pre (encode upper bs)) = bits_of_bytes bs.
Proof.
  intros Hpre Hbs. apply hexBitlist_decoded.
  destruct Hpre as [-> | [-> | ->]].
  - change (ToLower (String.append "0x" (encode upper bs)))
      with (String.append "0x" (ToLower (encode upper bs))).
    rewrite TrimPrefix_0x. by apply decode_encode.
  - change (ToLower (String.append "0X" (encode upper bs)))
      with (String.append "0x" (ToLower (encode upper bs))).
    rewrite TrimPrefix_0x. by apply decode_encode.
  - change (String.append "" (encode upper bs)) with (encode upper bs).
    unfold TrimPrefix. rewrite encode_no_prefix. by apply decode_encode.
Qed.

Lemma fromHexChar_hexdigit c : is_Some (fromHexChar c) <-> hexdigit c.
Proof.
  unfold hexdigit. split.
  - intros [n Hn]. unfold fromHexChar in Hn.
    rewrite <- (ascii_N_embedding c).
    pose proof (N_ascii_bounded c) as Hb.
    destruct (N_of_ascii c) as [|p]; [discriminate|].
    repeat (destruct p as [p|p|]; try discriminate Hn; try (exfalso; lia);
            try (simpl; tauto)).
  - simpl. intros H.
    repeat (destruct H as [<-|H]; [by eexists|]). done.
Qed.

Lemma string_pair_ind (P : string -> Prop) :
  P EmptyString ->
  (forall c, P (String c EmptyString)) ->
  (forall a b s, P s -> P (String a (String b s))) ->
  forall s, P s.
Proof.
  intros H0 H1 H2 s.
  assert (H : P s /\ forall c, P (String c s)); [|by destruct H].
  induction s as [|c s [IHs IHc]]; [by split|].
  split; [apply IHc|]. intros c'. by apply H2.
Qed.

Lemma decode_wellformed s :
  is_Some (DecodeString s) <->
  Forall hexdigit (list_ascii_of_string s) /\ Nat.Even (String.length s).
Proof.
  induction s as [|c|a b s IH] using string_pair_ind.
  - simpl. split; [intros _|by eexists]. split; [constructor|by exists 0%nat].
  - simpl. split; [by intros [? ?]|]. intros [_ [k Hk]]. lia.
  - cbn [DecodeString list_ascii_of_string String.length].
    rewrite !Forall_cons, <- !fromHexChar_hexdigit.
    assert (HE : Nat.Even (S (S (String.length s))) <-> Nat.Even (String.length s)).
    { split; intros [k Hk]; [exists (pred k) | exists (S k)]; lia. }
    rewrite HE.
    destruct (fromHexChar a) as [x|]; [|split; [by intros [? ?]|by intros [[[? ?] _] _]]].
    destruct (fromHexChar b) as [y|]; [|split; [by intros [? ?]|by intros [[_ [[? ?] _]] _]]].
    split.
    + intros H.
      assert (Hs : is_Some (DecodeString s)).
      { destruct (DecodeString s); [by eexists | by destruct H]. }
      apply IH in Hs as [? ?]. repeat split; eauto.
    + intros [(_ & _ & HF) HEv]. destruct IH as [_ IH].
      destruct IH as [bs Hbs]; [done|]. rewrite Hbs. by eexists.
Qed.

Lemma length_decode s bs :
  DecodeString s = Some bs -> String.length s = (2 * length bs)%nat.
Proof.
  revert bs. induction s as [|c|a b s IH] using string_pair_ind; intros bs; simpl.
  - by intros [= <-].
  - done.
  - destruct (fromHexChar a); [|done]. destruct (fromHexChar b); [|done].
    destruct (DecodeString s) as [bs'|]; [|done].
    intros [= <-]. simpl. rewrite (IH bs') by done. lia.
Qed.

End HexFacts.

(** C2: a hexadecimal string for N bytes decodes to the 8N bits of the
    bytes, byte after byte and least significant bit first; "0x03" gives
    [true; true] and six [false]; the empty string and every malformed
    string give the empty list, and the function always returns. *)
Theorem hexBitlist_spec :
  (forall pre upper bs,
     pre = "0x" \/ pre = "0X" \/ pre = "" ->
     Forall (fun b => b < 256) bs ->
     Hex.hexBitlist (String.append pre (Hex.encode upper bs)) = Hex.bits_of_bytes bs /\
     length (Hex.hexBitlist (String.append pre (Hex.encode upper bs))) = (8 * length bs)%nat /\
     forall k i, (k < length bs)%nat -> (i < 8)%nat ->
       nth (8 * k + i) (Hex.hexBitlist (String.append pre (Hex.encode upper bs))) false =
         N.testbit (nth k bs 0) (N.of_nat i)) /\
  Hex.hexBitlist "0x03" = [true; true; false; false; false; false; false; false] /\
  Hex.hexBitlist "0x00" = [false; false; false; false; false; false; false; false] /\
  Hex.hexBitlist "" = [] /\
  (forall s, ~ Hex.wellformed s -> Hex.hexBitlist s = []) /\
  (forall s, Hex.wellformed s ->
     length (Hex.hexBitlist s) = (4 * String.length (Hex.digits s))%nat).
Proof.
  split; [|split; [|split; [|split; [|split]]]]; try reflexivity.
  - intros pre upper bs Hpre Hbs.
    rewrite (hexBitlist_encode pre upper bs Hpre Hbs).
    split; [done|]. split; [apply length_bits_of_bytes|]. apply nth_bits_of_bytes.
  - intros s Hs. apply hexBitlist_undecoded.
    destruct (Hex.DecodeString _) as [bs|] eqn:Hd; [|done].
    exfalso. apply Hs. apply decode_wellformed. unfold Hex.digits. by rewrite Hd.
  - intros s Hs. apply decode_wellformed in Hs as [bs Hd]. unfold Hex.digits in *.
    rewrite (hexBitlist_decoded s bs Hd), length_bits_of_bytes.
    rewrite (length_decode _ _ Hd). lia.
Qed.

Lemma hexBitlist_spec_witness :
  Hex.hexBitlist "0XfF01" =
    [true; true; true; true; true; true; true; true;
     true; false; false; false; false; false; false; false] /\
  Hex.hexBitlist "0xf" = [].
Proof.
  destruct hexBitlist_spec as (Henc & _ & _ & _ & Hbad & _).
  split.
  - refine (proj1 (Henc "0X" false [255; 1] _ _)).
    + right. left. reflexivity.
    + repeat constructor.
  - apply Hbad. intros [_ [k Hk]]. simpl in Hk. lia.
Defined.

(** ** validatorsForAttestation *)

Section VoterFacts.

Import Voter.

(** The positions of the set bits of [l], counted from [k]. *)
Lemma filter_nth_shift (k : nat) (b : bool) (l : list bool) (n : nat) :
  List.filter (fun p => nth (p - k) (b :: l) false) (seq (S k) n) =
  List.filter (fun p => nth (p - S k) l false) (seq (S k) n).
Proof.
  apply List.filter_ext_in. intros p Hp. apply in_seq in Hp.
  replace (p - k)%nat with (S (p - S k)) by lia. reflexivity.
Qed.

Lemma included_loop {A} (f : nat -> A) (l : list bool) (k : nat) (acc : list A) :
  fold_left (fun (inc : list A) (ib : nat * bool) =>
               if snd ib then inc ++ [f (fst ib)] else inc)
            (combine (seq k (length l)) l) acc =
  acc ++ map f (List.filter (fun p => nth (p - k) l false) (seq k (length l))).
Proof.
  revert k acc. induction l as [|b l IH]; intros k acc.
  - simpl. by rewrite app_nil_r.
  - cbn [length seq combine fold_left List.filter snd fst].
    rewrite IH, filter_nth_shift, Nat.sub_diag.
    destruct b; cbn [nth]; [|reflexivity]. cbn [map]. by rewrite <- app_assoc.
Qed.

Lemma concat_loop (idx : gmap N (list N)) (included acc : list N) :
  fold_left (fun acc ci => acc ++ committee idx ci) included acc =
  acc ++ flat_map (committee idx) included.
Proof.
  revert acc. induction included as [|ci l IH]; intros acc; simpl.
  - by rewrite app_nil_r.
  - by rewrite IH, app_assoc.
Qed.

Lemma voters_loop (concat : list N) (l : list bool) (k : nat) (voters : list N) :
  fold_left
    (fun (acc : option (list N)) (ib : nat * bool) =>
       match acc with
       | None => None
       | Some voters =>
           if snd ib && (fst ib <? length concat)%nat
           then match concat !! fst ib with
                | Some v => Some (voters ++ [v])
                | None => None
                end
           else Some voters
       end)
    (combine (seq k (length l)) l) (Some voters) =
  Some (voters ++
        map (fun p => nth p concat 0)
            (List.filter (fun p => (p <? length concat)%nat)
               (List.filter (fun p => nth (p - k) l false) (seq k (length l))))).
Proof.
  revert k voters. induction l as [|b l IH]; intros k voters.
  - simpl. by rewrite app_nil_r.
  - cbn [length seq combine fold_left List.filter snd fst].
    rewrite filter_nth_shift, Nat.sub_diag.
    destruct b; cbn [nth andb].
    + destruct (Nat.ltb_spec k (length concat)) as [Hlt|Hge].
      * destruct (lookup_lt_is_Some_2 concat k Hlt) as [v Hv].
        rewrite Hv, IH. cbn [List.filter].
        destruct (Nat.ltb_spec k (length concat)); [|lia].
        cbn [map]. rewrite <- app_assoc.
        apply nth_lookup_Some with (d := 0) in Hv. by rewrite Hv.
      * rewrite IH. cbn [List.filter].
        destruct (Nat.ltb_spec k (length concat)); [lia|done].
    + by rewrite IH.
Qed.

Lemma filter_nth_0 (l : list bool) :
  List.filter (fun p => nth (p - 0) l false) (seq 0 (length l)) = set_positions l.
Proof.
  unfold set_positions. apply List.filter_ext. intros p. by rewrite Nat.sub_0_r.
Qed.

Lemma validatorsForAttestation_multi att idx cbitsStr :
  att !! "committee_bits" = Some (VString cbitsStr) ->
  cbitsStr <> "" ->
  validatorsForAttestation att idx =
    Some (voters_spec idx (Hex.hexBitlist cbitsStr)
            (Hex.hexBitlist (fst (as_string att "aggregation_bits")))).
Proof.
  intros Hc Hne. unfold validatorsForAttestation.
  set (agg := fst (as_string att "aggregation_bits")).
  unfold as_string. rewrite Hc.
  destruct (String.eqb_spec cbitsStr "") as [|_]; [done|]. cbn [andb negb].
  unfold indexed. rewrite included_loop, concat_loop, voters_loop.
  rewrite !filter_nth_0. reflexivity.
Qed.

Lemma validatorsForAttestation_single att idx :
  att !! "committee_bits" = None \/ att !! "committee_bits" = Some (VString "") ->
  validatorsForAttestation att idx = Some [].
Proof.
  intros H. unfold validatorsForAttestation.
  set (agg := fst (as_string att "aggregation_bits")).
  unfold as_string. by destruct H as [-> | ->].
Qed.

(** Every voter stands at the position of a set aggregation bit inside the
    concatenation; the result is in the order of the positions. *)
Lemma voters_spec_positions idx cbits aggBits v :
  In v (voters_spec idx cbits aggBits) <->
  exists p, (p < length (concatenation idx cbits))%nat /\
            nth p aggBits false = true /\
            nth p (concatenation idx cbits) 0 = v.
Proof.
  unfold voters_spec. rewrite in_map_iff. split.
  - intros (p & <- & Hp). apply filter_In in Hp as [Hp Hlt].
    apply filter_In in Hp as [_ Hb]. apply Nat.ltb_lt in Hlt. eauto.
  - intros (p & Hlt & Hb & <-). exists p. split; [done|].
    apply filter_In. split; [|by apply Nat.ltb_lt].
    apply filter_In. split; [|done].
    apply in_seq. split; [lia|]. simpl.
    destruct (Nat.lt_ge_cases p (length aggBits)); [done|].
    rewrite nth_overflow in Hb by done. discriminate.
Qed.

End VoterFacts.

(** C3: with a committee bitfield that is present and not empty, the voters
    are: the committees at the set committee bits, ascending; their
    validator lists concatenated in that order; and for each set
    aggregation bit at a position below the length of the concatenation,
    the validator at that position.  Set bits at or beyond that length add
    nothing, and the function returns (it does not panic). *)
Theorem voters_multi_committee :
  forall att idxToValidators cbitsStr,
    att !! "committee_bits" = Some (Voter.VString cbitsStr) ->
    cbitsStr <> "" ->
    Voter.validatorsForAttestation att idxToValidators =
      Some (Voter.voters_spec idxToValidators (Hex.hexBitlist cbitsStr)
              (Hex.hexBitlist (fst (Voter.as_string att "aggregation_bits")))) /\
    (forall v,
       In v (Voter.voters_spec idxToValidators (Hex.hexBitlist cbitsStr)
               (Hex.hexBitlist (fst (Voter.as_string att "aggregation_bits")))) <->
       exists p,
         (p < length (Voter.concatenation idxToValidators (Hex.hexBitlist cbitsStr)))%nat /\
         nth p (Hex.hexBitlist (fst (Voter.as_string att "aggregation_bits"))) false = true /\
         nth p (Voter.concatenation idxToValidators (Hex.hexBitlist cbitsStr)) 0 = v) /\
    Voter.validatorsForAttestation
      (<["committee_bits" := Voter.VString "0x01"]>
         (<["aggregation_bits" := Voter.VString "0x03"]> ∅))
      (<[0 := [42; 17]]> ∅) = Some [42; 17].
Proof.
  intros att idx cbitsStr Hc Hne.
  split; [by apply validatorsForAttestation_multi|].
  split; [intros v; apply voters_spec_positions|].
  reflexivity.
Qed.

(** Aggregation bits 2..7 point beyond the two validators and are ignored. *)
Lemma voters_multi_committee_witness :
  Voter.validatorsForAttestation
    (<["committee_bits" := Voter.VString "0x05"]>
       (<["aggregation_bits" := Voter.VString "0xfd"]> ∅))
    (<[2 := [9]]> (<[0 := [42; 17]]> ∅)) = Some [42; 9].
Proof.
  refine (eq_trans (proj1 (voters_multi_committee _ _ "0x05" _ _)) _).
  - reflexivity.
  - discriminate.
  - reflexivity.
Defined.

(** C5: without a committee bitfield (the key absent, or the empty string)
    there are no voters, whatever the aggregation bits and the committees. *)
Theorem voters_single_committee :
  forall att idxToValidators,
    att !! "committee_bits" = None \/
    att !! "committee_bits" = Some (Voter.VString "") ->
    Voter.validatorsForAttestation att idxToValidators = Some [].
Proof. intros att idx H. by apply validatorsForAttestation_single. Qed.

Lemma voters_single_committee_witness :
  Voter.validatorsForAttestation
    (<["aggregation_bits" := Voter.VString "0xff"]> ∅) (<[0 := [42; 17]]> ∅) = Some [] /\
  Voter.validatorsForAttestation
    (<["committee_bits" := Voter.VString ""]>
       (<["aggregation_bits" := Voter.VString "0xff"]> ∅)) (<[0 := [42; 17]]> ∅) = Some [].
Proof.
  split; apply voters_single_committee; [left | right]; reflexivity.
Defined.

(** ** Backfill: the window and the producer's enumeration *)

Section BackfillFacts.

Import Backfill.

Lemma wrap_small x : x < U64.modulus -> U64.wrap x = x.
Proof. intros H. unfold U64.wrap. by apply N.mod_small. Qed.

Lemma sub_exact a b : b <= a -> a < U64.modulus -> U64.sub a b = a - b.
Proof.
  intros Hb Ha. unfold U64.sub. rewrite (wrap_small b) by lia.
  unfold U64.wrap.
  replace (a + (U64.modulus - b)) with ((a - b) + 1 * U64.modulus) by lia.
  rewrite N.Div0.mod_add. apply N.mod_small. lia.
Qed.

Lemma add_exact a b : a + b < U64.modulus -> U64.add a b = a + b.
Proof. intros H. unfold U64.add. by apply wrap_small. Qed.

Lemma mul_exact a b : a * b < U64.modulus -> U64.mul a b = a * b.
Proof. intros H. unfold U64.mul. by apply wrap_small. Qed.

Lemma startSlot_exact epoch : small epoch -> startSlot epoch = 32 * epoch.
Proof.
  unfold small, startSlot, slotsPerEpoch. intros H.
  rewrite mul_exact; [lia|]. unfold U64.modulus.
  change (2 ^ 64) with (2 ^ 59 * 32). lia.
Qed.

Lemma endSlot_exact epoch : small epoch -> endSlot epoch = 32 * epoch + 31.
Proof.
  unfold endSlot. intros H. rewrite startSlot_exact by done.
  unfold small, slotsPerEpoch in *. rewrite add_exact; [lia|].
  unfold U64.modulus. change (2 ^ 64) with (2 ^ 59 * 32). lia.
Qed.

Lemma endSlot_top epoch :
  small epoch -> endSlot epoch = slotsPerEpoch * epoch + N.of_nat 31.
Proof. intros H. by rewrite endSlot_exact. Qed.

Lemma run_down_S epoch j :
  run_down epoch (S j) = (slotsPerEpoch * epoch + N.of_nat (S j)) :: run_down epoch j.
Proof.
  unfold run_down. rewrite (seq_S (S j)), map_app, rev_app_distr. reflexivity.
Qed.

Lemma produce_S fuel endEpoch epoch slot :
  produce (S fuel) endEpoch epoch slot =
    match next_job endEpoch epoch slot with
    | None => Some [slot]
    | Some (epoch', slot') =>
        match produce fuel endEpoch epoch' slot' with
        | Some l => Some (slot :: l)
        | None => None
        end
    end.
Proof. reflexivity. Qed.

Lemma produce_inner endEpoch epoch j fuel :
  small epoch -> (j < 32)%nat ->
  produce (S j + fuel) endEpoch epoch (slotsPerEpoch * epoch + N.of_nat j) =
    match after_epoch endEpoch epoch with
    | None => Some (run_down epoch j)
    | Some epoch' =>
        match produce fuel endEpoch epoch' (endSlot epoch') with
        | Some l => Some (run_down epoch j ++ l)
        | None => None
        end
    end.
Proof.
  intros Hs. unfold slotsPerEpoch. induction j as [|j IH]; intros Hj.
  - change (1 + fuel)%nat with (S fuel). rewrite produce_S.
    unfold next_job, after_epoch.
    rewrite startSlot_exact by done.
    replace (32 * epoch + N.of_nat 0) with (32 * epoch) by lia.
    rewrite N.eqb_refl.
    assert (Hr : run_down epoch 0 = [32 * epoch]).
    { unfold run_down, slotsPerEpoch. simpl. by rewrite N.add_0_r. }
    rewrite Hr.
    destruct (epoch =? endEpoch); [done|].
    destruct (epoch =? 0); [done|].
    by destruct (produce fuel _ _ _).
  - change (S (S j) + fuel)%nat with (S (S j + fuel)). rewrite produce_S.
    unfold next_job. rewrite startSlot_exact by done.
    destruct (N.eqb_spec (32 * epoch + N.of_nat (S j)) (32 * epoch)) as [Heq|_]; [lia|].
    rewrite sub_exact.
    + replace (32 * epoch + N.of_nat (S j) - 1) with (32 * epoch + N.of_nat j) by lia.
      rewrite IH by lia.
      rewrite run_down_S. unfold slotsPerEpoch.
      destruct (after_epoch endEpoch epoch); [|done].
      by destruct (produce fuel _ _ _).
    + lia.
    + unfold small in Hs. unfold U64.modulus. change (2 ^ 64) with (2 ^ 59 * 32). lia.
Qed.

Lemma run_down_slots epoch : run_down epoch 31 = slots_down epoch.
Proof. reflexivity. Qed.

Lemma epochs_down_S e n :
  epochs_down (e + N.of_nat (S n)) e = (e + N.of_nat (S n)) :: epochs_down (e + N.of_nat n) e.
Proof.
  unfold epochs_down.
  replace (N.to_nat (e + N.of_nat (S n) + 1 - e)) with (S (S n)) by lia.
  replace (N.to_nat (e + N.of_nat n + 1 - e)) with (S n) by lia.
  rewrite (seq_S (S n)), map_app, rev_app_distr. simpl. f_equal. lia.
Qed.

Lemma epochs_down_0 e : epochs_down e e = [e].
Proof.
  unfold epochs_down. replace (N.to_nat (e + 1 - e)) with 1%nat by lia.
  simpl. f_equal. lia.
Qed.

(** From the top slot of epoch [endEpoch + n], with fuel for [n + 1]
    epochs and to spare, the loops offer the window's slots and stop. *)
Lemma produce_window endEpoch n extra :
  small (endEpoch + N.of_nat n) ->
  produce (32 * S n + extra) endEpoch (endEpoch + N.of_nat n)
          (endSlot (endEpoch + N.of_nat n)) =
    Some (window_slots (endEpoch + N.of_nat n) endEpoch).
Proof.
  induction n as [|n IH]; intros Hs.
  - rewrite N.add_0_r in *. rewrite endSlot_top by done.
    change (32 * 1 + extra)%nat with (S 31 + extra)%nat.
    rewrite (produce_inner endEpoch endEpoch 31 extra Hs) by lia.
    unfold after_epoch. rewrite N.eqb_refl.
    unfold window_slots. rewrite epochs_down_0. cbn [flat_map].
    rewrite app_nil_r. reflexivity.
  - rewrite endSlot_top by done.
    replace (32 * S (S n) + extra)%nat with (S 31 + (32 * S n + extra))%nat by lia.
    rewrite (produce_inner endEpoch _ 31 _ Hs) by lia.
    unfold after_epoch.
    destruct (N.eqb_spec (endEpoch + N.of_nat (S n)) endEpoch) as [|_]; [lia|].
    destruct (N.eqb_spec (endEpoch + N.of_nat (S n)) 0) as [|_]; [lia|].
    unfold small in *.
    rewrite sub_exact; [|lia|unfold U64.modulus; change (2 ^ 64) with (2 ^ 59 * 32); lia].
    replace (endEpoch + N.of_nat (S n) - 1) with (endEpoch + N.of_nat n) by lia.
    rewrite IH by lia.
    unfold window_slots. rewrite epochs_down_S. reflexivity.
Qed.

Lemma jobs_of_window startEpoch endEpoch :
  endEpoch <= startEpoch -> small startEpoch ->
  jobs_of startEpoch endEpoch = Some (window_slots startEpoch endEpoch).
Proof.
  intros Hle Hs. unfold jobs_of, passes.
  destruct (N.leb_spec endEpoch startEpoch); [|lia].
  replace startEpoch with (endEpoch + N.of_nat (N.to_nat (startEpoch - endEpoch))) by lia.
  set (n := N.to_nat (startEpoch - endEpoch)).
  replace (N.to_nat (slotsPerEpoch * (endEpoch + N.of_nat n - endEpoch + 1)))
    with (32 * S n + 0)%nat by (unfold slotsPerEpoch; lia).
  apply produce_window. unfold small in *. lia.
Qed.

Lemma produce_more fuel extra endEpoch epoch slot l :
  produce fuel endEpoch epoch slot = Some l ->
  produce (fuel + extra) endEpoch epoch slot = Some l.
Proof.
  revert epoch slot l. induction fuel as [|fuel IH]; intros epoch slot l; [done|].
  change (S fuel + extra)%nat with (S (fuel + extra)). rewrite !produce_S.
  destruct (next_job endEpoch epoch slot) as [[e' s']|]; [|done].
  destruct (produce fuel endEpoch e' s') as [l'|] eqn:Hp; [|done].
  by rewrite (IH _ _ _ Hp).
Qed.

Lemma window_small headSlot :
  headSlot < U64.modulus -> small (headSlot / slotsPerEpoch).
Proof.
  unfold small, slotsPerEpoch, U64.modulus. intros H.
  apply N.Div0.div_lt_upper_bound. change (32 * 2 ^ 59) with (2 ^ 64). done.
Qed.

Lemma length_slots_down epoch : length (slots_down epoch) = 32%nat.
Proof. reflexivity. Qed.

Lemma window_end headSlot :
  headSlot < U64.modulus ->
  snd (window headSlot) =
    if 2 <=? headSlot / slotsPerEpoch then headSlot / slotsPerEpoch - 2 else 0.
Proof.
  intros H. unfold window. cbn [snd].
  destruct (N.leb_spec 2 (headSlot / slotsPerEpoch)); [|done].
  apply sub_exact; [done|].
  pose proof (window_small headSlot H) as Hs. unfold small, U64.modulus in *.
  change (2 ^ 64) with (2 ^ 59 * 32). lia.
Qed.

Lemma epochs_down_3 e : 2 <= e -> epochs_down e (e - 2) = [e; e - 1; e - 2].
Proof.
  intros H. unfold epochs_down.
  replace (N.to_nat (e + 1 - (e - 2))) with 3%nat by lia.
  simpl. repeat f_equal; lia.
Qed.

End BackfillFacts.

(** C6: [Backfill] takes [headEpoch = headSlot / 32] and scans from
    [headEpoch] down to [max 0 (headEpoch - 2)]; the producer offers
    exactly the slots of these epochs, newest epoch first and in each epoch
    from its highest slot down: three epochs and 96 slots when
    [headEpoch >= 2], down to epoch 0 otherwise. *)
Theorem backfill_window :
  forall headSlot,
    headSlot < U64.modulus ->
    let headEpoch := fst (Backfill.window headSlot) in
    let end_ := snd (Backfill.window headSlot) in
    headEpoch = headSlot / 32 /\
    Z.of_N end_ = Z.max 0 (Z.of_N headEpoch - 2) /\
    Backfill.jobs_of headEpoch end_ = Some (Backfill.window_slots headEpoch end_) /\
    (forall extra,
       Backfill.produce (Backfill.passes headEpoch end_ + extra) end_ headEpoch
         (Backfill.endSlot headEpoch) = Some (Backfill.window_slots headEpoch end_)) /\
    (2 <= headEpoch ->
       Backfill.epochs_down headEpoch end_ = [headEpoch; headEpoch - 1; headEpoch - 2] /\
       length (Backfill.window_slots headEpoch end_) = 96%nat) /\
    (headEpoch < 2 ->
       end_ = 0 /\
       Backfill.epochs_down headEpoch end_ = if headEpoch =? 1 then [1; 0] else [0]).
Proof.
  intros headSlot Hr headEpoch end_.
  assert (HE : headEpoch = headSlot / 32) by reflexivity.
  assert (Hend : end_ = if 2 <=? headEpoch then headEpoch - 2 else 0)
    by (apply window_end; done).
  assert (Hs : Backfill.small headEpoch) by (apply window_small; done).
  assert (Hle : end_ <= headEpoch).
  { rewrite Hend. destruct (2 <=? headEpoch); lia. }
  pose proof (jobs_of_window headEpoch end_ Hle Hs) as Hjobs.
  split; [done|]. split.
  { rewrite Hend. destruct (N.leb_spec 2 headEpoch); lia. }
  split; [done|]. split.
  { intros extra. by apply produce_more. }
  split.
  - intros H2. rewrite Hend. destruct (N.leb_spec 2 headEpoch); [|lia].
    rewrite (epochs_down_3 _ H2). split; [done|].
    unfold Backfill.window_slots. rewrite (epochs_down_3 _ H2). reflexivity.
  - intros H2. rewrite Hend. destruct (N.leb_spec 2 headEpoch); [lia|].
    split; [done|].
    assert (Hc : headEpoch = 0 \/ headEpoch = 1) by lia.
    destruct Hc as [-> | ->]; reflexivity.
Qed.

Lemma backfill_window_witness :
  Backfill.jobs_of 3 1 =
    Some [127; 126; 125; 124; 123; 122; 121; 120; 119; 118; 117; 116; 115; 114; 113; 112;
          111; 110; 109; 108; 107; 106; 105; 104; 103; 102; 101; 100; 99; 98; 97; 96;
          95; 94; 93; 92; 91; 90; 89; 88; 87; 86; 85; 84; 83; 82; 81; 80;
          79; 78; 77; 76; 75; 74; 73; 72; 71; 70; 69; 68; 67; 66; 65; 64;
          63; 62; 61; 60; 59; 58; 57; 56; 55; 54; 53; 52; 51; 50; 49; 48;
          47; 46; 45; 44; 43; 42; 41; 40; 39; 38; 37; 36; 35; 34; 33; 32].
Proof.
  assert (Hr : 100 < U64.modulus) by reflexivity.
  destruct (backfill_window 100 Hr) as (_ & _ & Hjobs & _).
  exact Hjobs.
Defined.

(** ** processSlot and fetchCommitteesForSlot *)

Section UpstreamFacts.

Import Voter Upstream.

Lemma requests_app lg1 lg2 : requests (lg1 ++ lg2) = (requests lg1 + requests lg2)%nat.
Proof. unfold requests. by rewrite List.filter_app, length_app. Qed.

Lemma waits_app lg1 lg2 : waits (lg1 ++ lg2) = (waits lg1 + waits lg2)%nat.
Proof. unfold waits. by rewrite List.filter_app, length_app. Qed.

Lemma fetch_block_shape E url lg :
  exists new,
    fst (fetch_block E url [1; 2; 3] lg) = lg ++ new /\
    fetch_shape url new (snd (fetch_block E url [1; 2; 3] lg)).
Proof.
  unfold fetch_block. destruct (parses E url); cbn [negb].
  2: { exists []. rewrite app_nil_r. split; [done|constructor]. }
  change (1 =? maxAttempts) with false. change (2 =? maxAttempts) with false.
  change (3 =? maxAttempts) with true. change (1 * 100) with 100. change (2 * 100) with 200.
  cbv zeta.
  repeat match goal with
         | |- context [accepted ?r] => destruct (accepted r)
         | |- context [outlives ?E ?n] => destruct (outlives E n)
         end;
    cbn [fst snd]; rewrite <- ?app_assoc; cbn [app];
    (eexists; split; [reflexivity | constructor]).
Qed.

(** The durations of the waits: [a * 100] after the a-th request. *)
Lemma fetch_shape_backoff url new r pre ms post :
  fetch_shape url new r ->
  new = pre ++ Backoff ms :: post \/ new = pre ++ Cancelled ms :: post ->
  ms = N.of_nat (requests pre) * 100.
Proof.
  intros Hs Hnew.
  destruct Hs; destruct Hnew as [Hnew|Hnew];
    repeat (destruct pre as [|? pre]; cbn in Hnew; try discriminate Hnew;
            try (injection Hnew as; subst; reflexivity)).
Qed.

Lemma fetch_shape_cancelled url new r pre ms post :
  fetch_shape url new r -> new = pre ++ Cancelled ms :: post -> post = [] /\ r = None.
Proof.
  intros Hs Hnew.
  destruct Hs;
    repeat (destruct pre as [|? pre]; cbn in Hnew; try discriminate Hnew;
            try (injection Hnew as; subst; done)).
Qed.

Lemma fetch_shape_requests url new r : fetch_shape url new r -> (requests new <= 3)%nat.
Proof. intros Hs. destruct Hs; cbn; lia. Qed.

(** The three attempts all fail and no wait is cut short. *)
Lemma fetch_block_exhausted E url lg :
  parses E url = true ->
  (forall n, (n < 3)%nat -> accepted (answer E (requests lg + n) url) = None) ->
  outlives E (waits lg) = true -> outlives E (S (waits lg)) = true ->
  fetch_block E url [1; 2; 3] lg =
    (lg ++ [Request url; Backoff 100; Request url; Backoff 200; Request url], None).
Proof.
  intros Hp Hfail H1 H2. unfold fetch_block. rewrite Hp. cbn [negb]. cbv zeta.
  pose proof (Hfail 0%nat) as F0. pose proof (Hfail 1%nat) as F1. pose proof (Hfail 2%nat) as F2.
  rewrite Nat.add_0_r in F0. rewrite F0 by lia.
  change (1 =? maxAttempts) with false. cbn match.
  rewrite !waits_app, !requests_app. cbn [waits requests List.filter is_request negb length].
  rewrite !Nat.add_0_r. rewrite H1, F1 by lia.
  change (2 =? maxAttempts) with false. cbn match.
  replace (waits lg + 1)%nat with (S (waits lg)) by lia. rewrite H2.
  replace (requests lg + 1 + 1)%nat with (requests lg + 2)%nat by lia. rewrite F2 by lia.
  change (3 =? maxAttempts) with true. cbn match.
  rewrite <- !app_assoc. reflexivity.
Qed.

(** The context is done before the first backoff is over. *)
Lemma fetch_block_cancelled E url lg :
  parses E url = true ->
  accepted (answer E (requests lg) url) = None ->
  outlives E (waits lg) = false ->
  fetch_block E url [1; 2; 3] lg = (lg ++ [Request url; Cancelled 100], None).
Proof.
  intros Hp Hfail H1. unfold fetch_block. rewrite Hp. cbn [negb]. cbv zeta.
  rewrite Hfail. change (1 =? maxAttempts) with false. cbn match.
  rewrite waits_app. cbn [waits List.filter is_request negb length].
  rewrite Nat.add_0_r, H1, <- app_assoc. reflexivity.
Qed.

Lemma validatorsForAttestation_total att idx :
  is_Some (validatorsForAttestation att idx).
Proof.
  destruct (att !! "committee_bits") as [v|] eqn:Hc.
  - destruct v as [ | | |s| | ];
      try (unfold validatorsForAttestation, as_string; rewrite Hc; by eexists).
    destruct (String.eqb_spec s "") as [->|Hne].
    + rewrite validatorsForAttestation_single by auto. by eexists.
    + rewrite (validatorsForAttestation_multi att idx s Hc Hne). by eexists.
  - rewrite validatorsForAttestation_single by auto. by eexists.
Qed.

Lemma apply_attestations_total slot idx atts cu :
  is_Some (apply_attestations slot idx atts cu).
Proof.
  unfold apply_attestations.
  assert (H : is_Some (Some cu)) by (by eexists). revert H.
  generalize (Some cu).
  induction atts as [|a atts IH]; intros acc Hacc; [done|].
  cbn [fold_left]. apply IH. destruct Hacc as [cu' ->].
  destruct a; try by eexists.
  destruct (validatorsForAttestation_total m idx) as [vs ->]. by eexists.
Qed.

Lemma processSlot_total E api w slot : is_Some (processSlot E api w slot).
Proof.
  unfold processSlot.
  destruct (fetch_block _ _ _ _) as [lg [b|]]; [|by eexists].
  destruct (as_block b) as [payload|]; [|by eexists].
  destruct (as_object payload "data") as [data|]; [|by eexists].
  destruct (as_object data "message") as [message|]; [|by eexists].
  destruct (as_object message "body") as [body_|]; [|by eexists].
  destruct (length _ =? 0)%nat; [by eexists|].
  destruct (fetchCommitteesForSlot _ _ _ _) as [lg' idx].
  match goal with
  | |- context [apply_attestations ?a ?b ?c ?d] =>
      destruct (apply_attestations_total a b c d) as [[c' u] ->]
  end.
  by eexists.
Qed.

Lemma processSlot_no_block E api w slot :
  snd (fetch_block E (block_url api slot) [1; 2; 3] (log w)) = None ->
  processSlot E api w slot =
    Some ({| log := fst (fetch_block E (block_url api slot) [1; 2; 3] (log w));
             cache := cache w |}, 0).
Proof.
  intros H. unfold processSlot.
  destruct (fetch_block _ _ _ _) as [lg r]. simpl in *. by subst.
Qed.

Lemma fetchCommittees_shape E api lg slot :
  exists new,
    fst (fetchCommitteesForSlot E api lg slot) = lg ++ new /\
    (new = [] \/ new = [Request (committees_url api slot)]) /\
    (parses E (committees_url api slot) = true ->
     new = [Request (committees_url api slot)]).
Proof.
  unfold fetchCommitteesForSlot. cbv zeta.
  destruct (parses E (committees_url api slot)); cbn [negb].
  - exists [Request (committees_url api slot)].
    split; [|by auto].
    destruct (answer E _ _) as [|status b]; [done|].
    destruct (negb _); [done|]. by destruct (as_committees b).
  - exists []. rewrite app_nil_r. split; [done|]. split; [by left|done].
Qed.

Lemma fetchCommittees_failure E api lg slot :
  parses E (committees_url api slot) = false \/
  answer E (requests lg) (committees_url api slot) = NetErr \/
  (exists status b,
     answer E (requests lg) (committees_url api slot) = Response status b /\
     (status <> StatusOK \/ as_committees b = None)) ->
  snd (fetchCommitteesForSlot E api lg slot) = ∅.
Proof.
  unfold fetchCommitteesForSlot. cbv zeta.
  intros [Hp | [Hn | (status & b & Hr & H)]].
  - by rewrite Hp.
  - destruct (parses E _); [|done]. cbn [negb]. by rewrite Hn.
  - destruct (parses E _); [|done]. cbn [negb]. rewrite Hr.
    destruct (N.eqb_spec status StatusOK) as [->|Hne]; cbn [negb]; [|done].
    destruct H as [H|H]; [done|]. by rewrite H.
Qed.

Lemma validators_loop (ss : list string) (acc : list N) :
  fold_left (fun (vals : list N) (s : string) =>
               match ParseUint s with
               | None => vals
               | Some vi => vals ++ [vi]
               end) ss acc = acc ++ omap ParseUint ss.
Proof.
  revert acc. induction ss as [|s ss IH]; intros acc; cbn [fold_left]; simpl omap.
  - by rewrite app_nil_r.
  - rewrite IH. destruct (ParseUint s); [|done]. by rewrite <- app_assoc.
Qed.

Lemma committees_loop (data : list (string * list string)) :
  fold_left
    (fun (res : gmap N (list N)) (c : string * list string) =>
       match ParseUint (fst c) with
       | None => res
       | Some idx =>
           let vals :=
             fold_left (fun (vals : list N) (s : string) =>
                          match ParseUint s with
                          | None => vals
                          | Some vi => vals ++ [vi]
                          end) (snd c) [] in
           <[idx := vals]> res
       end) data ∅ = list_to_map (rev (omap Committees.decode_entry data)).
Proof.
  induction data as [|c data IH] using rev_ind; [done|].
  rewrite fold_left_app, IH. cbn [fold_left]. rewrite omap_app, rev_app_distr.
  simpl omap.
  assert (Hd : Committees.decode_entry c =
               match ParseUint (fst c) with
               | None => None
               | Some idx => Some (idx, omap ParseUint (snd c))
               end) by reflexivity.
  destruct (ParseUint (fst c)) as [idx|]; rewrite Hd; [|done].
  cbv zeta. rewrite validators_loop. reflexivity.
Qed.



Lemma voters_spec_absent cbits aggBits : voters_spec ∅ cbits aggBits = [].
Proof.
  unfold voters_spec.
  assert (Hc : concatenation ∅ cbits = []).
  { unfold concatenation. induction (included_committees cbits) as [|ci l IH]; [done|].
    simpl. rewrite IH. unfold committee. by rewrite lookup_empty. }
  rewrite Hc. simpl.
  induction (set_positions aggBits) as [|p l IH]; [done|]. simpl. exact IH.
Qed.

Lemma validatorsForAttestation_absent att : validatorsForAttestation att ∅ = Some [].
Proof.
  destruct (att !! "committee_bits") as [v|] eqn:Hc.
  - destruct v as [ | | |s| | ];
      try (unfold validatorsForAttestation, as_string; rewrite Hc; done).
    destruct (String.eqb_spec s "") as [->|Hne].
    + by rewrite validatorsForAttestation_single by auto.
    + rewrite (validatorsForAttestation_multi att ∅ s Hc Hne).
      by rewrite voters_spec_absent.
  - by rewrite validatorsForAttestation_single by auto.
Qed.

(** The end-to-end example: two updates, and both validators at slot 9;
    a second pass over the same slot updates nothing. *)
Example processSlot_example :
  exists w,
    processSlot example_node "http://node/" {| log := []; cache := ∅ |} 9 = Some (w, 2) /\
    log w = [Request "http://node/eth/v2/beacon/blocks/9";
             Request "http://node/eth/v1/beacon/states/9/committees?slot=9"] /\
    Cache.Get (cache w) 42 = 9 /\ Cache.Get (cache w) 17 = 9 /\
    option_map snd (processSlot example_node "http://node/" w 9) = Some 0.
Proof. eexists. repeat split; vm_compute; reflexivity. Qed.

End UpstreamFacts.

Section ScanFacts.

Import Upstream Scanner.

(** The loop hands the slots to [processSlot] one after the other,
    whatever the calls return, until the deadline or the head. *)
Lemma slotsLoop_complete E api headSlot n :
  forall live s w slots updates visited,
    s + N.of_nat n = headSlot + 1 -> headSlot < U64.max -> (n <= live)%nat ->
    exists w' slots' updates',
      slotsLoop E api headSlot live s w slots updates visited =
        Some (w', (slots', updates', false),
              visited ++ map (fun i => s + N.of_nat i) (seq 0 n)).
Proof.
  induction n as [|n IH]; intros live s w slots updates visited Hs Hh Hl.
  - destruct live; cbn [slotsLoop];
      (destruct (N.leb_spec s headSlot); [lia|]);
      rewrite app_nil_r; eauto.
  - destruct live as [|live]; [lia|]. cbn [slotsLoop].
    destruct (N.leb_spec s headSlot); [|lia].
    destruct (processSlot_total E api w s) as [[w' u] ->].
    assert (Hadd : U64.add s 1 = s + 1).
    { apply add_exact. unfold U64.max in Hh. lia. }
    rewrite Hadd.
    destruct (IH live (s + 1) w' (U64.add slots 1) (U64.add updates u) (visited ++ [s]))
      as (w'' & sl & up & ->); [lia|done|lia|].
    exists w'', sl, up. rewrite <- app_assoc. cbn [seq map app].
    rewrite N.add_0_r. do 3 f_equal.
    rewrite <- seq_shift, map_map. f_equal. apply map_ext. intros i. lia.
Qed.

End ScanFacts.

(** C7: a block fetch makes at most three requests; a failed attempt [a]
    below three is followed by a wait of [a * 100] ms, unless the context
    is done first, and then nothing more is requested and there is no
    block; after three failures there is no block either.  Without a block
    [processSlot] returns 0 and leaves the cache alone; it always returns,
    so the scan loop goes on to the next slot. *)
Theorem block_fetch_retries :
  forall E consensusAPI w slot,
    let url := Upstream.block_url consensusAPI slot in
    let res := Upstream.fetch_block E url [1; 2; 3] (Upstream.log w) in
    (exists new,
       fst res = Upstream.log w ++ new /\
       Upstream.fetch_shape url new (snd res) /\
       (Upstream.requests new <= 3)%nat /\
       (forall pre ms post,
          new = pre ++ Upstream.Backoff ms :: post \/
          new = pre ++ Upstream.Cancelled ms :: post ->
          ms = N.of_nat (Upstream.requests pre) * 100) /\
       (forall pre ms post,
          new = pre ++ Upstream.Cancelled ms :: post -> post = [] /\ snd res = None)) /\
    (Upstream.parses E url = true ->
     Upstream.accepted (Upstream.answer E (Upstream.requests (Upstream.log w)) url) = None ->
     Upstream.outlives E (Upstream.waits (Upstream.log w)) = false ->
     res = (Upstream.log w ++ [Upstream.Request url; Upstream.Cancelled 100], None)) /\
    (Upstream.parses E url = true ->
     (forall n, (n < 3)%nat ->
        Upstream.accepted
          (Upstream.answer E (Upstream.requests (Upstream.log w) + n) url) = None) ->
     Upstream.outlives E (Upstream.waits (Upstream.log w)) = true ->
     Upstream.outlives E (S (Upstream.waits (Upstream.log w))) = true ->
     res = (Upstream.log w ++
              [Upstream.Request url; Upstream.Backoff 100; Upstream.Request url;
               Upstream.Backoff 200; Upstream.Request url], None)) /\
    (snd res = None ->
     Upstream.processSlot E consensusAPI w slot =
       Some ({| Upstream.log := fst res; Upstream.cache := Upstream.cache w |}, 0)) /\
    is_Some (Upstream.processSlot E consensusAPI w slot) /\
    (forall headSlot live n slots updates visited,
       slot + N.of_nat n = headSlot + 1 -> headSlot < U64.max -> (n <= live)%nat ->
       exists w' slots' updates',
         Scanner.slotsLoop E consensusAPI headSlot live slot w slots updates visited =
           Some (w', (slots', updates', false),
                 visited ++ map (fun i => slot + N.of_nat i) (seq 0 n))).
Proof.
  intros E api w slot url res.
  split.
  { destruct (fetch_block_shape E url (Upstream.log w)) as (new & Hnew & Hs).
    exists new. split; [done|]. split; [done|].
    split; [by eapply fetch_shape_requests|].
    split.
    - intros pre ms post. by eapply fetch_shape_backoff.
    - intros pre ms post. by eapply fetch_shape_cancelled. }
  split; [by apply fetch_block_cancelled|].
  split; [by apply fetch_block_exhausted|].
  split; [by apply processSlot_no_block|].
  split; [by apply processSlot_total|].
  intros. by eapply slotsLoop_complete.
Qed.

Lemma block_fetch_retries_witness :
  Upstream.processSlot
    {| Upstream.parses := fun _ => true;
       Upstream.answer := fun _ _ => Upstream.NetErr;
       Upstream.outlives := fun _ => true |}
    "http://node/"
    {| Upstream.log := []; Upstream.cache := Cache.NewLastAttestCache |} 7 =
  Some ({| Upstream.log :=
             [Upstream.Request "http://node/eth/v2/beacon/blocks/7"; Upstream.Backoff 100;
              Upstream.Request "http://node/eth/v2/beacon/blocks/7"; Upstream.Backoff 200;
              Upstream.Request "http://node/eth/v2/beacon/blocks/7"];
           Upstream.cache := Cache.NewLastAttestCache |}, 0).
Proof.
  destruct (block_fetch_retries
              {| Upstream.parses := fun _ => true;
                 Upstream.answer := fun _ _ => Upstream.NetErr;
                 Upstream.outlives := fun _ => true |}
              "http://node/"
              {| Upstream.log := []; Upstream.cache := Cache.NewLastAttestCache |} 7)
    as (_ & _ & _ & Hnone & _).
  rewrite Hnone; reflexivity.
Defined.



(** C9 as the specification words it fails on a malformed payload.  The
    body decodes; the validator [x] and the index [y] are no numbers; the
    assignment returned is not empty: committee 0 is [42, 7], and position
    1 of the committee, the place of [x], is credited to validator 7. *)
Lemma committees_single_request_counterexample : ~ Committees.malformed_gives_empty.
Proof.
  intros Hclaim.
  assert (Hbad : Committees.malformed [("0", ["42"; "x"; "7"]); ("y", ["9"])]).
  { apply Exists_cons_hd. right. apply Exists_cons_tl. apply Exists_cons_hd. reflexivity. }
  pose proof (Hclaim Committees.garbled_node "http://node" [] 7 _ _
                eq_refl eq_refl eq_refl Hbad) as Hempty.
  apply (f_equal (fun m : gmap N (list N) => m !! 0)) in Hempty.
  vm_compute in Hempty. discriminate Hempty.
Qed.

Example garbled_assignment :
  snd (Upstream.fetchCommitteesForSlot Committees.garbled_node "http://node" [] 7) =
    <[0 := [42; 7]]> ∅ /\
  Voter.validatorsForAttestation
    (<["committee_bits" := Voter.VString "0x01"]>
       (<["aggregation_bits" := Voter.VString "0x02"]> ∅))
    (snd (Upstream.fetchCommitteesForSlot Committees.garbled_node "http://node" [] 7)) =
    Some [7].
Proof. split; vm_compute; reflexivity. Qed.

(** ** The slot scanner *)

Section ScannerFacts.

Import Upstream Scanner.

(** What the loop hands to [processSlot] lies between [s] and the head. *)
Lemma slotsLoop_visited E api headSlot live :
  forall s w slots updates visited w' r visited',
    headSlot < U64.max ->
    slotsLoop E api headSlot live s w slots updates visited = Some (w', r, visited') ->
    exists extra,
      visited' = visited ++ extra /\ forall v, In v extra -> s <= v <= headSlot.
Proof.
  induction live as [|live IH]; intros s w slots updates visited w' r visited' Hh Hl;
    cbn [slotsLoop] in Hl.
  - exists []. rewrite app_nil_r.
    destruct (s <=? headSlot); injection Hl as <- <- <-; by split.
  - destruct (N.leb_spec s headSlot) as [Hle|Hgt].
    + destruct (processSlot E api w s) as [[w1 u]|]; [|done].
      rewrite add_exact in Hl by (unfold U64.max in Hh; lia).
      destruct (IH _ _ _ _ _ _ _ _ Hh Hl) as (extra & -> & Hex).
      exists (s :: extra). rewrite <- app_assoc. split; [done|].
      intros v [<-|Hv]; [lia|]. specialize (Hex v Hv). lia.
    + injection Hl as <- <- <-. exists []. rewrite app_nil_r. by split.
Qed.

Lemma slotsLoop_total E api headSlot live :
  forall s w slots updates visited,
    is_Some (slotsLoop E api headSlot live s w slots updates visited).
Proof.
  induction live as [|live IH]; intros s w slots updates visited; cbn [slotsLoop].
  - destruct (s <=? headSlot); by eexists.
  - destruct (s <=? headSlot); [|by eexists].
    destruct (processSlot_total E api w s) as [[w' u] ->]. apply IH.
Qed.

Lemma tick_total E api live t : is_Some (tick E api live t).
Proof.
  unfold tick. destruct (getHeadSlot _ _ _) as [lg [h|]]; [|by eexists].
  cbv zeta. destruct (_ <? _); [by eexists|].
  match goal with
  | |- context [slotsLoop ?a ?b ?c ?d ?e ?f ?g ?h ?i] =>
      destruct (slotsLoop_total a b c d e f g h i) as [[[w' [[sl up] ab]] vis] ->]
  end.
  by eexists.
Qed.

(** A tick that scans leaves the cursor at the head it resolved. *)
Lemma tick_scanned E api live t t' from to count slots updates aborted visited :
  tick E api live t = Some (t', Scanned from to count slots updates aborted, visited) ->
  lastScannedSlot t' = to /\
  snd (getHeadSlot E api (log (world_ t))) = Some to.
Proof.
  unfold tick. destruct (getHeadSlot _ _ _) as [lg [h|]]; [|done].
  cbv zeta. destruct (_ <? _); [done|].
  destruct (slotsLoop _ _ _ _ _ _ _ _ _) as [[[w' [[sl up] ab]] vis]|]; [|done].
  intros [= <- _ <- _ _ _ _ _]. by split.
Qed.

(** The first run: the range is the head alone. *)
Lemma tick_first E api live t t' rep visited h :
  h < U64.max ->
  lastScannedSlot t = 0 ->
  snd (getHeadSlot E api (log (world_ t))) = Some h ->
  tick E api live t = Some (t', rep, visited) ->
  (visited = [] \/ visited = [h]) /\
  exists slots updates aborted, rep = Scanned h h 1 slots updates aborted.
Proof.
  intros Hh H0 Hhead. unfold tick.
  destruct (getHeadSlot _ _ _) as [lg head]. cbn [snd] in Hhead. subst head.
  cbv zeta. rewrite H0. cbn [N.eqb].
  rewrite N.ltb_irrefl.
  assert (Hc : U64.add (U64.sub h h) 1 = 1).
  { rewrite sub_exact by (unfold U64.max in Hh; lia). by rewrite N.sub_diag. }
  rewrite Hc.
  destruct live as [|live]; cbn [slotsLoop]; rewrite N.leb_refl.
  - intros [= <- <- <-]. split; [by left|]. eauto.
  - destruct (processSlot E api _ h) as [[w1 u]|]; [|done].
    rewrite add_exact by (unfold U64.max in Hh; lia).
    destruct live as [|live]; cbn [slotsLoop];
      (destruct (N.leb_spec (h + 1) h); [lia|]);
      intros [= <- <- <-]; (split; [by right|]); eauto.
Qed.

(** With the cursor above 0, a tick only goes up. *)
Lemma tick_above E api live t t' rep visited :
  below_max E api ->
  lastScannedSlot t <> 0 -> lastScannedSlot t < U64.max ->
  tick E api live t = Some (t', rep, visited) ->
  lastScannedSlot t <= lastScannedSlot t' /\
  lastScannedSlot t' < U64.max /\
  forall v, In v visited -> lastScannedSlot t < v.
Proof.
  intros Hb H0 Hc. unfold tick.
  pose proof (Hb (log (world_ t))) as Hhead.
  destruct (getHeadSlot _ _ _) as [lg [h|]]; cbn [snd] in Hhead.
  2: { intros [= <- _ <-]. simpl. split; [lia|]. split; [done|]. by intros v []. }
  specialize (Hhead h eq_refl).
  cbv zeta. destruct (N.eqb_spec (lastScannedSlot t) 0); [done|].
  rewrite add_exact by (unfold U64.max in Hc; lia).
  destruct (N.ltb_spec h (lastScannedSlot t + 1)).
  { intros [= <- _ <-]. simpl. split; [lia|]. split; [done|]. by intros v []. }
  destruct (slotsLoop _ _ _ _ _ _ _ _ _) as [[[w' r] vis]|] eqn:Hl; [|done].
  destruct r as [[sl up] ab].
  intros [= <- _ <-]. simpl. split; [lia|]. split; [done|].
  destruct (slotsLoop_visited _ _ _ _ _ _ _ _ _ _ _ _ Hhead Hl) as (extra & -> & Hex).
  intros v Hv. simpl in Hv. specialize (Hex v Hv). lia.
Qed.

Lemma ticks_above E api lives :
  forall t t' vs,
    below_max E api ->
    lastScannedSlot t <> 0 -> lastScannedSlot t < U64.max ->
    ticks E api lives t = Some (t', vs) ->
    lastScannedSlot t <= lastScannedSlot t' /\
    forall visited v, In visited vs -> In v visited -> lastScannedSlot t < v.
Proof.
  induction lives as [|live lives IH]; intros t t' vs Hb H0 Hc; cbn [ticks].
  - intros [= <- <-]. split; [lia|]. by intros visited v [].
  - destruct (tick E api live t) as [[[t1 rep] visited1]|] eqn:Ht; [|done].
    destruct (ticks E api lives t1) as [[t2 vs2]|] eqn:Hts; [|done].
    intros [= <- <-].
    destruct (tick_above _ _ _ _ _ _ _ Hb H0 Hc Ht) as (Hle & Hlt & Hvis).
    destruct (IH t1 t2 vs2 Hb) as [Hle2 Hvis2]; [lia|done|done|].
    split; [lia|].
    intros visited v [<-|Hin] Hv; [by apply Hvis|].
    specialize (Hvis2 visited v Hin Hv). lia.
Qed.

End ScannerFacts.

(** C10, as the code has it.  A tick always returns, and every tick that
    scans, finished or aborted, leaves the cursor at the head it resolved.
    With a node that never reports slot 2^64-1: a tick that finds the
    cursor at 0 hands at most the head to [processSlot]; and after a tick
    that scanned up to a head other than 0, later ticks only hand slots
    above that head to [processSlot], so what was skipped stays skipped. *)
Theorem scanner_cursor :
  forall E consensusAPI,
    (forall live t, is_Some (Scanner.tick E consensusAPI live t)) /\
    (forall live t t' from to count slots updates aborted visited,
       Scanner.tick E consensusAPI live t =
         Some (t', Scanner.Scanned from to count slots updates aborted, visited) ->
       Scanner.lastScannedSlot t' = to /\
       snd (Upstream.getHeadSlot E consensusAPI (Upstream.log (Scanner.world_ t))) = Some to) /\
    (Scanner.below_max E consensusAPI ->
     (forall live t t' rep visited h,
        Scanner.lastScannedSlot t = 0 ->
        snd (Upstream.getHeadSlot E consensusAPI (Upstream.log (Scanner.world_ t))) = Some h ->
        Scanner.tick E consensusAPI live t = Some (t', rep, visited) ->
        (visited = [] \/ visited = [h]) /\
        exists slots updates aborted, rep = Scanner.Scanned h h 1 slots updates aborted) /\
     (forall live t t1 from to count slots updates aborted visited lives t2 vs,
        Scanner.tick E consensusAPI live t =
          Some (t1, Scanner.Scanned from to count slots updates aborted, visited) ->
        to <> 0 ->
        Scanner.ticks E consensusAPI lives t1 = Some (t2, vs) ->
        forall visited' v, In visited' vs -> In v visited' -> to < v)).
Proof.
  intros E api.
  split; [intros; apply tick_total|].
  split; [intros; by eapply tick_scanned|].
  intros Hb. split.
  { intros live t t' rep visited h H0 Hh Ht.
    eapply tick_first; eauto. }
  intros live t t1 from to count slots updates aborted visited lives t2 vs Ht Hne Hts.
  destruct (tick_scanned _ _ _ _ _ _ _ _ _ _ _ _ Ht) as [Hc Hh].
  pose proof (Hb _ _ Hh) as Hlt.
  destruct (ticks_above E api lives t1 t2 vs Hb) as [_ Hvis]; [congruence|congruence|done|].
  intros visited' v Hin Hv. specialize (Hvis visited' v Hin Hv). congruence.
Qed.

Lemma node_at_5_below_max : Scanner.below_max (Scanner.node_at "5") "http://node".
Proof. intros lg h H. cbn in H. injection H as <-. reflexivity. Defined.

(** The cursor at 3, the head at 5, and a deadline that lets one slot
    through: slot 4 is processed, slot 5 is skipped, the cursor is 5. *)
Lemma scanner_cursor_witness :
  exists t' slots updates,
    Scanner.tick (Scanner.node_at "5") "http://node" 1
      {| Scanner.lastScannedSlot := 3; Scanner.world_ := Scanner.world_ Scanner.fresh |} =
      Some (t', Scanner.Scanned 4 5 2 slots updates true, [4]) /\
    Scanner.lastScannedSlot t' = 5 /\
    forall lives t2 vs,
      Scanner.ticks (Scanner.node_at "5") "http://node" lives t' = Some (t2, vs) ->
      forall visited' v, In visited' vs -> In v visited' -> 5 < v.
Proof.
  destruct (Scanner.tick (Scanner.node_at "5") "http://node" 1
      {| Scanner.lastScannedSlot := 3; Scanner.world_ := Scanner.world_ Scanner.fresh |})
    as [[[t' rep] visited]|] eqn:Ht; [|vm_compute in Ht; discriminate Ht].
  assert (Hrep : rep = Scanner.Scanned 4 5 2 1 0 true /\ visited = [4]).
  { vm_compute in Ht. injection Ht as _ <- <-. by split. }
  destruct Hrep as [-> ->].
  exists t', 1, 0. split; [reflexivity|].
  destruct (scanner_cursor (Scanner.node_at "5") "http://node") as (_ & Hcur & Hup).
  split; [exact (proj1 (Hcur _ _ _ _ _ _ _ _ _ _ Ht))|].
  destruct (Hup node_at_5_below_max) as [_ Hlater].
  intros lives t2 vs Hts. eapply Hlater; [exact Ht|discriminate|exact Hts].
Defined.

(** C10 as the specification words it fails twice.  With the head at
    2^64-1 the loop counter wraps and the first tick goes on to slot 0.
    With the head at 0 the cursor stays 0, the next tick is a first run
    again, and a slot 0 that an aborted tick skipped is processed by the
    next one. *)
Lemma scanner_range_counterexample :
  ~ Scanner.first_tick_only_head /\ ~ Scanner.skipped_never_revisited.
Proof.
  split; intros H.
  - assert (Ht : exists t' rep,
               Scanner.tick (Scanner.node_at "18446744073709551615") "http://node" 2
                 Scanner.fresh = Some (t', rep, [18446744073709551615; 0])).
    { vm_compute. eauto. }
    destruct Ht as (t' & rep & Ht).
    assert (H0 : 0 = 18446744073709551615); [|discriminate H0].
    apply (H (Scanner.node_at "18446744073709551615") "http://node" 2%nat
             Scanner.fresh t' rep [18446744073709551615; 0] 18446744073709551615
             eq_refl eq_refl Ht 0).
    right. left. reflexivity.
  - assert (Ht : exists t1 t2 rep2,
               Scanner.tick (Scanner.node_at "0") "http://node" 0 Scanner.fresh =
                 Some (t1, Scanner.Scanned 0 0 1 0 0 true, []) /\
               Scanner.tick (Scanner.node_at "0") "http://node" 1 t1 = Some (t2, rep2, [0])).
    { eexists _, _, _. split; vm_compute; reflexivity. }
    destruct Ht as (t1 & t2 & rep2 & Ht1 & Ht2).
    apply (H _ _ _ _ _ _ _ _ _ _ _ _ _ _ _ 0 Ht1 Ht2); [lia|by intros []|left; reflexivity].
Qed.

(** ** scanEpochRange under a deadline *)

Section PoolFacts.

Import Pool.

Lemma workers_update (ws : list wpc) i w w' :
  ws !! i = Some w ->
  exists l1 l2, ws = l1 ++ w :: l2 /\ <[i := w']> ws = l1 ++ w' :: l2.
Proof.
  intros H. exists (take i ws), (drop (S i) ws). split.
  - by rewrite take_drop_middle.
  - apply insert_take_drop. by eapply lookup_lt_Some.
Qed.

Ltac ms_norm :=
  unfold ms in *;
  repeat first
    [ rewrite map_app in * | rewrite flat_map_app in *
    | rewrite list_to_set_disj_app in * ];
  cbn [map flat_map held unsent fst app] in *;
  repeat first
    [ rewrite list_to_set_disj_app in * | rewrite app_nil_r in * ];
  rewrite ?list_to_set_disj_cons, ?list_to_set_disj_nil in *.

Ltac split_workers H :=
  let l1 := fresh "l1" in
  let l2 := fresh "l2" in
  let E1 := fresh "E1" in
  let E2 := fresh "E2" in
  match type of H with
  | workers ?s !! ?i = Some ?w =>
      match goal with
      | |- context [<[i := ?w']> (workers s)] =>
          destruct (workers_update (workers s) i w w' H) as (l1 & l2 & E1 & E2);
          rewrite E2; rewrite E1 in *
      end
  end.

Lemma unsent_after_send rest : unsent (after_send rest) = rest.
Proof. by destruct rest. Qed.

Lemma conserved_step jobs s e s' : conserved jobs s -> step s e s' -> conserved jobs s'.
Proof.
  intros (dropped & Heq & Hd) Hstep. unfold conserved.
  destruct Hstep; cbn [with_expired with_queue with_closed with_prod with_worker
                       with_slotsScanned with_updates with_processed
                       expired queue closed prod workers processed] in *.
  - exists dropped. split; [done|]. done.
  - exists (dropped ⊎ ms rest). rewrite H in Heq. split; [|congruence].
    ms_norm. multiset_solver.
  - exists dropped. rewrite H in Heq. split; [|done]. ms_norm. multiset_solver.
  - exists dropped. rewrite H in Heq. split; [|done]. ms_norm. multiset_solver.
  - exists dropped. rewrite H in Heq. rewrite unsent_after_send. split; [|done].
    ms_norm. multiset_solver.
  - exists (dropped ⊎ ms rest). rewrite H in Heq. split; [|congruence].
    ms_norm. multiset_solver.
  - exists dropped. rewrite H in Heq. split; [|done]. ms_norm. multiset_solver.
  - exists dropped. rewrite H in Heq. split; [|done]. ms_norm. multiset_solver.
  - exists dropped. rewrite H in Heq. split; [|done]. ms_norm. multiset_solver.
  - exists dropped. rewrite H0 in Heq. split_workers H. split; [|done].
    ms_norm. multiset_solver.
  - exists dropped. split_workers H. split; [|done]. ms_norm. multiset_solver.
  - exists (dropped ⊎ {[+ slot +]}). split_workers H. split; [|congruence].
    ms_norm. multiset_solver.
  - exists dropped. split_workers H. split; [|done]. ms_norm. multiset_solver.
  - exists dropped. split_workers H. split; [|done]. ms_norm. multiset_solver.
  - exists dropped. split_workers H. split; [|done]. ms_norm. multiset_solver.
  - exists dropped. split_workers H. split; [|done]. ms_norm. multiset_solver.
Qed.

Lemma sumN_app l1 l2 : sumN (l1 ++ l2) = sumN l1 + sumN l2.
Proof. unfold sumN. induction l1 as [|x l1 IH]; simpl; lia. Qed.

Lemma wrap_congr a b c : U64.wrap a = U64.wrap b -> U64.wrap (a + c) = U64.wrap (b + c).
Proof.
  unfold U64.wrap. intros H.
  rewrite (N.Div0.add_mod a), H, <- N.Div0.add_mod. done.
Qed.

Lemma wrap_add_l a c : U64.wrap (U64.wrap a + c) = U64.wrap (a + c).
Proof. unfold U64.wrap. apply N.Div0.add_mod_idemp_l. Qed.

Lemma wrap_lt a : U64.wrap a < U64.modulus.
Proof. unfold U64.wrap. apply N.mod_lt. done. Qed.

Lemma sumN_cons x l : sumN (x :: l) = x + sumN l.
Proof. reflexivity. Qed.

Ltac sum_norm :=
  repeat first [ rewrite map_app in * | rewrite sumN_app in * | rewrite length_app in * ];
  cbn [map to_count to_add snd length] in *;
  rewrite ?sumN_cons in *.

(** [wrap x = wrap y] from [wrap x0 = wrap y0], both sides moved by [c]. *)
Lemma wrap_shift x0 y0 c x y :
  U64.wrap x0 = U64.wrap y0 -> x = x0 + c -> y = y0 + c -> U64.wrap x = U64.wrap y.
Proof. intros H -> ->. by apply wrap_congr. Qed.

Lemma counted_step s e s' : counted s -> step s e s' -> counted s'.
Proof.
  intros (Hs & Hu & Hc & Ha) Hstep. unfold counted.
  destruct Hstep; cbn [with_expired with_queue with_closed with_prod with_worker
                       with_slotsScanned with_updates with_processed
                       expired queue closed prod workers processed slotsScanned updates] in *;
    try done; split_workers H; sum_norm;
    (split; [first [done | apply wrap_lt]|]);
    (split; [first [done | apply wrap_lt]|]);
    unfold U64.add; rewrite ?wrap_add_l.
  - split; [apply (wrap_shift _ _ 0 _ _ Hc) | apply (wrap_shift _ _ 0 _ _ Ha)]; lia.
  - split; [apply (wrap_shift _ _ 0 _ _ Hc) | apply (wrap_shift _ _ 0 _ _ Ha)]; lia.
  - split; [apply (wrap_shift _ _ 0 _ _ Hc) | apply (wrap_shift _ _ 0 _ _ Ha)]; lia.
  - split; [apply (wrap_shift _ _ 0 _ _ Hc) | apply (wrap_shift _ _ 0 _ _ Ha)]; lia.
  - split; [apply (wrap_shift _ _ 1 _ _ Hc) | apply (wrap_shift _ _ u _ _ Ha)];
      unfold sumN; simpl; lia.
  - split; [apply (wrap_shift _ _ 0 _ _ Hc) | apply (wrap_shift _ _ 0 _ _ Ha)]; lia.
  - split; [apply (wrap_shift _ _ 0 _ _ Hc) | apply (wrap_shift _ _ 0 _ _ Ha)]; lia.
Qed.

Lemma Forall_exit_lookup (ws : list wpc) i w :
  Forall (fun w => w = WExit) ws -> ws !! i = Some w -> w = WExit.
Proof. intros HF Hi. by eapply (Forall_lookup_1 _ _ _ _ HF Hi). Qed.

Lemma producer_inv_step s e s' : producer_inv s -> step s e s' -> producer_inv s'.
Proof.
  unfold producer_inv. intros Hp Hstep.
  destruct Hstep; cbn [with_expired with_queue with_closed with_prod with_worker
                       with_slotsScanned with_updates with_processed
                       expired queue closed prod workers processed slotsScanned updates] in *;
    try (rewrite H in Hp);
    try match goal with
        | Hw : workers ?s !! _ = Some ?w |- _ =>
            destruct (prod s) eqn:Hprod; try done;
            try (destruct Hp as (Hc & HF & _) || destruct Hp as [Hc HF]);
            try (pose proof (Forall_exit_lookup _ _ _ HF Hw); discriminate)
        end.
  - destruct (prod s) eqn:Hprod; try done.
    exfalso. apply H0. unfold returned. rewrite Hprod. eauto.
  - done.
  - split; [done|]. done.
  - done.
  - destruct Hp as [Hc _]. destruct rest; simpl; done.
  - by destruct Hp.
  - done.
  - by split.
  - destruct Hp as [Hc HF]. repeat split; done.
Qed.

Ltac pool_simpl :=
  cbn [with_expired with_queue with_closed with_prod with_worker
       with_slotsScanned with_updates with_processed
       expired queue closed prod workers processed slotsScanned updates] in *.

Lemma exits_inv_step s e s' :
  producer_inv s -> exits_inv s -> step s e s' -> exits_inv s'.
Proof.
  unfold exits_inv, producer_inv. intros Hp Hx Hstep.
  destruct Hstep; pool_simpl; intros j Hj;
    try (destruct (decide (i = j)) as [<-|Hne];
         [ rewrite list_lookup_insert_eq in Hj by (by eapply lookup_lt_Some)
         | rewrite list_lookup_insert_ne in Hj by done ]);
    try discriminate Hj; try (by left); try (by right);
    (destruct (Hx j Hj) as [Hl|[Hc' Hq]]; [by left|]);
    try (right; by split).
  - rewrite H in Hp. destruct Hp as [Hc _]. congruence.
  - congruence.
Qed.

Lemma length_step s e s' : step s e s' -> length (workers s') = length (workers s).
Proof. intros Hstep. destruct Hstep; pool_simpl; by rewrite ?length_insert. Qed.

Lemma inv_step jobs s e s' : inv jobs s -> step s e s' -> inv jobs s'.
Proof.
  intros (Hc & Hn & Hp & Hx & Hl) Hstep. split; [|split; [|split; [|split]]].
  - by eapply conserved_step.
  - by eapply counted_step.
  - by eapply producer_inv_step.
  - by eapply exits_inv_step.
  - by rewrite (length_step _ _ _ Hstep).
Qed.

Lemma inv_init jobs : inv jobs (init jobs).
Proof.
  split; [|split; [|split; [|split]]]; try done.
  - exists ∅. split; [|done]. unfold init. cbn [processed workers queue prod unsent map].
    change (flat_map held (replicate maxConcurrency WRecv)) with (@nil N).
    unfold ms. rewrite list_to_set_disj_nil. multiset_solver.
  - intros i Hi. unfold init in Hi. cbn [workers] in Hi.
    apply lookup_replicate in Hi as [? _]. discriminate.
Qed.

Lemma inv_exec jobs s tr s' : inv jobs s -> exec s tr s' -> inv jobs s'.
Proof. intros Hi Hex. induction Hex; eauto using inv_step. Qed.

Lemma elements_ms l : elements (ms l) ≡ₚ l.
Proof.
  unfold ms. induction l as [|x l IH]; simpl.
  - by rewrite gmultiset_elements_empty.
  - rewrite gmultiset_elements_disj_union, gmultiset_elements_singleton, IH. done.
Qed.

Lemma ms_submseteq l1 l2 : ms l1 ⊆ ms l2 -> l1 ⊆+ l2.
Proof.
  intros H. rewrite <- (elements_ms l1), <- (elements_ms l2).
  by apply gmultiset_elements_submseteq.
Qed.

Lemma ms_perm l1 l2 : ms l1 = ms l2 -> l1 ≡ₚ l2.
Proof. intros H. by rewrite <- (elements_ms l1), H, elements_ms. Qed.

Lemma exited_held (ws : list wpc) :
  Forall (fun w => w = WExit) ws -> flat_map held ws = [].
Proof. induction 1 as [|w ws -> _ IH]; [done|]. simpl. exact IH. Qed.

Lemma exited_sum (f : wpc -> N) (ws : list wpc) :
  f WExit = 0 -> Forall (fun w => w = WExit) ws -> sumN (map f ws) = 0.
Proof.
  intros H0. induction 1 as [|w ws -> _ IH]; [done|].
  cbn [map]. rewrite sumN_cons, IH, H0. done.
Qed.

(** What [scanEpochRange] returns. *)
Lemma returned_totals jobs s a b e :
  inv jobs s -> prod s = PDone a b e ->
  e = expired s /\
  Forall (fun w => w = WExit) (workers s) /\
  a = U64.wrap (N.of_nat (length (processed s))) /\
  b = U64.wrap (sumN (map snd (processed s))) /\
  map fst (processed s) ⊆+ jobs /\
  (e = false -> map fst (processed s) ≡ₚ jobs).
Proof.
  intros ((dropped & Hms & Hd) & (Hs & Hu & Hc & Ha) & Hp & Hx & Hl) Hprod.
  unfold producer_inv in Hp. rewrite Hprod in Hp.
  destruct Hp as (Hcl & HF & -> & -> & ->).
  rewrite Hprod in Hms. cbn [unsent] in Hms.
  rewrite (exited_held _ HF) in Hms.
  rewrite (exited_sum to_count _ eq_refl HF), N.add_0_r in Hc.
  rewrite (exited_sum to_add _ eq_refl HF), N.add_0_r in Ha.
  rewrite wrap_small in Hc by done. rewrite wrap_small in Ha by done.
  repeat split; try done.
  - apply ms_submseteq. rewrite Hms. unfold ms. simpl. multiset_solver.
  - intros He. specialize (Hd He). subst dropped.
    assert (Hq : queue s = []).
    { unfold exits_inv in Hx. destruct (workers s) as [|w ws]; [discriminate Hl|].
      apply Forall_cons in HF as [-> _].
      destruct (Hx 0%nat eq_refl) as [?|[_ ?]]; [congruence|done]. }
    rewrite Hq in Hms. apply ms_perm. rewrite Hms. unfold ms. simpl. multiset_solver.
Qed.

Lemma list_sum_update (f : wpc -> nat) (ws : list wpc) i w w' :
  ws !! i = Some w ->
  (list_sum (map f (<[i := w']> ws)) + f w = list_sum (map f ws) + f w')%nat.
Proof.
  intros H. destruct (workers_update ws i w w' H) as (l1 & l2 & E1 & E2).
  rewrite E2. subst ws. rewrite !map_app, !list_sum_app. simpl. lia.
Qed.

(** Every step brings the end nearer. *)
Lemma weight_step s e s' : step s e s' -> (weight s' < weight s)%nat.
Proof.
  intros Hstep. unfold weight.
  destruct Hstep; pool_simpl;
    try (rewrite H; cbn [producer_weight]);
    try match goal with
        | Hw : workers ?s !! ?i = Some ?w |- context [<[?i := ?w']> (workers ?s)] =>
            pose proof (list_sum_update worker_weight _ i w w' Hw) as Hsum;
            cbn [worker_weight] in Hsum
        end;
    rewrite ?length_app; cbn [length]; try lia.
  - destruct rest; cbn [after_send producer_weight length]; lia.
  - rewrite H0. cbn [length]. lia.
Qed.


Lemma exit_dec (w : wpc) : {w = WExit} + {w <> WExit}.
Proof. destruct w; (by left) || (by right). Qed.

(** A worker that has not returned can run, unless it waits on an empty
    channel that is still open. *)
Lemma worker_can_step s i w :
  workers s !! i = Some w -> w <> WExit ->
  queue s <> [] \/ closed s = true ->
  exists e s', step s e s' /\ e <> EExpire.
Proof.
  intros Hw Hne Hq. destruct w; try done.
  - destruct (queue s) as [|slot q] eqn:Hqueue.
    + destruct Hq as [|Hc]; [done|].
      eexists _, _. split; [by eapply w_recv_closed|done].
    + eexists _, _. split; [by eapply w_recv|done].
  - destruct (expired s) eqn:He.
    + eexists _, _. split; [by eapply w_poll_done|done].
    + eexists _, _. split; [by eapply w_poll_live|done].
  - eexists _, _. split; [by eapply (w_proc s i slot 0)|done].
  - eexists _, _. split; [by eapply w_count|done].
  - eexists _, _. split; [by eapply w_add|done].
Qed.

(** Nothing blocks for ever: until it has returned, the function can take
    a step that is not the deadline. *)
Lemma progress jobs s :
  inv jobs s -> ~ returned s -> exists e s', step s e s' /\ e <> EExpire.
Proof.
  intros (_ & _ & Hp & Hx & Hl) Hnot. unfold producer_inv in Hp.
  destruct (prod s) as [rest|rest| | | |a b e0] eqn:Hprod.
  - destruct (expired s) eqn:He.
    + eexists _, _. split; [by eapply p_top_done|done].
    + destruct rest as [|slot rest].
      * eexists _, _. split; [by eapply p_top_end|done].
      * eexists _, _. split; [by eapply p_top_live|done].
  - destruct Hp as [Hc Hrest]. destruct rest as [|slot rest]; [done|].
    destruct (expired s) eqn:He.
    { eexists _, _. split; [by eapply p_send_done|done]. }
    destruct (decide (length (queue s) < capacity)%nat) as [Hroom|Hfull].
    { eexists _, _. split; [by eapply p_send|done]. }
    destruct (workers s) as [|w ws] eqn:Hws; [discriminate Hl|].
    apply (worker_can_step s 0%nat w).
    + by rewrite Hws.
    + intros ->. destruct (Hx 0%nat) as [?|[? _]]; [by rewrite Hws|congruence|congruence].
    + left. intros Hq. rewrite Hq in Hfull. apply Hfull. unfold capacity, maxConcurrency.
      simpl. lia.
  - eexists _, _. split; [by eapply p_close|done].
  - destruct (Forall_Exists_dec (fun w => w = WExit) (fun w => w <> WExit)
                exit_dec (workers s)) as [HF|HE].
    + eexists _, _. split; [by eapply p_wait|done].
    + apply Exists_exists in HE as (w & Hin & Hne).
      apply list_elem_of_lookup in Hin as [i Hi].
      apply (worker_can_step s i w Hi Hne). by right.
  - eexists _, _. split; [by eapply p_err|done].
  - exfalso. apply Hnot. unfold returned. eauto.
Qed.

Lemma expired_step s e s' : step s e s' -> expired s = true -> expired s' = true.
Proof. intros Hstep. destruct Hstep; pool_simpl; done. Qed.








End PoolFacts.


(** The deadline passes between the producer's two selects: the first
    finds the context live, the second has both cases ready and sends. *)
Lemma race_exec :
  exists s,
    Pool.exec (Pool.init (Backfill.window_slots 0 0))
      [Pool.Tau; Pool.EExpire; Pool.ESend 31] s.
Proof.
  eexists.
  eapply Pool.exec_cons.
  { eapply (Pool.p_top_live _ 31); reflexivity. }
  eapply Pool.exec_cons.
  { eapply Pool.expire; [reflexivity|]. intros (a & b & e & H). discriminate H. }
  eapply Pool.exec_cons.
  { eapply (Pool.p_send _ 31); [reflexivity|]. cbn. unfold Pool.capacity, Pool.maxConcurrency. lia. }
  apply Pool.exec_nil.
Qed.




(** * Further properties of the code *)

(** ** LastAttestCache: the order of the writes does not matter *)

Section CacheOrder.

Import Cache.

Lemma SetIfGreater_lookup (m : gmap N N) index slot v :
  fst (SetIfGreater m index slot) !! v =
    if decide (index = v) then Some (N.max (default 0 (m !! v)) slot) else m !! v.
Proof.
  unfold SetIfGreater, lookup2.
  destruct (decide (index = v)) as [->|Hne].
  - destruct (m !! v) as [cur|] eqn:Hm; simpl.
    + destruct (N.ltb_spec cur slot); simpl.
      * rewrite lookup_insert_eq. f_equal. lia.
      * rewrite Hm. f_equal. lia.
    + rewrite lookup_insert_eq. f_equal. lia.
  - destruct (m !! index) as [cur|]; simpl.
    + destruct (cur <? slot); simpl; [by rewrite lookup_insert_ne|done].
    + by rewrite lookup_insert_ne.
Qed.

(** What a sequence of calls leaves for an index: what was there if no
    call names it, else the highest of what was there and the slots
    passed. *)
Lemma run_lookup calls (m : gmap N N) v :
  run calls m !! v =
    match slots_for v calls with
    | [] => m !! v
    | _ :: _ => Some (N.max (default 0 (m !! v)) (highest (slots_for v calls)))
    end.
Proof.
  revert m. induction calls as [|[i s] calls IH]; intros m; [done|].
  change (run ((i, s) :: calls) m) with (run calls (fst (SetIfGreater m i s))).
  rewrite IH, SetIfGreater_lookup.
  unfold slots_for. rewrite filter_cons. cbn [fst snd].
  destruct (decide (i = v)) as [->|Hne]; cbn [map].
  - destruct (map snd (filter _ calls)) as [|x l] eqn:Hs;
      cbn [default from_option id highest fold_right snd]; f_equal; unfold id; lia.
  - reflexivity.
Qed.

Lemma highest_perm l1 l2 : l1 ≡ₚ l2 -> highest l1 = highest l2.
Proof.
  unfold highest. induction 1 as [|x l1 l2 _ IH|x y l|l1 l2 l3 _ IH1 _ IH2]; simpl; lia.
Qed.

End CacheOrder.

(** X1: the calls of [SetIfGreater] commute: two sequences of calls that
    differ only in their order leave the same cache. *)
Theorem cache_order_independent :
  forall calls1 calls2 (m : gmap N N),
    calls1 ≡ₚ calls2 -> Cache.run calls1 m = Cache.run calls2 m.
Proof.
  intros calls1 calls2 m Hp. apply map_eq. intros v. rewrite !run_lookup.
  assert (Hs : Cache.slots_for v calls1 ≡ₚ Cache.slots_for v calls2).
  { unfold Cache.slots_for. by rewrite Hp. }
  rewrite (highest_perm _ _ Hs).
  destruct (Cache.slots_for v calls1) as [|x l1], (Cache.slots_for v calls2) as [|y l2];
    try done.
  - by apply Permutation_nil_cons in Hs.
  - symmetry in Hs. by apply Permutation_nil_cons in Hs.
Qed.

Lemma cache_order_independent_witness :
  Cache.run [(7, 9); (7, 5); (8, 1)] Cache.NewLastAttestCache =
  Cache.run [(7, 5); (8, 1); (7, 9)] Cache.NewLastAttestCache.
Proof.
  apply cache_order_independent.
  apply (Permutation_cons_app [(7, 5); (8, 1)] [] (7, 9)). reflexivity.
Defined.

(** X2: once [slot] has been offered for an index, offering it again, or
    anything not above it, is refused and changes nothing. *)
Theorem cache_write_absorbed :
  forall (m : gmap N N) index slot slot',
    slot' <= slot ->
    Cache.SetIfGreater (fst (Cache.SetIfGreater m index slot)) index slot' =
      (fst (Cache.SetIfGreater m index slot), false).
Proof.
  intros m index slot slot' Hle.
  pose proof (SetIfGreater_lookup m index slot index) as Hl.
  rewrite decide_True in Hl by done.
  unfold Cache.SetIfGreater at 1. unfold Cache.lookup2. rewrite Hl. cbn [negb orb].
  destruct (N.ltb_spec (N.max (default 0 (m !! index)) slot) slot'); [lia|done].
Qed.

Lemma cache_write_absorbed_witness :
  Cache.SetIfGreater (fst (Cache.SetIfGreater Cache.NewLastAttestCache 7 5)) 7 5 =
    (fst (Cache.SetIfGreater Cache.NewLastAttestCache 7 5), false).
Proof. apply cache_write_absorbed. lia. Defined.

(** ** validatorsForAttestation: the voters are drawn from the included committees *)

Section VoterOrigin.

Import Voter.

Lemma picked_sublist (concat : list N) (g : nat -> bool) (n k : nat) :
  map (fun p => nth p concat 0)
      (List.filter (fun p => (p <? length concat)%nat) (List.filter g (seq k n)))
    `sublist_of` drop k concat.
Proof.
  revert k. induction n as [|n IH]; intros k; [apply sublist_nil_l|].
  assert (Hskip : drop (S k) concat `sublist_of` drop k concat).
  { replace (S k) with (k + 1)%nat by lia. rewrite <- drop_drop. apply sublist_drop. }
  cbn [seq List.filter]. destruct (g k); [|etrans; [apply IH|exact Hskip]].
  cbn [List.filter]. destruct (Nat.ltb_spec k (length concat)) as [Hlt|_]; [|etrans; [apply IH|exact Hskip]].
  cbn [map]. destruct (lookup_lt_is_Some_2 concat k Hlt) as [v Hv].
  rewrite (drop_S concat v k Hv), (nth_lookup_Some concat k 0 v Hv).
  by apply sublist_skip.
Qed.

Lemma voters_spec_sublist idx cbits aggBits :
  voters_spec idx cbits aggBits `sublist_of` concatenation idx cbits.
Proof. unfold voters_spec, set_positions. apply (picked_sublist _ _ _ 0). Qed.

Lemma concatenation_origin idx cbits v :
  In v (concatenation idx cbits) ->
  exists ci, nth ci cbits false = true /\ idx !! N.of_nat ci = Some (committee idx (N.of_nat ci)) /\
             In v (committee idx (N.of_nat ci)).
Proof.
  unfold concatenation, included_committees. rewrite in_flat_map.
  intros (c & Hc & Hv). apply in_map_iff in Hc as (ci & <- & Hci).
  apply filter_In in Hci as [_ Hbit]. exists ci. split; [done|]. split; [|done].
  unfold committee in *. destruct (idx !! N.of_nat ci); [done|]. destruct Hv.
Qed.

Lemma set_positions_bound bits : (length (set_positions bits) <= length bits)%nat.
Proof.
  unfold set_positions.
  etrans; [apply List.filter_length_le|]. by rewrite length_seq.
Qed.

Lemma validatorsForAttestation_untyped att idx c :
  att !! "committee_bits" = Some c -> (forall s, c <> VString s) ->
  validatorsForAttestation att idx = Some [].
Proof.
  intros Hc Hs. unfold validatorsForAttestation.
  set (agg := fst (as_string att "aggregation_bits")).
  unfold as_string. rewrite Hc. destruct c; try done. by destruct (Hs s).
Qed.

End VoterOrigin.

(** X3: whatever the attestation and the committee map,
    [validatorsForAttestation] returns a list that is a subsequence of the
    concatenated committees named by the committee bits: every voter was
    assigned to a committee whose bit is set, no voter is invented, and
    the order of the concatenation is kept.  There are never more voters
    than aggregation bits. *)
Theorem voters_from_included_committees :
  forall att idxToValidators,
    exists voters,
      Voter.validatorsForAttestation att idxToValidators = Some voters /\
      voters `sublist_of`
        Voter.concatenation idxToValidators
          (Hex.hexBitlist (fst (Voter.as_string att "committee_bits"))) /\
      (forall v, In v voters ->
         exists ci,
           nth ci (Hex.hexBitlist (fst (Voter.as_string att "committee_bits"))) false = true /\
           exists members,
             idxToValidators !! N.of_nat ci = Some members /\ In v members) /\
      (length voters <=
         length (Hex.hexBitlist (fst (Voter.as_string att "aggregation_bits"))))%nat.
Proof.
  intros att idx.
  destruct (att !! "committee_bits") as [c|] eqn:Hc.
  2:{ exists []. rewrite validatorsForAttestation_single by auto.
      repeat split; [apply sublist_nil_l|intros v []|simpl; lia]. }
  assert (Hsingle :
    Voter.validatorsForAttestation att idx = Some [] ->
    exists voters,
      Voter.validatorsForAttestation att idx = Some voters /\
      voters `sublist_of`
        Voter.concatenation idx (Hex.hexBitlist (fst (Voter.as_string att "committee_bits"))) /\
      (forall v, In v voters ->
         exists ci,
           nth ci (Hex.hexBitlist (fst (Voter.as_string att "committee_bits"))) false = true /\
           exists members, idx !! N.of_nat ci = Some members /\ In v members) /\
      (length voters <=
         length (Hex.hexBitlist (fst (Voter.as_string att "aggregation_bits"))))%nat).
  { intros E. exists []. repeat split; [done|apply sublist_nil_l|intros v []|simpl; lia]. }
  destruct c as [|b|bits|s|l|m];
    try (apply Hsingle; by apply (validatorsForAttestation_untyped _ _ _ Hc)).
  destruct (String.eqb_spec s "") as [->|Hne].
  { apply Hsingle. apply validatorsForAttestation_single. auto. }
  eexists. split; [by apply validatorsForAttestation_multi|].
  replace (fst (Voter.as_string att "committee_bits")) with s
    by (unfold Voter.as_string; by rewrite Hc).
  split; [apply voters_spec_sublist|]. split.
  - intros v Hv.
    assert (Hin : In v (Voter.concatenation idx (Hex.hexBitlist s))).
    { apply list_elem_of_In. eapply elem_of_submseteq.
      - apply list_elem_of_In. exact Hv.
      - apply sublist_submseteq, voters_spec_sublist. }
    apply concatenation_origin in Hin as (ci & Hbit & Hm & Hi). eauto.
  - unfold Voter.voters_spec. rewrite length_map.
    etrans; [apply List.filter_length_le|]. apply set_positions_bound.
Qed.

(** ** processSlot: what it does to the cache and what it asks the node *)

Section ProcessSlotEffects.

Import Voter Upstream Block.






Lemma apply_voters_nil slot cu : apply_voters slot [] cu = cu.
Proof. reflexivity. Qed.

(** Without an assignment nothing is written. *)
Lemma apply_attestations_absent slot atts cu :
  apply_attestations slot ∅ atts cu = Some cu.
Proof.
  unfold apply_attestations. induction atts as [|a atts IH]; [done|].
  cbn [fold_left]. destruct a as [|b|bits|s|l|att]; try exact IH.
  by rewrite validatorsForAttestation_absent, apply_voters_nil.
Qed.

(** [processSlot] in terms of the attestations of the block. *)
Lemma processSlot_unfold E api w slot :
  processSlot E api w slot =
    let '(lg, resp) := fetch_block E (block_url api slot) [1; 2; 3] (log w) in
    match resp with
    | None => Some ({| log := lg; cache := cache w |}, 0)
    | Some b =>
        if (length (attestations_of b) =? 0)%nat
        then Some ({| log := lg; cache := cache w |}, 0)
        else
          let '(lg', idx) := fetchCommitteesForSlot E api lg slot in
          match apply_attestations slot idx (attestations_of b) (cache w, 0) with
          | None => None
          | Some (c, updated) => Some ({| log := lg'; cache := c |}, updated)
          end
    end.
Proof.
  unfold processSlot, attestations_of.
  destruct (fetch_block _ _ _ _) as [lg [b|]]; [|done].
  destruct (as_block b) as [payload|]; [|done].
  destruct (as_object payload "data") as [data|]; [|done].
  destruct (as_object data "message") as [message|]; [|done].
  by destruct (as_object message "body") as [body_|].
Qed.

Lemma fetchCommittees_unasked E api lg slot :
  fst (fetchCommitteesForSlot E api lg slot) = lg ->
  snd (fetchCommitteesForSlot E api lg slot) = ∅.
Proof.
  intros H. apply fetchCommittees_failure.
  destruct (parses E (committees_url api slot)) eqn:Hp; [|by left].
  destruct (fetchCommittees_shape E api lg slot) as (new & Hnew & _ & Hone).
  rewrite (Hone Hp), H in Hnew.
  apply (f_equal length) in Hnew. rewrite length_app in Hnew. simpl in Hnew. lia.
Qed.

End ProcessSlotEffects.



(** X5: what one call asks the node.  After the requests of the block
    fetch comes at most one more, for the committees of the slot, and only
    when the fetch gave a block with at least one attestation; a call makes
    at most four requests.  A call that reports an update has asked for the
    committees. *)
Theorem processSlot_requests :
  forall E consensusAPI w slot w' updated,
    Upstream.processSlot E consensusAPI w slot = Some (w', updated) ->
    exists fetched asked,
      Upstream.log w' = Upstream.log w ++ fetched ++ asked /\
      Upstream.fetch_shape (Upstream.block_url consensusAPI slot) fetched
        (snd (Upstream.fetch_block E (Upstream.block_url consensusAPI slot) [1; 2; 3]
                (Upstream.log w))) /\
      (asked = [] \/ asked = [Upstream.Request (Upstream.committees_url consensusAPI slot)]) /\
      (asked <> [] ->
       exists b,
         snd (Upstream.fetch_block E (Upstream.block_url consensusAPI slot) [1; 2; 3]
                (Upstream.log w)) = Some b /\
         Block.attestations_of b <> []) /\
      (updated <> 0 -> asked <> []) /\
      (Upstream.requests (fetched ++ asked) <= 4)%nat.
Proof.
  intros E api w slot w' updated H.
  rewrite processSlot_unfold in H.
  destruct (fetch_block_shape E (Upstream.block_url api slot) (Upstream.log w))
    as (fetched & Hlog & Hshape).
  pose proof (fetch_shape_requests _ _ _ Hshape) as Hreq.
  destruct (Upstream.fetch_block _ _ _ _) as [lg resp]. cbn [fst snd] in *. subst lg.
  assert (Hnone : (Upstream.log w', updated) = (Upstream.log w ++ fetched, 0) ->
    exists fetched0 asked,
      Upstream.log w' = Upstream.log w ++ fetched0 ++ asked /\
      Upstream.fetch_shape (Upstream.block_url api slot) fetched0 resp /\
      (asked = [] \/ asked = [Upstream.Request (Upstream.committees_url api slot)]) /\
      (asked <> [] -> exists b, resp = Some b /\ Block.attestations_of b <> []) /\
      (updated <> 0 -> asked <> []) /\
      (Upstream.requests (fetched0 ++ asked) <= 4)%nat).
  { intros [= -> ->]. exists fetched, []. rewrite !app_nil_r.
    repeat split; [done|by left|done|done|lia]. }
  destruct resp as [b|]; [|apply Hnone; by injection H as <- <-].
  destruct (length (Block.attestations_of b) =? 0)%nat eqn:Hlen;
    [apply Hnone; by injection H as <- <-|].
  clear Hnone.
  destruct (fetchCommittees_shape E api (Upstream.log w ++ fetched) slot)
    as (asked & Hlog' & Hasked & _).
  pose proof (fetchCommittees_unasked E api (Upstream.log w ++ fetched) slot) as Hun.
  destruct (Upstream.fetchCommitteesForSlot _ _ _ _) as [lg' idx]. cbn [fst snd] in *.
  destruct (Upstream.apply_attestations _ _ _ _) as [[c u]|] eqn:Ha; [|done].
  injection H as <- <-. cbn [Upstream.log].
  exists fetched, asked. rewrite app_assoc.
  split; [done|]. split; [done|]. split; [done|]. split; [|split].
  - intros _. exists b. split; [done|]. intros E0. by rewrite E0 in Hlen.
  - intros Hu ->. rewrite app_nil_r in Hlog'. rewrite (Hun Hlog') in Ha.
    rewrite apply_attestations_absent in Ha. by injection Ha as _ <-.
  - rewrite requests_app. destruct Hasked as [->| ->]; cbn; lia.
Qed.

Lemma processSlot_requests_witness :
  exists fetched asked,
    [Upstream.Request "http://node/eth/v2/beacon/blocks/9";
     Upstream.Request "http://node/eth/v1/beacon/states/9/committees?slot=9"] =
      [] ++ fetched ++ asked /\
    (Upstream.requests (fetched ++ asked) <= 4)%nat.
Proof.
  destruct (processSlot_requests Upstream.example_node "http://node/"
              {| Upstream.log := []; Upstream.cache := ∅ |} 9
              {| Upstream.log :=
                   [Upstream.Request "http://node/eth/v2/beacon/blocks/9";
                    Upstream.Request "http://node/eth/v1/beacon/states/9/committees?slot=9"];
                 Upstream.cache := <[42 := 9]> (<[17 := 9]> ∅) |} 2)
    as (fetched & asked & Hlog & _ & _ & _ & _ & Hreq).
  - vm_compute. reflexivity.
  - exists fetched, asked. split; [exact Hlog | exact Hreq].
Defined.

(** ** ParseUint reads back what FormatUint writes *)

Section Decimal.

Import Upstream Digits.

Lemma parse_digits_read d n :
  parse_digits (DecimalString.NilEmpty.string_of_uint d) n = Some (read_uint d n).
Proof.
  revert n. induction d; intros n; cbn [DecimalString.NilEmpty.string_of_uint parse_digits read_uint];
    [done|..]; (etrans; [|apply IHd]); cbn; rewrite ?N.add_0_r; reflexivity.
Qed.

Lemma read_uint_pos d p : read_uint d (Npos p) = Npos (Pos.of_uint_acc d p).
Proof.
  revert p. induction d; intros p; cbn [read_uint Pos.of_uint_acc]; [done|..];
    (etrans; [|apply IHd]); f_equal; lia.
Qed.

Lemma read_uint_0 d : read_uint d 0 = N.of_uint d.
Proof.
  unfold N.of_uint.
  induction d; cbn [read_uint Pos.of_uint]; [done|exact IHd|..];
    (etrans; [|apply read_uint_pos]); f_equal.
Qed.

Lemma FormatUint_digits n :
  parse_digits (FormatUint n) 0 = Some n /\ FormatUint n <> "".
Proof.
  unfold FormatUint.
  assert (H : N.of_uint (N.to_uint n) = n) by apply DecimalN.Unsigned.of_to.
  destruct (N.to_uint n) as [|d|d|d|d|d|d|d|d|d|d] eqn:Hd;
    cbn [DecimalString.NilZero.string_of_uint];
    try (split; [|cbn; discriminate]; rewrite parse_digits_read, read_uint_0; by f_equal).
  split; [|discriminate]. cbn in *. by f_equal.
Qed.

Lemma ParseUint_FormatUint n :
  ParseUint (FormatUint n) = if n <=? U64.max then Some n else None.
Proof.
  unfold ParseUint. destruct (FormatUint_digits n) as [-> Hne].
  by destruct (String.eqb_spec (FormatUint n) "").
Qed.

Lemma ParseUint_bound s n : ParseUint s = Some n -> n <= U64.max.
Proof.
  unfold ParseUint. destruct (String.eqb s ""); [done|].
  destruct (parse_digits s 0) as [m|]; [|done].
  destruct (N.leb_spec m U64.max); [|done]. by intros [= <-].
Qed.

End Decimal.

(** ** getHeadSlot and fetchCommitteesForSlot against a well-formed node *)

Section NodeReplies.

Import Upstream Committees.

Lemma omap_cons_eq {A B} (f : A -> option B) x l :
  omap f (x :: l) = match f x with Some y => y :: omap f l | None => omap f l end.
Proof. reflexivity. Qed.

Lemma parse_format_all vs :
  Forall (fun v => v <= U64.max) vs -> omap ParseUint (map FormatUint vs) = vs.
Proof.
  induction 1 as [|v vs Hv _ IH]; [done|].
  cbn [map]. rewrite omap_cons_eq, ParseUint_FormatUint, IH.
  by destruct (N.leb_spec v U64.max); [|lia].
Qed.

Lemma decode_encode_entry (c : N * list N) :
  fst c <= U64.max -> Forall (fun v => v <= U64.max) (snd c) ->
  decode_entry (FormatUint (fst c), map FormatUint (snd c)) = Some c.
Proof.
  intros Hi Hv. unfold decode_entry. cbn [fst snd].
  rewrite ParseUint_FormatUint. destruct (N.leb_spec (fst c) U64.max); [|lia].
  destruct c as [i vs]. cbn [fst snd] in *. by rewrite parse_format_all.
Qed.

Lemma decode_encode_all asg : in_range asg -> omap decode_entry (encode asg) = asg.
Proof.
  induction 1 as [|c asg [Hi Hv] _ IH]; [done|].
  cbn [encode map]. rewrite omap_cons_eq, decode_encode_entry by done.
  unfold encode in IH. by rewrite IH.
Qed.

End NodeReplies.

(** X6: [getHeadSlot] makes at most one request, to [blocks/head].  A head
    it returns is what [ParseUint] reads in the slot string of a reply with
    status 200, so it fits 64 bits; and the slot a node formats with
    [FormatUint] is the slot returned, for every 64-bit slot. *)
Theorem getHeadSlot_contract :
  forall E consensusAPI lg,
    (fst (Upstream.getHeadSlot E consensusAPI lg) = lg \/
     fst (Upstream.getHeadSlot E consensusAPI lg) =
       lg ++ [Upstream.Request (Committees.head_url consensusAPI)]) /\
    (forall h,
       snd (Upstream.getHeadSlot E consensusAPI lg) = Some h ->
       h <= U64.max /\
       fst (Upstream.getHeadSlot E consensusAPI lg) =
         lg ++ [Upstream.Request (Committees.head_url consensusAPI)] /\
       exists b slot,
         Upstream.answer E (Upstream.requests lg) (Committees.head_url consensusAPI) =
           Upstream.Response 200 b /\
         Upstream.as_head b = Some slot /\ Upstream.ParseUint slot = Some h) /\
    (forall n b,
       n <= U64.max ->
       Upstream.parses E (Committees.head_url consensusAPI) = true ->
       Upstream.answer E (Upstream.requests lg) (Committees.head_url consensusAPI) =
         Upstream.Response 200 b ->
       Upstream.as_head b = Some (Upstream.FormatUint n) ->
       Upstream.getHeadSlot E consensusAPI lg =
         (lg ++ [Upstream.Request (Committees.head_url consensusAPI)], Some n)).
Proof.
  intros E api lg. unfold Upstream.getHeadSlot. fold (Committees.head_url api). cbv zeta.
  split; [|split].
  - destruct (Upstream.parses E _); cbn [negb]; [right|by left].
    destruct (Upstream.answer E _ _) as [|status b]; [done|].
    destruct (negb _); [done|]. destruct (Upstream.as_head b) as [slot|]; [|done].
    by destruct (String.eqb slot "").
  - intros h. destruct (Upstream.parses E _); cbn [negb]; [|done].
    destruct (Upstream.answer E _ _) as [|status b]; [done|].
    destruct (N.eqb_spec status Upstream.StatusOK) as [->|]; cbn [negb]; [|done].
    destruct (Upstream.as_head b) as [slot|] eqn:Hb; [|done].
    destruct (String.eqb slot ""); [done|]. cbn [fst snd]. intros Hp.
    split; [by eapply ParseUint_bound|]. split; [done|]. by exists b, slot.
  - intros n b Hn -> -> ->. cbn [negb N.eqb Upstream.StatusOK Pos.eqb].
    destruct (FormatUint_digits n) as [_ Hne].
    destruct (String.eqb_spec (Upstream.FormatUint n) ""); [done|].
    rewrite ParseUint_FormatUint. by destruct (N.leb_spec n U64.max); [|lia].
Qed.

(** X7: on a reply with status 200 that decodes, [fetchCommitteesForSlot]
    keeps of each entry whose index parses the validators that parse, in
    order; an entry whose index does not parse is skipped, as is a
    validator that does not parse; of two entries with the same index the
    later one wins.  So the assignment a node formats with [FormatUint]
    is the assignment returned, for all 64-bit numbers. *)
Theorem committees_decoding :
  forall E consensusAPI lg slot b,
    Upstream.parses E (Upstream.committees_url consensusAPI slot) = true ->
    Upstream.answer E (Upstream.requests lg) (Upstream.committees_url consensusAPI slot) =
      Upstream.Response 200 b ->
    (forall data,
       Upstream.as_committees b = Some data ->
       snd (Upstream.fetchCommitteesForSlot E consensusAPI lg slot) =
         list_to_map (rev (omap Committees.decode_entry data))) /\
    (forall asg,
       Committees.in_range asg ->
       Upstream.as_committees b = Some (Committees.encode asg) ->
       snd (Upstream.fetchCommitteesForSlot E consensusAPI lg slot) = list_to_map (rev asg)).
Proof.
  intros E api lg slot b Hp Ha.
  assert (H : forall data,
    Upstream.as_committees b = Some data ->
    snd (Upstream.fetchCommitteesForSlot E api lg slot) =
      list_to_map (rev (omap Committees.decode_entry data))).
  { intros data Hd. unfold Upstream.fetchCommitteesForSlot. cbv zeta.
    rewrite Hp, Ha, Hd. cbn [negb N.eqb Upstream.StatusOK Pos.eqb snd].
    apply committees_loop. }
  split; [exact H|].
  intros asg Hr Hd. rewrite (H _ Hd). by rewrite decode_encode_all.
Qed.

Lemma committees_decoding_witness :
  snd (Upstream.fetchCommitteesForSlot Upstream.example_node "http://node/" [] 9) =
    list_to_map (rev [(0, [42; 17])]).
Proof.
  refine (proj2 (committees_decoding Upstream.example_node "http://node/" [] 9 _ _ _)
            [(0, [42; 17])] _ _).
  - reflexivity.
  - reflexivity.
  - repeat constructor; vm_compute; discriminate.
  - reflexivity.
Defined.

(** ** The ticker: when a tick does nothing, and which slots it scans *)

Section TickRange.

Import Upstream Scanner.

(** The loop under a budget of [live] polls, [n] slots from the head: it
    hands the first [min live n] of them to [processSlot], in order, and
    aborts if the budget is short. *)
Lemma slotsLoop_prefix E api headSlot n :
  forall live s w slots updates visited,
    s + N.of_nat n = headSlot + 1 -> headSlot < U64.max ->
    slots + N.of_nat (min live n) < U64.modulus ->
    exists w' updates',
      slotsLoop E api headSlot live s w slots updates visited =
        Some (w', (slots + N.of_nat (min live n), updates', (live <? n)%nat),
              visited ++ map (fun i => s + N.of_nat i) (seq 0 (min live n))).
Proof.
  induction n as [|n IH]; intros live s w slots updates visited Hs Hh Hsl.
  - rewrite Nat.min_0_r. cbn [seq map]. rewrite app_nil_r, N.add_0_r.
    replace (live <? 0)%nat with false by (symmetry; apply Nat.ltb_ge; lia).
    destruct live; cbn [slotsLoop];
      (destruct (N.leb_spec s headSlot); [lia|]); eauto.
  - destruct live as [|live]; cbn [slotsLoop];
      (destruct (N.leb_spec s headSlot); [|lia]).
    + cbn [min seq map Nat.ltb Nat.leb]. rewrite app_nil_r, N.add_0_r. eauto.
    + destruct (processSlot_total E api w s) as [[w' u] ->].
      rewrite (add_exact s 1) by (unfold U64.max in Hh; lia).
      rewrite (add_exact slots 1) by (cbn [min] in Hsl; lia).
      destruct (IH live (s + 1) w' (slots + 1) (U64.add updates u) (visited ++ [s]))
        as (w'' & up & ->); [lia|done|cbn [min] in Hsl; lia|].
      exists w'', up. rewrite <- app_assoc. cbn [min seq map app].
      rewrite N.add_0_r. change (S live <? S n)%nat with (live <? n)%nat.
      replace (slots + 1 + N.of_nat (min live n)) with (slots + N.of_nat (S (min live n)))
        by lia.
      do 3 f_equal. rewrite <- seq_shift, map_map. f_equal. apply map_ext. intros i. lia.
Qed.



Lemma getHeadSlot_shape E api lg :
  fst (getHeadSlot E api lg) = lg \/
  fst (getHeadSlot E api lg) = lg ++ [Request (Committees.head_url api)].
Proof.
  unfold getHeadSlot. fold (Committees.head_url api). cbv zeta.
  destruct (parses E _); cbn [negb]; [right|by left].
  destruct (answer E _ _) as [|status b]; [done|].
  destruct (negb _); [done|]. destruct (as_head b) as [slot|]; [|done].
  by destruct (String.eqb slot "").
Qed.

Lemma getHeadSlot_requests E api lg :
  (requests (fst (getHeadSlot E api lg)) <= S (requests lg))%nat.
Proof.
  destruct (getHeadSlot_shape E api lg) as [-> | ->]; [lia|].
  rewrite requests_app. cbn. lia.
Qed.

End TickRange.

(** X8: a tick that cannot resolve the head, or that finds the head at or
    below a cursor that is neither 0 nor 2^64-1, scans nothing: the cursor
    and the cache are as before, no slot is handed to [processSlot], and
    the only request is the one for the head. *)
Theorem tick_idle :
  forall E consensusAPI live t,
    snd (Upstream.getHeadSlot E consensusAPI (Upstream.log (Scanner.world_ t))) = None \/
    (exists h,
       snd (Upstream.getHeadSlot E consensusAPI (Upstream.log (Scanner.world_ t))) = Some h /\
       Scanner.lastScannedSlot t <> 0 /\ Scanner.lastScannedSlot t < U64.max /\
       h <= Scanner.lastScannedSlot t) ->
    exists t' rep,
      Scanner.tick E consensusAPI live t = Some (t', rep, []) /\
      (rep = Scanner.HeadFailed \/ rep = Scanner.Already) /\
      Scanner.lastScannedSlot t' = Scanner.lastScannedSlot t /\
      Upstream.cache (Scanner.world_ t') = Upstream.cache (Scanner.world_ t) /\
      Upstream.log (Scanner.world_ t') =
        fst (Upstream.getHeadSlot E consensusAPI (Upstream.log (Scanner.world_ t))) /\
      (Upstream.requests (Upstream.log (Scanner.world_ t')) <=
         S (Upstream.requests (Upstream.log (Scanner.world_ t))))%nat.
Proof.
  intros E api live t H.
  pose proof (getHeadSlot_requests E api (Upstream.log (Scanner.world_ t))) as Hreq.
  unfold Scanner.tick.
  destruct (Upstream.getHeadSlot _ _ _) as [lg head]. cbn [fst snd] in *.
  destruct H as [-> | (h & -> & Hne & Hmax & Hle)].
  - eexists _, _. split; [reflexivity|]. cbn. auto.
  - cbv zeta. destruct (N.eqb_spec (Scanner.lastScannedSlot t) 0); [done|].
    rewrite add_exact by (unfold U64.max in Hmax; lia).
    destruct (N.ltb_spec h (Scanner.lastScannedSlot t + 1)); [|lia].
    eexists _, _. split; [reflexivity|]. cbn. auto.
Qed.

Lemma tick_idle_witness :
  exists t' rep,
    Scanner.tick (Scanner.node_at "5") "http://node" 1
      {| Scanner.lastScannedSlot := 5; Scanner.world_ := Scanner.world_ Scanner.fresh |} =
      Some (t', rep, []) /\
    Scanner.lastScannedSlot t' = 5.
Proof.
  destruct (tick_idle (Scanner.node_at "5") "http://node" 1
              {| Scanner.lastScannedSlot := 5; Scanner.world_ := Scanner.world_ Scanner.fresh |})
    as (t' & rep & Ht & _ & Hc & _).
  - right. exists 5. split; [reflexivity|]. split; [discriminate|]. split; [reflexivity|].
    cbn. lia.
  - exists t', rep. split; [exact Ht | exact Hc].
Defined.

(** X9: a tick that finds the cursor at [c], not 0, and the head at [h]
    above it, with a deadline that lets [live] polls through: it hands to
    [processSlot] the slots [c+1, c+2, ...] in ascending order, all [h - c]
    of them if [live] is enough and the first [live] otherwise; it reports
    the range [c+1 .. h] with the count [h - c], the number of slots
    scanned, and whether it aborted; and the cursor is [h] afterwards in
    both cases. *)
Theorem tick_range :
  forall E consensusAPI live t h,
    snd (Upstream.getHeadSlot E consensusAPI (Upstream.log (Scanner.world_ t))) = Some h ->
    Scanner.lastScannedSlot t <> 0 ->
    Scanner.lastScannedSlot t < h ->
    h < U64.max ->
    let c := Scanner.lastScannedSlot t in
    let n := N.to_nat (h - c) in
    exists t' updates,
      Scanner.tick E consensusAPI live t =
        Some (t',
              Scanner.Scanned (c + 1) h (h - c) (N.of_nat (min live n)) updates (live <? n)%nat,
              map (fun i => c + 1 + N.of_nat i) (seq 0 (min live n))) /\
      Scanner.lastScannedSlot t' = h.
Proof.
  intros E api live t h Hhead Hne Hlt Hmax c n.
  unfold Scanner.tick.
  destruct (Upstream.getHeadSlot _ _ _) as [lg head]. cbn [snd] in Hhead. subst head.
  cbv zeta. fold c. destruct (N.eqb_spec c 0); [done|].
  rewrite (add_exact c 1) by (unfold U64.max in Hmax; lia).
  destruct (N.ltb_spec h (c + 1)); [lia|].
  rewrite sub_exact by (unfold U64.max in Hmax; lia).
  rewrite add_exact by (unfold U64.max in Hmax; lia).
  destruct (slotsLoop_prefix E api h n live (c + 1)
              {| Upstream.log := lg; Upstream.cache := Upstream.cache (Scanner.world_ t) |}
              0 0 []) as (w' & up & ->).
  - subst n. lia.
  - done.
  - subst n. unfold U64.max in Hmax. lia.
  - replace (h - (c + 1) + 1) with (h - c) by lia. cbn [app].
    eexists _, up. split; reflexivity.
Qed.

(** The cursor at 3, the head at 5, one poll: slot 4 alone is scanned. *)
Lemma tick_range_witness :
  exists t' updates,
    Scanner.tick (Scanner.node_at "5") "http://node" 1
      {| Scanner.lastScannedSlot := 3; Scanner.world_ := Scanner.world_ Scanner.fresh |} =
      Some (t', Scanner.Scanned 4 5 2 1 updates true, [4]) /\
    Scanner.lastScannedSlot t' = 5.
Proof.
  apply (tick_range (Scanner.node_at "5") "http://node" 1
           {| Scanner.lastScannedSlot := 3; Scanner.world_ := Scanner.world_ Scanner.fresh |} 5).
  - reflexivity.
  - discriminate.
  - reflexivity.
  - reflexivity.
Defined.

(** ** scanEpochRange: the channel *)

Section ChannelFacts.

Import Pool Channel.

Ltac step_simpl :=
  cbn [with_expired with_queue with_closed with_prod with_worker
       with_slotsScanned with_updates with_processed
       expired queue closed prod workers processed slotsScanned updates unsent] in *.

Lemma sent_app tr1 tr2 : sent (tr1 ++ tr2) = sent tr1 ++ sent tr2.
Proof. unfold sent. apply flat_map_app. Qed.

(** A step takes the slot it sends from the head of what is left to offer;
    what is left is dropped only once the deadline has passed. *)
Lemma step_unsent s e s' :
  step s e s' ->
  exists dropped,
    unsent (prod s) = sent [e] ++ unsent (prod s') ++ dropped /\
    (expired s' = false -> dropped = []).
Proof.
  intros Hstep.
  destruct Hstep; step_simpl;
    try (exists []; rewrite app_nil_r; split; [|done];
         match goal with H : prod _ = _ |- _ => rewrite H end; cbn;
         rewrite ?unsent_after_send; reflexivity);
    try (exists []; rewrite app_nil_r; split; [reflexivity|done]).
  - exists rest. rewrite H. cbn. split; [done|]. congruence.
  - exists rest. rewrite H. cbn. split; [done|]. congruence.
Qed.

Lemma still_live s e s' : step s e s' -> expired s' = false -> expired s = false.
Proof.
  intros Hstep He. destruct (expired s) eqn:Hs; [|done].
  by rewrite (expired_step _ _ _ Hstep Hs) in He.
Qed.

Lemma exec_unsent s tr s' :
  exec s tr s' ->
  exists dropped,
    unsent (prod s) = sent tr ++ unsent (prod s') ++ dropped /\
    (expired s' = false -> dropped = []).
Proof.
  induction 1 as [s|s e s1 tr s2 Hstep Hex (d2 & IH & Hd2)].
  - exists []. by rewrite app_nil_r.
  - destruct (step_unsent _ _ _ Hstep) as (d1 & H1 & Hd1).
    exists (d2 ++ d1). split.
    + change (e :: tr) with ([e] ++ tr). rewrite sent_app, H1, IH, <- !app_assoc. done.
    + intros He. rewrite (Hd2 He). cbn. apply Hd1.
      clear -Hex He. induction Hex as [|s e s1 tr s2 Hstep _ IH]; [done|].
      eapply still_live; [exact Hstep|]. by apply IH.
Qed.

Lemma queue_step s e s' :
  step s e s' -> (length (queue s) <= capacity)%nat -> (length (queue s') <= capacity)%nat.
Proof.
  intros Hstep Hq. destruct Hstep; step_simpl; try done.
  - rewrite length_app. cbn [length]. lia.
  - rewrite H0 in Hq. cbn [length] in Hq. lia.
Qed.

Lemma queue_exec s tr s' :
  exec s tr s' -> (length (queue s) <= capacity)%nat -> (length (queue s') <= capacity)%nat.
Proof. induction 1; [done|]. intros Hq. eauto using queue_step. Qed.

End ChannelFacts.

(** X10: the channel of [scanEpochRange].  It never holds more than
    [2 * maxConcurrency = 32] slots.  The producer sends the slots in the
    order of its enumeration, with no gap and no repetition: what was sent
    is a prefix of the jobs; before the deadline, what was sent and what is
    still to offer make up the jobs; and a call that returns without error
    has sent them all. *)
Theorem channel_discipline :
  forall jobs tr s,
    Pool.exec (Pool.init jobs) tr s ->
    (length (Pool.queue s) <= 32)%nat /\
    Channel.sent tr `prefix_of` jobs /\
    (Pool.expired s = false -> jobs = Channel.sent tr ++ Pool.unsent (Pool.prod s)) /\
    (forall a b, Pool.prod s = Pool.PDone a b false -> Channel.sent tr = jobs).
Proof.
  intros jobs tr s Hex.
  destruct (exec_unsent _ _ _ Hex) as (dropped & Hsent & Hd). cbn [Pool.init Pool.prod Pool.unsent] in Hsent.
  pose proof (inv_exec jobs _ _ _ (inv_init jobs) Hex) as (_ & _ & Hp & _).
  split; [|split; [|split]].
  - apply (queue_exec _ _ _ Hex). cbn. unfold Pool.capacity, Pool.maxConcurrency. lia.
  - eexists. exact Hsent.
  - intros He. rewrite Hsent, (Hd He). by rewrite app_nil_r.
  - intros a b Hdone. unfold Pool.producer_inv in Hp. rewrite Hdone in Hp.
    destruct Hp as (_ & _ & _ & _ & He). rewrite Hsent, (Hd (eq_sym He)), Hdone. cbn.
    by rewrite app_nil_r.
Qed.

Lemma channel_discipline_witness :
  [31] `prefix_of` Backfill.window_slots 0 0.
Proof.
  destruct race_exec as [s Hex].
  exact (proj1 (proj2 (channel_discipline _ _ _ Hex))).
Defined.

(** ** Backfill as a whole *)

Section BackfillRun.

Import Upstream Backfill Pool.

Lemma getHeadSlot_bound E api lg h : snd (getHeadSlot E api lg) = Some h -> h <= U64.max.
Proof.
  unfold getHeadSlot. cbv zeta. destruct (parses E _); cbn [negb]; [|done].
  destruct (answer E _ _) as [|status b]; [done|].
  destruct (negb _); [done|]. destruct (as_head b) as [slot|]; [|done].
  destruct (String.eqb slot ""); [done|]. apply ParseUint_bound.
Qed.

(** From any reachable state [scanEpochRange] can run to its return. *)
Lemma can_return jobs n :
  forall s, (weight s < n)%nat -> inv jobs s ->
            exists tr s', exec s tr s' /\ returned s'.
Proof.
  induction n as [|n IH]; intros s Hw Hinv; [lia|].
  destruct (prod s) as [r|r| | | |a b e] eqn:Hp;
    try (destruct (progress jobs s Hinv) as (e0 & s1 & Hstep & _);
         [intros (a & b & e & H); congruence|];
         destruct (IH s1) as (tr & s' & Hex & Hret);
         [pose proof (weight_step _ _ _ Hstep); lia | by eapply inv_step |];
         exists (e0 :: tr), s'; split; [by econstructor | done]).
  exists [], s. split; [constructor|]. by exists a, b, e.
Qed.

Lemma length_window_slots startEpoch endEpoch :
  length (window_slots startEpoch endEpoch) =
    (32 * N.to_nat (startEpoch + 1 - endEpoch))%nat.
Proof.
  assert (H : forall l, length (flat_map slots_down l) = (32 * length l)%nat).
  { induction l as [|e l IH]; [done|].
    cbn [flat_map]. rewrite length_app, IH, length_slots_down. cbn [length]. lia. }
  unfold window_slots, epochs_down.
  by rewrite H, length_rev, length_map, length_seq.
Qed.

Lemma window_jobs headSlot :
  headSlot <= U64.max ->
  jobs_of (fst (window headSlot)) (snd (window headSlot)) =
    Some (window_slots (fst (window headSlot)) (snd (window headSlot))) /\
  (length (window_slots (fst (window headSlot)) (snd (window headSlot))) <= 96)%nat /\
  (64 <= headSlot ->
   length (window_slots (fst (window headSlot)) (snd (window headSlot))) = 96%nat).
Proof.
  intros Hh. assert (Hm : headSlot < U64.modulus) by (unfold U64.max, U64.modulus in *; lia).
  pose proof (window_small headSlot Hm) as Hs.
  rewrite length_window_slots, (window_end headSlot Hm).
  change (fst (window headSlot)) with (headSlot / slotsPerEpoch).
  assert (H64 : 64 <= headSlot <-> 2 <= headSlot / slotsPerEpoch).
  { unfold slotsPerEpoch. split; intros H.
    - change 2 with (64 / 32). by apply N.Div0.div_le_mono.
    - pose proof (N.Div0.mul_div_le headSlot 32). lia. }
  revert Hs H64. generalize (headSlot / slotsPerEpoch). intros e Hs H64.
  split; [|split].
  - apply jobs_of_window; [|done]. destruct (N.leb_spec 2 e); lia.
  - destruct (N.leb_spec 2 e); lia.
  - intros H. apply H64 in H. destruct (N.leb_spec 2 e); lia.
Qed.

End BackfillRun.

(** X11: [Backfill] end to end.  It can always run to its return, and it
    asks for the head once at most.  If the head cannot be resolved it
    returns that error and no slot is processed.  Otherwise the head fits
    64 bits, so the enumeration of the window is exact: each slot handed
    to [processSlot] is a slot of the window and none is handed over
    twice; and when [scanEpochRange] returns without error, every slot of
    the window was processed exactly once and the total is their number,
    96 for a head at slot 64 or above. *)
Theorem backfill_end_to_end :
  forall E consensusAPI lg,
    (exists lg' processed r, Entry.Backfill E consensusAPI lg lg' processed r) /\
    (forall lg' processed r,
       Entry.Backfill E consensusAPI lg lg' processed r ->
       (Upstream.requests lg' <= S (Upstream.requests lg))%nat /\
       (r = Entry.HeadError ->
        processed = [] /\ snd (Upstream.getHeadSlot E consensusAPI lg) = None) /\
       (forall a b e,
          r = Entry.Ran a b e ->
          exists headSlot,
            snd (Upstream.getHeadSlot E consensusAPI lg) = Some headSlot /\
            headSlot <= U64.max /\
            map fst processed ⊆+
              Backfill.window_slots (fst (Backfill.window headSlot))
                (snd (Backfill.window headSlot)) /\
            a = N.of_nat (length processed) /\
            (e = false ->
             map fst processed ≡ₚ
               Backfill.window_slots (fst (Backfill.window headSlot))
                 (snd (Backfill.window headSlot)) /\
             (64 <= headSlot -> a = 96)))).
Proof.
  intros E api lg. split.
  - destruct (snd (Upstream.getHeadSlot E api lg)) as [h|] eqn:Hh.
    + destruct (window_jobs h (getHeadSlot_bound _ _ _ _ Hh)) as (Hj & _).
      destruct (can_return _ _ _ (Nat.lt_succ_diag_r _)
                  (inv_init (Backfill.window_slots (fst (Backfill.window h))
                               (snd (Backfill.window h)))))
        as (tr & s & Hex & (a & b & e & Hp)).
      eexists _, _, _. eapply Entry.bf_scan; eauto.
    + eexists _, _, _. by apply Entry.bf_head_error.
  - intros lg' processed r HB.
    split; [destruct HB; apply getHeadSlot_requests|].
    destruct HB as [Hnone|h jobs tr s a b e Hh Hj Hex Hp].
    + split; [done|]. intros a b e [=].
    + split; [intros [=]|]. intros a' b' e' [= <- <- <-].
      pose proof (getHeadSlot_bound _ _ _ _ Hh) as Hb.
      destruct (window_jobs h Hb) as (Hj' & Hlen & H96).
      rewrite Hj' in Hj. injection Hj as <-.
      pose proof (inv_exec _ _ _ _ (inv_init _) Hex) as Hinv.
      destruct (returned_totals _ _ _ _ _ Hinv Hp) as (_ & _ & Ha & _ & Hsub & Hall).
      assert (Hl : (length (Pool.processed s) <= 96)%nat).
      { rewrite <- (length_map fst). etrans; [by apply submseteq_length|done]. }
      assert (Ha' : a = N.of_nat (length (Pool.processed s))).
      { rewrite Ha. apply wrap_small. unfold U64.modulus. lia. }
      exists h. split; [done|]. split; [done|]. split; [done|]. split; [done|].
      intros He. split; [by apply Hall|].
      intros H64. rewrite Ha', <- (length_map fst).
      rewrite (Permutation_length (Hall He)). exact (f_equal N.of_nat (H96 H64)).
Qed.

(** ** The transforms of the validator route *)

Section DynFacts.

Import Dyn.

Lemma size_field (m : gmap string value) k x : m !! k = Some x -> (size x < size (VObject m))%nat.
Proof.
  intros H. cbn [size]. rewrite <- (insert_delete_id m k x H).
  rewrite map_fold_insert_L.
  - lia.
  - intros. lia.
  - apply lookup_delete_eq.
Qed.

Lemma size_item l x : In x l -> (size x < size (VArray l))%nat.
Proof.
  cbn [size]. induction l as [|y l IH]; [done|].
  intros [->|Hin]; simpl; [lia|]. specialize (IH Hin). simpl in IH. lia.
Qed.

(** Induction on the nesting of a value. *)
Lemma value_nested_ind (P : value -> Prop) :
  P VNil -> (forall b, P (VBool b)) -> (forall f, P (VFloat f)) ->
  (forall s, P (VString s)) -> (forall n, P (VUint n)) ->
  (forall l, (forall x, In x l -> P x) -> P (VArray l)) ->
  (forall m, (forall k x, m !! k = Some x -> P x) -> P (VObject m)) ->
  forall v, P v.
Proof.
  intros Hnil Hbool Hfloat Hstr Huint Harr Hobj.
  assert (H : forall n v, (size v < n)%nat -> P v).
  { induction n as [|n IH]; intros v Hv; [lia|].
    destruct v as [|b|f|s|u|l|m]; auto.
    - apply Harr. intros x Hx. apply IH. pose proof (size_item l x Hx). lia.
    - apply Hobj. intros k x Hx. apply IH. pose proof (size_field m k x Hx). lia. }
  intros v. apply (H (S (size v))). lia.
Qed.

Lemma shallow_scalar x y :
  shallow x = y -> (forall l, y <> VArray l) -> (forall m, y <> VObject m) -> x = y.
Proof. destruct x; cbn; intros <- Ha Ho; try done; [by destruct (Ha [])|by destruct (Ho ∅)]. Qed.

Lemma walker_string f s : walker f -> f (VString s) = VString s.
Proof. intros Hf. by apply shallow_scalar; [apply Hf|..]. Qed.

Lemma walker_uint f n : walker f -> f (VUint n) = VUint n.
Proof. intros Hf. by apply shallow_scalar; [apply Hf|..]. Qed.

Lemma walker_string_at f (m : gmap string value) k :
  walker f -> string_at (f <$> m) k = string_at m k.
Proof.
  intros Hf. unfold string_at. rewrite lookup_fmap.
  destruct (m !! k) as [x|]; [|done]. cbn. pose proof (Hf x) as H.
  destruct x, (f _); cbn in H; congruence.
Qed.

Lemma walker_flag_at f (m : gmap string value) k :
  walker f -> flag_at (f <$> m) k = flag_at m k.
Proof.
  intros Hf. unfold flag_at. rewrite lookup_fmap.
  destruct (m !! k) as [x|]; [|done]. cbn. pose proof (Hf x) as H.
  destruct x, (f _); cbn in H; congruence.
Qed.

Lemma walker_mapValidatorStatus : walker mapValidatorStatus.
Proof. intros v. by destruct v. Qed.

Lemma walker_blanked : walker blanked.
Proof. intros v. by destruct v. Qed.

Lemma walker_unstamped : walker unstamped.
Proof. intros v. by destruct v. Qed.

(** *** remap *)

Lemma remap_eq m :
  remap m = match new_status m with
            | Some s => <["status" := VString s]> m
            | None => m
            end.
Proof.
  unfold remap, new_status, string_at, flag_at.
  destruct (m !! "status") as [[| | |status| | |]|]; try done.
  destruct (String.eqb status "active_ongoing"); [done|].
  destruct (String.eqb status "withdrawal_done"); [|done].
  by destruct (m !! "slashed") as [[|[]| | | | |]|].
Qed.

Lemma new_status_fmap f m : walker f -> new_status (f <$> m) = new_status m.
Proof. intros Hf. unfold new_status. by rewrite walker_string_at, walker_flag_at. Qed.

(** The order of the source, remap and then walk, gives the map of the
    model, walk and then remap. *)
Lemma remap_walk f m : walker f -> f <$> remap m = remap (f <$> m).
Proof.
  intros Hf. rewrite !remap_eq, new_status_fmap by done.
  destruct (new_status m); [|done]. by rewrite fmap_insert, walker_string.
Qed.

Lemma new_status_written m s : new_status m = Some s -> rewritten s = false.
Proof.
  unfold new_status. destruct (string_at m "status") as [status|]; [|done].
  destruct (String.eqb status "active_ongoing"); [by intros [= <-]|].
  destruct (String.eqb status "withdrawal_done"); [|done].
  destruct (flag_at m "slashed"); by intros [= <-].
Qed.

Lemma new_status_kept m status :
  string_at m "status" = Some status -> new_status m = None -> rewritten status = false.
Proof.
  unfold new_status, rewritten. intros ->.
  destruct (String.eqb status "active_ongoing"); [done|].
  by destruct (String.eqb status "withdrawal_done").
Qed.

Lemma new_status_clean m status :
  string_at m "status" = Some status -> rewritten status = false -> new_status m = None.
Proof.
  unfold new_status, rewritten. intros ->.
  destruct (String.eqb status "active_ongoing"); [done|].
  by destruct (String.eqb status "withdrawal_done").
Qed.

Lemma string_at_insert (m : gmap string value) k s : string_at (<[k := VString s]> m) k = Some s.
Proof. unfold string_at. by rewrite lookup_insert_eq. Qed.

(** After [remap] the status is none of the two. *)
Lemma remap_clean m status :
  string_at (remap m) "status" = Some status -> rewritten status = false.
Proof.
  rewrite remap_eq. destruct (new_status m) as [s|] eqn:Hn.
  - rewrite string_at_insert. intros [= <-]. by eapply new_status_written.
  - intros H. by eapply new_status_kept.
Qed.

Lemma remap_idem m : remap (remap m) = remap m.
Proof.
  rewrite (remap_eq (remap m)).
  destruct (string_at (remap m) "status") as [status|] eqn:Hs.
  - by rewrite (new_status_clean _ _ Hs (remap_clean _ _ Hs)).
  - unfold new_status. by rewrite Hs.
Qed.

Lemma remap_lookup m k x :
  remap m !! k = Some x -> m !! k = Some x \/ exists s, x = VString s.
Proof.
  rewrite remap_eq. destruct (new_status m) as [s|]; [|by left].
  destruct (decide (k = "status")) as [->|Hne].
  - rewrite lookup_insert_eq. intros [= <-]. right. by eexists.
  - rewrite lookup_insert_ne by done. by left.
Qed.

Lemma fmap_walk_twice (f g h : value -> value) (m : gmap string value) :
  (forall k x, m !! k = Some x -> f (g x) = h x) -> f <$> (g <$> m) = h <$> m.
Proof.
  intros H. rewrite <- map_fmap_compose. apply map_fmap_ext. intros k x Hx. by apply (H k).
Qed.

Lemma map_walk_twice (f g h : value -> value) (l : list value) :
  (forall x, In x l -> f (g x) = h x) -> map f (map g l) = map h l.
Proof. intros H. rewrite map_map. apply map_ext_in. exact H. Qed.

Lemma mapValidatorStatus_twice v :
  mapValidatorStatus (mapValidatorStatus v) = mapValidatorStatus v.
Proof.
  induction v as [| | | | |l IH|m IH] using value_nested_ind; try done.
  - cbn [mapValidatorStatus]. f_equal. by apply map_walk_twice.
  - cbn [mapValidatorStatus]. f_equal.
    rewrite (remap_walk _ _ walker_mapValidatorStatus), (fmap_walk_twice _ _ _ _ IH).
    apply remap_idem.
Qed.

Lemma inside_scalar o v :
  inside (VObject o) v -> (forall l, v <> VArray l) -> (forall m, v <> VObject m) -> False.
Proof. intros H Ha Ho. inversion H; subst; [by eapply Ho|by eapply Ho|by eapply Ha]. Qed.

Lemma mapValidatorStatus_clean v o status :
  inside (VObject o) (mapValidatorStatus v) ->
  string_at o "status" = Some status -> rewritten status = false.
Proof.
  revert o status.
  induction v as [| | | | |l IH|m IH] using value_nested_ind; intros o status Hin Hs;
    try (exfalso; by eapply (inside_scalar _ _ Hin)).
  - cbn [mapValidatorStatus] in Hin. inversion Hin as [|? ? ? ? ?|l' x Hx Hi]; subst.
    apply in_map_iff in Hx as (x0 & <- & Hx0). by eapply IH.
  - cbn [mapValidatorStatus] in Hin. inversion Hin as [|m' k x Hx Hi|]; subst.
    + by eapply remap_clean.
    + apply remap_lookup in Hx as [Hx|[s ->]].
      * apply lookup_fmap_Some in Hx as (x0 & <- & Hx0). by eapply IH.
      * exfalso. by eapply (inside_scalar _ _ Hi).
Qed.

Lemma blank_status_remap m : blank_status (remap m) = blank_status m.
Proof.
  rewrite remap_eq. destruct (new_status m) as [s|] eqn:Hn; [|done].
  unfold blank_status. rewrite lookup_insert_eq, insert_insert_eq.
  unfold new_status, string_at in Hn.
  by destruct (m !! "status") as [[| | |status| | |]|].
Qed.

Lemma mapValidatorStatus_blanked v : blanked (mapValidatorStatus v) = blanked v.
Proof.
  induction v as [| | | | |l IH|m IH] using value_nested_ind; try done.
  - cbn [mapValidatorStatus blanked]. f_equal. by apply map_walk_twice.
  - cbn [mapValidatorStatus blanked]. f_equal.
    rewrite (remap_walk _ _ walker_blanked), (fmap_walk_twice _ _ _ _ IH).
    apply blank_status_remap.
Qed.

(** *** stamp and attachLastAttestSlot *)

Section AttachFacts.

Variable conv : N -> N.
Variable cache : Cache.store.

Lemma walker_attachLastAttestSlot : walker (attachLastAttestSlot conv cache).
Proof. intros v. by destruct v. Qed.

Lemma parse_shallow v :
  parseUint64FromInterface conv (shallow v) = parseUint64FromInterface conv v.
Proof. by destruct v. Qed.

Lemma parse_walker f v :
  walker f -> parseUint64FromInterface conv (f v) = parseUint64FromInterface conv v.
Proof. intros Hf. by rewrite <- parse_shallow, Hf, parse_shallow. Qed.

Lemma index_at_fmap f m : walker f -> index_at conv (f <$> m) = index_at conv m.
Proof.
  intros Hf. unfold index_at. rewrite lookup_fmap.
  destruct (m !! "validatorindex") as [x|]; [|done]. cbn. by rewrite parse_walker.
Qed.

Lemma index_at_insert m k x :
  k <> "validatorindex" -> index_at conv (<[k := x]> m) = index_at conv m.
Proof. intros Hk. unfold index_at. by rewrite lookup_insert_ne. Qed.

Lemma stamp_eq m :
  stamp conv cache m =
    match index_at conv m with
    | Some idx => <["lastattestationslot" := VUint (Cache.Get cache idx)]> m
    | None => m
    end.
Proof.
  unfold stamp, index_at. destruct (m !! "validatorindex") as [val|]; [|done].
  by destruct (parseUint64FromInterface conv val) as [idx []].
Qed.

(** The order of the source, stamp and then walk, gives the map of the
    model, walk and then stamp. *)
Lemma stamp_walk f m : walker f -> f <$> stamp conv cache m = stamp conv cache (f <$> m).
Proof.
  intros Hf. rewrite !stamp_eq, index_at_fmap by done.
  destruct (index_at conv m); [|done]. by rewrite fmap_insert, walker_uint.
Qed.

Lemma stamp_idem m : stamp conv cache (stamp conv cache m) = stamp conv cache m.
Proof.
  rewrite (stamp_eq (stamp conv cache m)), stamp_eq.
  destruct (index_at conv m) as [idx|] eqn:Hi.
  - rewrite index_at_insert, Hi by done. apply insert_insert_eq.
  - by rewrite Hi.
Qed.

Lemma stamp_lookup m k x :
  stamp conv cache m !! k = Some x -> m !! k = Some x \/ exists n, x = VUint n.
Proof.
  rewrite stamp_eq. destruct (index_at conv m) as [idx|]; [|by left].
  destruct (decide (k = "lastattestationslot")) as [->|Hne].
  - rewrite lookup_insert_eq. intros [= <-]. right. by eexists.
  - rewrite lookup_insert_ne by done. by left.
Qed.

(** An object that comes out of [stamp] with an index that parses carries
    the cached slot of that index. *)
Lemma stamp_stamped m val idx :
  stamp conv cache m !! "validatorindex" = Some val ->
  parseUint64FromInterface conv val = (idx, true) ->
  stamp conv cache m !! "lastattestationslot" = Some (VUint (Cache.Get cache idx)).
Proof.
  intros Hv Hp.
  assert (Hm : m !! "validatorindex" = Some val).
  { rewrite stamp_eq in Hv. destruct (index_at conv m); [|done].
    by rewrite lookup_insert_ne in Hv. }
  rewrite stamp_eq. unfold index_at. rewrite Hm, Hp. apply lookup_insert_eq.
Qed.

Lemma attachLastAttestSlot_twice v :
  attachLastAttestSlot conv cache (attachLastAttestSlot conv cache v) =
  attachLastAttestSlot conv cache v.
Proof.
  induction v as [| | | | |l IH|m IH] using value_nested_ind; try done.
  - cbn [attachLastAttestSlot]. f_equal. by apply map_walk_twice.
  - cbn [attachLastAttestSlot]. f_equal.
    rewrite (stamp_walk _ _ walker_attachLastAttestSlot), (fmap_walk_twice _ _ _ _ IH).
    apply stamp_idem.
Qed.

Lemma attachLastAttestSlot_stamped v o val idx :
  inside (VObject o) (attachLastAttestSlot conv cache v) ->
  o !! "validatorindex" = Some val ->
  parseUint64FromInterface conv val = (idx, true) ->
  o !! "lastattestationslot" = Some (VUint (Cache.Get cache idx)).
Proof.
  revert o val idx.
  induction v as [| | | | |l IH|m IH] using value_nested_ind; intros o val idx Hin Hv Hp;
    try (exfalso; by eapply (inside_scalar _ _ Hin)).
  - cbn [attachLastAttestSlot] in Hin. inversion Hin as [|? ? ? ? ?|l' x Hx Hi]; subst.
    apply in_map_iff in Hx as (x0 & <- & Hx0). by eapply IH.
  - cbn [attachLastAttestSlot] in Hin. inversion Hin as [|m' k x Hx Hi|]; subst.
    + by eapply stamp_stamped.
    + apply stamp_lookup in Hx as [Hx|[n ->]].
      * apply lookup_fmap_Some in Hx as (x0 & <- & Hx0). by eapply IH.
      * exfalso. by eapply (inside_scalar _ _ Hi).
Qed.

Lemma delete_stamp m :
  delete "lastattestationslot" (stamp conv cache m) = delete "lastattestationslot" m.
Proof. rewrite stamp_eq. destruct (index_at conv m); [|done]. apply delete_insert_eq. Qed.

Lemma attachLastAttestSlot_unstamped v :
  unstamped (attachLastAttestSlot conv cache v) = unstamped v.
Proof.
  induction v as [| | | | |l IH|m IH] using value_nested_ind; try done.
  - cbn [attachLastAttestSlot unstamped]. f_equal. by apply map_walk_twice.
  - cbn [attachLastAttestSlot unstamped]. f_equal.
    rewrite (stamp_walk _ _ walker_unstamped), (fmap_walk_twice _ _ _ _ IH).
    apply delete_stamp.
Qed.

(** The two blocks write different keys and read none the other writes. *)
Lemma new_status_insert m k x :
  k <> "status" -> k <> "slashed" -> new_status (<[k := x]> m) = new_status m.
Proof.
  intros H1 H2. unfold new_status, string_at, flag_at. by rewrite !lookup_insert_ne.
Qed.

Lemma stamp_remap m : stamp conv cache (remap m) = remap (stamp conv cache m).
Proof.
  rewrite (stamp_eq (remap m)), (remap_eq (stamp conv cache m)), stamp_eq, remap_eq.
  destruct (new_status m) as [s|] eqn:Hs, (index_at conv m) as [idx|] eqn:Hi;
    rewrite ?index_at_insert, ?new_status_insert, ?Hs, ?Hi by done; try done.
  by apply insert_insert_ne.
Qed.

Lemma transforms_commute v :
  attachLastAttestSlot conv cache (mapValidatorStatus v) =
  mapValidatorStatus (attachLastAttestSlot conv cache v).
Proof.
  induction v as [| | | | |l IH|m IH] using value_nested_ind; try done.
  - cbn [attachLastAttestSlot mapValidatorStatus]. f_equal.
    rewrite !map_map. apply map_ext_in. exact IH.
  - cbn [attachLastAttestSlot mapValidatorStatus]. f_equal.
    rewrite (remap_walk _ _ walker_attachLastAttestSlot).
    rewrite (stamp_walk _ _ walker_mapValidatorStatus).
    rewrite stamp_remap. do 2 f_equal.
    rewrite <- !map_fmap_compose. apply map_fmap_ext. intros k x Hx. by apply (IH k).
Qed.

End AttachFacts.

End DynFacts.

(** X12: after [mapValidatorStatus] no object of the body, at any depth,
    has the status [active_ongoing] or [withdrawal_done]. *)
Theorem status_rewrite_complete :
  forall data o status,
    Dyn.inside (Dyn.VObject o) (Dyn.mapValidatorStatus data) ->
    o !! "status" = Some (Dyn.VString status) ->
    status <> "active_ongoing" /\ status <> "withdrawal_done".
Proof.
  intros data o status Hin Hs.
  assert (Hr : Dyn.rewritten status = false).
  { eapply mapValidatorStatus_clean; [exact Hin|]. unfold Dyn.string_at. by rewrite Hs. }
  unfold Dyn.rewritten in Hr. apply orb_false_iff in Hr as [H1 H2].
  split; intros ->; discriminate.
Qed.

Lemma status_rewrite_complete_witness :
  "exited" <> "active_ongoing" /\ "exited" <> "withdrawal_done".
Proof.
  apply (status_rewrite_complete
           (Dyn.VArray [Dyn.VObject (<["status" := Dyn.VString "withdrawal_done"]> ∅)])
           (<["status" := Dyn.VString "exited"]> ∅) "exited").
  - eapply Dyn.inside_item; [left; reflexivity|]. vm_compute. apply Dyn.inside_here.
  - reflexivity.
Defined.

(** X13: [mapValidatorStatus] changes nothing but strings under the key
    [status]: with those blanked, the body before and after are the same
    value; and a second pass changes nothing. *)
Theorem status_rewrite_confined :
  forall data,
    Dyn.blanked (Dyn.mapValidatorStatus data) = Dyn.blanked data /\
    Dyn.mapValidatorStatus (Dyn.mapValidatorStatus data) = Dyn.mapValidatorStatus data.
Proof.
  intros data. split; [apply mapValidatorStatus_blanked | apply mapValidatorStatus_twice].
Qed.

(** X14: after [attachLastAttestSlot] every object of the body, at any
    depth, whose [validatorindex] parses to an index carries under
    [lastattestationslot] what the cache holds for that index (0 for an
    index the cache does not know). *)
Theorem attach_stamps_every_validator :
  forall uint64_of_float cache v o val idx,
    Dyn.inside (Dyn.VObject o) (Dyn.attachLastAttestSlot uint64_of_float cache v) ->
    o !! "validatorindex" = Some val ->
    Dyn.parseUint64FromInterface uint64_of_float val = (idx, true) ->
    o !! "lastattestationslot" = Some (Dyn.VUint (Cache.Get cache idx)).
Proof. intros conv cache v o val idx. apply attachLastAttestSlot_stamped. Qed.

Lemma attach_stamps_every_validator_witness :
  (<["lastattestationslot" := Dyn.VUint 9]>
     (<["validatorindex" := Dyn.VString "42"]> ∅) : gmap string Dyn.value)
    !! "lastattestationslot" = Some (Dyn.VUint (Cache.Get (<[42 := 9]> ∅) 42)).
Proof.
  apply (attach_stamps_every_validator (fun _ => 0) (<[42 := 9]> ∅)
           (Dyn.VObject (<["validatorindex" := Dyn.VString "42"]> ∅))
           (<["lastattestationslot" := Dyn.VUint 9]>
              (<["validatorindex" := Dyn.VString "42"]> ∅))
           (Dyn.VString "42") 42).
  - vm_compute. apply Dyn.inside_here.
  - reflexivity.
  - reflexivity.
Defined.

(** X15: [attachLastAttestSlot] changes nothing but the key
    [lastattestationslot]: with that key taken out of every object, the
    body before and after are the same value; and a second pass over the
    same cache changes nothing. *)
Theorem attach_confined :
  forall uint64_of_float cache v,
    Dyn.unstamped (Dyn.attachLastAttestSlot uint64_of_float cache v) = Dyn.unstamped v /\
    Dyn.attachLastAttestSlot uint64_of_float cache
      (Dyn.attachLastAttestSlot uint64_of_float cache v) =
      Dyn.attachLastAttestSlot uint64_of_float cache v.
Proof.
  intros conv cache v.
  split; [apply attachLastAttestSlot_unstamped | apply attachLastAttestSlot_twice].
Qed.

(** X16: the transform of the validator route.  Its two passes commute;
    a second run over the same cache changes nothing; and in its result
    every object, at any depth, has a status other than the two rewritten
    ones and, if its [validatorindex] parses, the cached slot. *)
Theorem validator_transform_result :
  forall uint64_of_float cache body,
    Dyn.validator_transform uint64_of_float cache body =
      Dyn.mapValidatorStatus (Dyn.attachLastAttestSlot uint64_of_float cache body) /\
    Dyn.validator_transform uint64_of_float cache
      (Dyn.validator_transform uint64_of_float cache body) =
      Dyn.validator_transform uint64_of_float cache body /\
    (forall o,
       Dyn.inside (Dyn.VObject o) (Dyn.validator_transform uint64_of_float cache body) ->
       (forall status,
          o !! "status" = Some (Dyn.VString status) -> Dyn.rewritten status = false) /\
       (forall val idx,
          o !! "validatorindex" = Some val ->
          Dyn.parseUint64FromInterface uint64_of_float val = (idx, true) ->
          o !! "lastattestationslot" = Some (Dyn.VUint (Cache.Get cache idx)))).
Proof.
  intros conv cache body. unfold Dyn.validator_transform.
  split; [apply transforms_commute|]. split.
  - rewrite (transforms_commute conv cache body), mapValidatorStatus_twice.
    rewrite (transforms_commute conv cache (Dyn.attachLastAttestSlot conv cache body)).
    by rewrite attachLastAttestSlot_twice.
  - intros o Hin. split.
    + intros status Hs. rewrite transforms_commute in Hin.
      eapply mapValidatorStatus_clean; [exact Hin|]. unfold Dyn.string_at. by rewrite Hs.
    + intros val idx Hv Hp. by eapply attachLastAttestSlot_stamped.
Qed.

(** ** The slot route *)

Section SlotFacts.

Import Dyn Slot.

Variable conv : N -> N.
Variable parse_float : string -> option N.

Lemma setStringIfEmpty_empty sd key : setStringIfEmpty sd key "" = sd.
Proof. by destruct sd. Qed.

Lemma setUintIfZero_zero sd key : setUintIfZero sd key 0 = sd.
Proof. by destruct sd. Qed.

Lemma as_string_failed (src : gmap string Voter.value) key v :
  Voter.as_string src key = (v, false) -> v = "".
Proof. unfold Voter.as_string. destruct (src !! key) as [[]|]; congruence. Qed.

Lemma copy_string_eq src from to sd :
  copy_string src from to sd = setStringIfEmpty sd to (fst (Voter.as_string src from)).
Proof.
  unfold copy_string. destruct (Voter.as_string src from) as [v []] eqn:Hs; [done|].
  apply as_string_failed in Hs as ->. by rewrite setStringIfEmpty_empty.
Qed.

Lemma parse_failed v n : parseUint64FromInterface conv v = (n, false) -> n = 0.
Proof.
  destruct v as [|b|f|s|u|l|m]; cbn; try congruence.
  destruct (String.eqb s ""); [congruence|]. destruct (Upstream.ParseUint s); congruence.
Qed.

(** The fill of the source is one pass over what the block offers. *)
Lemma fill_eq data body_ sd : fill conv data body_ sd = fill_spec conv data body_ sd.
Proof.
  unfold fill, fill_spec, offered, offered_count, nested.
  rewrite !copy_string_eq. cbn [fold_left fst snd].
  assert (Hsig :
    (let '(sig, ok) := Voter.as_string data "signature" in
     if ok && negb (String.eqb sig "") then setStringIfEmpty sd "signature" sig else sd) =
    setStringIfEmpty sd "signature" (fst (Voter.as_string data "signature"))).
  { destruct (Voter.as_string data "signature") as [sig []] eqn:Hs; cbn [andb fst].
    - destruct (String.eqb_spec sig "") as [->|]; [|done]. by rewrite setStringIfEmpty_empty.
    - apply as_string_failed in Hs as ->. by rewrite setStringIfEmpty_empty. }
  rewrite Hsig. clear Hsig.
  set (sd1 := setStringIfEmpty sd "signature" _).
  destruct (Voter.as_object body_ "eth1_data") as [eth1|];
    destruct (Voter.as_object body_ "sync_aggregate") as [sa|];
    destruct (Voter.as_object body_ "execution_payload") as [exec|];
    rewrite ?copy_string_eq, ?setStringIfEmpty_empty, ?setUintIfZero_zero; try reflexivity;
    (destruct (eth1 !! "deposit_count") as [v|];
     [destruct (parseUint64FromInterface conv (of_json v)) as [n []] eqn:Hp; cbn [fst];
      [reflexivity|apply parse_failed in Hp as ->; by rewrite ?setUintIfZero_zero]
     |by rewrite ?setUintIfZero_zero]).
Qed.

Lemma setStringIfEmpty_spec m key offer :
  exists m1,
    setStringIfEmpty (Some m) key offer = Some m1 /\
    (forall k, k <> key -> m1 !! k = m !! k) /\
    filled m m1 key offer.
Proof.
  unfold setStringIfEmpty, filled, at_key.
  destruct (String.eqb_spec offer "") as [->|Hne].
  { exists m. repeat split; try done. }
  destruct (m !! key) as [x|] eqn:Hx; cbn [default from_option id asString].
  - destruct x as [|b|f|s|u|l|o]; cbn [asString];
      try (eexists; split; [reflexivity|]; split;
           [intros k Hk; by rewrite lookup_insert_ne
           |split; [by intros [?|?] | intros _ _; by rewrite lookup_insert_eq]]).
    destruct (String.eqb_spec s "") as [->|Hs]; cbn [negb].
    + eexists; split; [reflexivity|]; split;
        [intros k Hk; by rewrite lookup_insert_ne
        |split; [by intros [?|?] | intros _ _; by rewrite lookup_insert_eq]].
    + exists m. split; [done|]. split; [done|]. split; [done|]. by intros ?.
  - eexists; split; [reflexivity|]; split;
      [intros k Hk; by rewrite lookup_insert_ne
      |split; [by intros [?|?] | intros _ _; by rewrite lookup_insert_eq]].
Qed.

(** Whether [setUintIfZero] stores the offered count. *)
Lemma setUintIfZero_spec m key n :
  exists m1,
    setUintIfZero (Some m) key n = Some m1 /\
    (forall k, k <> key -> m1 !! k = m !! k) /\
    m1 !! key =
      if (n =? 0) || match m !! key with Some (VFloat f) => float_nonzero f | _ => false end
      then m !! key else Some (VUint n).
Proof.
  unfold setUintIfZero. destruct (N.eqb_spec n 0) as [->|Hn]; cbn [orb].
  { by exists m. }
  destruct (m !! key) as [x|] eqn:Hx.
  - destruct x as [|b|f|s|u|l|o];
      try (eexists; split; [reflexivity|]; split;
           [intros k Hk; by rewrite lookup_insert_ne | by rewrite lookup_insert_eq]).
    destruct (float_nonzero f).
    + exists m. by rewrite Hx.
    + eexists; split; [reflexivity|]; split;
        [intros k Hk; by rewrite lookup_insert_ne | by rewrite lookup_insert_eq].
  - eexists; split; [reflexivity|]; split;
      [intros k Hk; by rewrite lookup_insert_ne | by rewrite lookup_insert_eq].
Qed.

Lemma filled_same_key m1 m2 m' key offer :
  m2 !! key = m1 !! key -> filled m2 m' key offer -> filled m1 m' key offer.
Proof. unfold filled, at_key. intros ->. done. Qed.

Lemma filled_later m m1 m' key offer :
  m' !! key = m1 !! key -> filled m m1 key offer -> filled m m' key offer.
Proof. unfold filled. intros ->. done. Qed.

(** A pass over offers with distinct keys fills each key from its offer
    and touches no other key. *)
Lemma fold_filled (l : list (string * string)) :
  NoDup (l.*1) ->
  forall m,
    exists m',
      fold_left (fun sd ks => setStringIfEmpty sd (fst ks) (snd ks)) l (Some m) = Some m' /\
      (forall k, k ∉ l.*1 -> m' !! k = m !! k) /\
      (forall k s, (k, s) ∈ l -> filled m m' k s).
Proof.
  induction l as [|[k0 s0] l IH]; intros Hnd m.
  - exists m. split; [done|]. split; [done|]. intros k s H. by apply elem_of_nil in H.
  - cbn [fmap list_fmap fst] in Hnd. apply NoDup_cons in Hnd as [Hk0 Hnd].
    destruct (setStringIfEmpty_spec m k0 s0) as (m1 & E1 & Ho1 & Hf1).
    destruct (IH Hnd m1) as (m' & E' & Ho' & Hf').
    exists m'. cbn [fold_left fst snd]. rewrite E1. split; [exact E'|]. split.
    + intros k Hk. cbn [fmap list_fmap fst] in Hk. apply not_elem_of_cons in Hk as [Hne Hk].
      by rewrite (Ho' k Hk), (Ho1 k Hne).
    + intros k s Hks. apply elem_of_cons in Hks as [[= -> ->]|Hks].
      * eapply filled_later; [by apply Ho'|done].
      * assert (Hk : k ∈ l.*1) by (apply list_elem_of_fmap; by exists (k, s)).
        eapply filled_same_key; [|by apply Hf']. apply Ho1. by intros ->.
Qed.

Lemma offered_keys data body_ : (offered data body_).*1 = map fst (offered ∅ ∅).
Proof. reflexivity. Qed.

Lemma offered_keys_NoDup : NoDup ("signature" :: "eth1data_depositcount" :: map fst (offered ∅ ∅)).
Proof. apply (bool_decide_unpack _). vm_compute. exact I. Qed.

(** What the fill does to non-nil slot data. *)
Lemma fill_effect data body_ m :
  exists m',
    fill conv data body_ (Some m) = Some m' /\
    (forall k, k ∉ enriched_keys -> m' !! k = m !! k) /\
    filled m m' "signature" (fst (Voter.as_string data "signature")) /\
    (forall k s, (k, s) ∈ offered data body_ -> filled m m' k s) /\
    m' !! "eth1data_depositcount" =
      if (offered_count conv body_ =? 0) ||
         match m !! "eth1data_depositcount" with
         | Some (VFloat f) => float_nonzero f
         | _ => false
         end
      then m !! "eth1data_depositcount"
      else Some (VUint (offered_count conv body_)).
Proof.
  rewrite fill_eq. unfold fill_spec.
  pose proof offered_keys_NoDup as Hnd.
  apply NoDup_cons in Hnd as [Hsig Hnd]. apply NoDup_cons in Hnd as [Hcount Hnd].
  apply not_elem_of_cons in Hsig as [Hsc Hsig].
  destruct (setStringIfEmpty_spec m "signature" (fst (Voter.as_string data "signature")))
    as (m1 & -> & Ho1 & Hf1).
  destruct (setUintIfZero_spec m1 "eth1data_depositcount" (offered_count conv body_))
    as (m2 & -> & Ho2 & Hc2).
  rewrite <- (offered_keys data body_) in Hnd, Hsig, Hcount.
  destruct (fold_filled (offered data body_) Hnd m2) as (m' & -> & Ho' & Hf').
  exists m'. split; [done|]. split; [|split; [|split]].
  - intros k Hk. unfold enriched_keys in Hk.
    apply not_elem_of_cons in Hk as [Hk1 Hk]. apply not_elem_of_cons in Hk as [Hk2 Hk].
    rewrite <- (offered_keys data body_) in Hk.
    by rewrite (Ho' k Hk), (Ho2 k Hk2), (Ho1 k Hk1).
  - eapply filled_later; [|exact Hf1]. rewrite (Ho' _ Hsig). by apply Ho2.
  - intros k s Hks.
    assert (Hk : k ∈ (offered data body_).*1) by (apply list_elem_of_fmap; by exists (k, s)).
    eapply filled_same_key; [|by apply Hf'].
    rewrite Ho2 by (by intros ->). apply Ho1. by intros ->.
  - rewrite (Ho' _ Hcount), Hc2, (Ho1 "eth1data_depositcount") by done. done.
Qed.

Lemma fill_nil data body_ : fill conv data body_ None = None.
Proof.
  rewrite fill_eq. unfold fill_spec. cbn [setStringIfEmpty setUintIfZero].
  by induction (offered data body_) as [|ks l IH].
Qed.

Lemma enrich_shape E api id lg sd :
  (fst (enrichSlotConsensus conv E api id lg sd) = lg /\
   snd (enrichSlotConsensus conv E api id lg sd) = sd) \/
  (fst (enrichSlotConsensus conv E api id lg sd) =
     lg ++ [Upstream.Request (enrich_url api id)] /\
   (snd (enrichSlotConsensus conv E api id lg sd) = sd \/
    exists b payload data message body_,
      Upstream.answer E (Upstream.requests lg) (enrich_url api id) = Upstream.Response 200 b /\
      Upstream.as_block b = Some payload /\
      Voter.as_object payload "data" = Some data /\
      Voter.as_object data "message" = Some message /\
      Voter.as_object message "body" = Some body_ /\
      snd (enrichSlotConsensus conv E api id lg sd) = fill conv data body_ sd)).
Proof.
  unfold enrichSlotConsensus. cbv zeta.
  destruct (Upstream.parses E _); cbn [negb]; [right|by left].
  destruct (Upstream.answer E _ _) as [|status b]; [by auto|].
  destruct (N.eqb_spec status Upstream.StatusOK) as [->|]; cbn [negb]; [|by auto].
  destruct (Upstream.as_block b) as [payload|] eqn:Hb; [|by auto].
  destruct (Voter.as_object payload "data") as [data|] eqn:Hd; [|by auto].
  destruct (Voter.as_object data "message") as [message|] eqn:Hm; [|by auto].
  destruct (Voter.as_object message "body") as [body_|] eqn:Hy; [|by auto].
  split; [done|]. right. by exists b, payload, data, message, body_.
Qed.

End SlotFacts.

(** X17: [enrichSlotConsensus] on slot data that is not nil.  It makes at
    most one request and the slot data stay a map.  A key outside the
    thirteen it knows is never touched, and a string that is there and not
    empty is never replaced (the deposit count apart, which is no string).
    When the block arrives with [data.message.body], each of the twelve
    string fields that is missing, empty or not a string in the slot data
    and that the block offers (not empty) holds the block's string
    afterwards, and is as before if the block offers nothing. *)
Theorem enrich_fills_missing_strings :
  forall uint64_of_float E consensusAPI id lg m,
    exists m',
      snd (Slot.enrichSlotConsensus uint64_of_float E consensusAPI id lg (Some m)) = Some m' /\
      (Upstream.requests
         (fst (Slot.enrichSlotConsensus uint64_of_float E consensusAPI id lg (Some m))) <=
       S (Upstream.requests lg))%nat /\
      (forall k, k ∉ Slot.enriched_keys -> m' !! k = m !! k) /\
      (forall k s,
         k <> "eth1data_depositcount" -> m !! k = Some (Dyn.VString s) -> s <> "" ->
         m' !! k = Some (Dyn.VString s)) /\
      (forall b payload data message body_,
         Upstream.parses E (Slot.enrich_url consensusAPI id) = true ->
         Upstream.answer E (Upstream.requests lg) (Slot.enrich_url consensusAPI id) =
           Upstream.Response 200 b ->
         Upstream.as_block b = Some payload ->
         Voter.as_object payload "data" = Some data ->
         Voter.as_object data "message" = Some message ->
         Voter.as_object message "body" = Some body_ ->
         forall k s,
           (k, s) ∈ ("signature", fst (Voter.as_string data "signature")) ::
                    Slot.offered data body_ ->
           Slot.filled m m' k s).
Proof.
  intros conv E api id lg m.
  assert (Hkeep : forall data body_ m',
    Slot.fill conv data body_ (Some m) = Some m' ->
    (forall k, k ∉ Slot.enriched_keys -> m' !! k = m !! k) /\
    (forall k s, k <> "eth1data_depositcount" -> m !! k = Some (Dyn.VString s) -> s <> "" ->
                 m' !! k = Some (Dyn.VString s)) /\
    (forall k s,
       (k, s) ∈ ("signature", fst (Voter.as_string data "signature")) ::
                Slot.offered data body_ -> Slot.filled m m' k s)).
  { intros data body_ m' Hfill.
    destruct (fill_effect conv data body_ m) as (m1 & E1 & Hother & Hsig & Hoff & _).
    rewrite E1 in Hfill. injection Hfill as <-.
    assert (Hall : forall k s,
      (k, s) ∈ ("signature", fst (Voter.as_string data "signature")) ::
               Slot.offered data body_ -> Slot.filled m m1 k s).
    { intros k s Hks. apply elem_of_cons in Hks as [[= -> ->]|Hks]; [done|by apply Hoff]. }
    split; [done|]. split; [|done].
    intros k s Hk Hm Hs.
    destruct (decide (k ∈ Slot.enriched_keys)) as [Hin|Hout]; [|by rewrite Hother].
    assert (Hf : exists offer, Slot.filled m m1 k offer).
    { unfold Slot.enriched_keys in Hin.
      apply elem_of_cons in Hin as [->|Hin]; [by eexists|].
      apply elem_of_cons in Hin as [->|Hin]; [done|].
      rewrite <- (offered_keys data body_) in Hin.
      apply list_elem_of_fmap in Hin as ([k' offer] & -> & Hin). exists offer. by apply Hoff. }
    destruct Hf as (offer & Hkeep & _). rewrite Hkeep, Hm; [done|].
    left. unfold Slot.at_key. by rewrite Hm. }
  pose proof (enrich_shape conv E api id lg (Some m)) as Hshape.
  assert (Hreq : (Upstream.requests
                    (fst (Slot.enrichSlotConsensus conv E api id lg (Some m))) <=
                  S (Upstream.requests lg))%nat).
  { destruct Hshape as [[-> _]|[-> _]]; [lia|]. rewrite requests_app. cbn. lia. }
  destruct (snd (Slot.enrichSlotConsensus conv E api id lg (Some m))) as [m'|] eqn:Hres.
  2:{ exfalso. destruct Hshape as [[_ H]|[_ [H|(b & p & d & ms & y & _ & _ & _ & _ & _ & H)]]];
        try congruence.
      destruct (fill_effect conv d y m) as (m1 & E1 & _). congruence. }
  exists m'. split; [done|]. split; [done|].
  assert (Hcases : m' = m \/ exists data body_, Slot.fill conv data body_ (Some m) = Some m').
  { destruct Hshape as [[_ H]|[_ [H|(b & p & d & ms & y & _ & _ & _ & _ & _ & H)]]].
    - left. congruence.
    - left. congruence.
    - right. exists d, y. congruence. }
  split; [|split].
  - destruct Hcases as [->|(d & y & Hf)]; [done|]. by apply (Hkeep d y m' Hf).
  - destruct Hcases as [->|(d & y & Hf)]; [done|]. by apply (Hkeep d y m' Hf).
  - intros b payload data message body_ Hp Ha Hb Hd Hm Hy.
    assert (Hf : Slot.fill conv data body_ (Some m) = Some m').
    { rewrite <- Hres. symmetry.
      unfold Slot.enrichSlotConsensus. cbv zeta. by rewrite Hp, Ha, Hb, Hd, Hm, Hy. }
    by apply (Hkeep data body_ m' Hf).
Qed.

(** X18: the deposit count of the slot response.  [setUintIfZero] stores
    the count of the consensus node as a [uint64], and [asUint] reads a
    [float64] or a string and nothing else: the response shows what the
    upstream data held, or 0, and it shows 0 whenever the count of the
    consensus node was stored. *)
Theorem deposit_count_not_reported :
  forall uint64_of_float ParseFloat E consensusAPI id lg m,
    (Slot.Eth1dataDepositCount
       (Slot.Beacon (snd (Slot.slot_response uint64_of_float ParseFloat E consensusAPI id lg m))) =
       Slot.asUint uint64_of_float (Slot.at_key m "eth1data_depositcount") \/
     Slot.Eth1dataDepositCount
       (Slot.Beacon (snd (Slot.slot_response uint64_of_float ParseFloat E consensusAPI id lg m))) =
       0) /\
    (forall b payload data message body_,
       Upstream.parses E (Slot.enrich_url consensusAPI id) = true ->
       Upstream.answer E (Upstream.requests lg) (Slot.enrich_url consensusAPI id) =
         Upstream.Response 200 b ->
       Upstream.as_block b = Some payload ->
       Voter.as_object payload "data" = Some data ->
       Voter.as_object data "message" = Some message ->
       Voter.as_object message "body" = Some body_ ->
       Slot.offered_count uint64_of_float body_ <> 0 ->
       (forall f, m !! "eth1data_depositcount" = Some (Dyn.VFloat f) ->
                  Slot.float_nonzero f = false) ->
       (exists m',
          snd (Slot.enrichSlotConsensus uint64_of_float E consensusAPI id lg (Some m)) =
            Some m' /\
          m' !! "eth1data_depositcount" =
            Some (Dyn.VUint (Slot.offered_count uint64_of_float body_))) /\
       Slot.Eth1dataDepositCount
         (Slot.Beacon
            (snd (Slot.slot_response uint64_of_float ParseFloat E consensusAPI id lg m))) = 0).
Proof.
  intros conv pf E api bid lg m.
  assert (Hr : Slot.Eth1dataDepositCount
                 (Slot.Beacon (snd (Slot.slot_response conv pf E api bid lg m))) =
               Slot.asUint conv
                 (Slot.at_key
                    (default ∅ (snd (Slot.enrichSlotConsensus conv E api bid lg (Some m))))
                    "eth1data_depositcount")).
  { unfold Slot.slot_response. by destruct (Slot.enrichSlotConsensus _ _ _ _ _ _). }
  rewrite Hr. clear Hr. split.
  - destruct (enrich_shape conv E api bid lg (Some m))
      as [[_ ->]|[_ [->|(b & p & d & ms & y & _ & _ & _ & _ & _ & ->)]]];
      [by left|by left|].
    destruct (fill_effect conv d y m) as (m' & -> & _ & _ & _ & Hc).
    cbn [default from_option id]. unfold Slot.at_key at 1 3. rewrite Hc.
    destruct (_ || _); [by left|by right].
  - intros b payload data message body_ Hp Ha Hb Hd Hm Hy Hn Hf.
    assert (Hfill : snd (Slot.enrichSlotConsensus conv E api bid lg (Some m)) =
                    Slot.fill conv data body_ (Some m)).
    { unfold Slot.enrichSlotConsensus. cbv zeta. by rewrite Hp, Ha, Hb, Hd, Hm, Hy. }
    rewrite Hfill.
    destruct (fill_effect conv data body_ m) as (m' & -> & _ & _ & _ & Hc).
    assert (Hc' : m' !! "eth1data_depositcount" =
                  Some (Dyn.VUint (Slot.offered_count conv body_))).
    { rewrite Hc. destruct (N.eqb_spec (Slot.offered_count conv body_) 0); [done|].
      cbn [orb]. destruct (m !! "eth1data_depositcount") as [[|?|f|?|?|?|?]|]; try done.
      by rewrite (Hf f eq_refl). }
    split; [by exists m'|].
    cbn [default from_option id]. unfold Slot.at_key. by rewrite Hc'.
Qed.

(** The slot data hold no deposit count, the block offers 123: the count
    is stored and the response shows 0. *)
Example deposit_count_example :
  let body_ : gmap string Voter.value :=
    <["eth1_data" := Voter.VObject (<["deposit_count" := Voter.VString "123"]> ∅)]> ∅ in
  let block : gmap string Voter.value :=
    <["data" := Voter.VObject
       (<["message" := Voter.VObject (<["body" := Voter.VObject body_]> ∅)]> ∅)]> ∅ in
  let node :=
    {| Upstream.parses := fun _ => true;
       Upstream.answer := fun _ _ =>
         Upstream.Response 200
           {| Upstream.as_block := Some block; Upstream.as_committees := None;
              Upstream.as_head := None |};
       Upstream.outlives := fun _ => true |} in
  snd (Slot.enrichSlotConsensus (fun _ => 0) node "http://node" "7" [] (Some ∅)) =
    Some (<["eth1data_depositcount" := Dyn.VUint 123]> ∅) /\
  Slot.Eth1dataDepositCount
    (Slot.Beacon (snd (Slot.slot_response (fun _ => 0) (fun _ => None) node "http://node" "7"
                         [] ∅))) = 0.
Proof. split; vm_compute; reflexivity. Qed.

(** X19: [buildSlotResponseFromMap] reads the thirty-eight keys of its
    JSON tags and nothing else: whatever the upstream data hold under
    another key does not reach the response. *)
Theorem response_reads_only_tags :
  forall uint64_of_float ParseFloat m k v,
    k ∉ Slot.tags ->
    Slot.buildSlotResponseFromMap uint64_of_float ParseFloat (<[k := v]> m) =
      Slot.buildSlotResponseFromMap uint64_of_float ParseFloat m /\
    Slot.buildSlotResponseFromMap uint64_of_float ParseFloat (delete k m) =
      Slot.buildSlotResponseFromMap uint64_of_float ParseFloat m.
Proof.
  intros conv pf m k v Hk.
  assert (Hi : forall t, bool_decide (t ∈ Slot.tags) = true ->
                         Slot.at_key (<[k := v]> m) t = Slot.at_key m t).
  { intros t Ht. apply bool_decide_eq_true in Ht. unfold Slot.at_key.
    rewrite lookup_insert_ne; [done|]. by intros ->. }
  assert (Hd : forall t, bool_decide (t ∈ Slot.tags) = true ->
                         Slot.at_key (delete k m) t = Slot.at_key m t).
  { intros t Ht. apply bool_decide_eq_true in Ht. unfold Slot.at_key.
    rewrite lookup_delete_ne; [done|]. by intros ->. }
  unfold Slot.buildSlotResponseFromMap.
  split; [rewrite !Hi by (vm_compute; reflexivity) | rewrite !Hd by (vm_compute; reflexivity)];
    reflexivity.
Qed.

Lemma response_reads_only_tags_witness :
  Slot.buildSlotResponseFromMap (fun _ => 0) (fun _ => None)
    (<["proposer_name" := Dyn.VString "x"]> (<["slot" := Dyn.VString "7"]> ∅)) =
  Slot.buildSlotResponseFromMap (fun _ => 0) (fun _ => None) (<["slot" := Dyn.VString "7"]> ∅).
Proof.
  apply (response_reads_only_tags (fun _ => 0) (fun _ => None)
           (<["slot" := Dyn.VString "7"]> ∅) "proposer_name" (Dyn.VString "x")).
  apply (bool_decide_unpack _). vm_compute. exact I.
Defined.

(** ** The head root *)

Section HeadRootFacts.

Import Upstream HeadRoot.

Variable as_header : body -> option string.


End HeadRootFacts.


(** ** The configuration *)

Section ConfigFacts.

Import Config.

Lemma append_cons a s t : String.append (String a s) t = String a (String.append s t).
Proof. reflexivity. Qed.

Lemma append_length s t :
  String.length (String.append s t) = (String.length s + String.length t)%nat.
Proof. induction s as [|a s IH]; [done|]. rewrite append_cons. cbn [String.length]. by rewrite IH. Qed.

Lemma append_assoc s t u :
  String.append (String.append s t) u = String.append s (String.append t u).
Proof. induction s as [|a s IH]; [done|]. rewrite !append_cons. by rewrite IH. Qed.

Lemma from_append s t n : Hex.from (String.length s + n) (String.append s t) = Hex.from n t.
Proof. induction s as [|a s IH]; [done|]. rewrite append_cons. exact IH. Qed.

Lemma HasSuffix_append s suffix : HasSuffix (String.append s suffix) suffix = true.
Proof.
  unfold HasSuffix. rewrite append_length.
  replace (String.length s + String.length suffix - String.length suffix)%nat
    with (String.length s + 0)%nat by lia.
  rewrite from_append. apply andb_true_iff. split.
  - apply Nat.leb_le. lia.
  - destruct suffix; apply String.eqb_refl.
Qed.

(** A suffix is looked for in the last bytes only. *)
Lemma HasSuffix_tail s t suffix :
  (String.length suffix <= String.length t)%nat ->
  HasSuffix (String.append s t) suffix = HasSuffix t suffix.
Proof.
  intros Hl. unfold HasSuffix. rewrite append_length.
  replace (String.length s + String.length t - String.length suffix)%nat
    with (String.length s + (String.length t - String.length suffix))%nat by lia.
  rewrite from_append. f_equal.
  apply eq_true_iff_eq. rewrite !Nat.leb_le. lia.
Qed.

Lemma append_empty s t : String.append s t = "" -> t = "".
Proof. destruct s; [done|]. rewrite append_cons. discriminate. Qed.

Lemma TrimRight_append s t c :
  Upstream.TrimRight t c <> "" ->
  Upstream.TrimRight (String.append s t) c = String.append s (Upstream.TrimRight t c).
Proof.
  intros Ht. induction s as [|a s IH]; [done|].
  rewrite !append_cons. cbn [Upstream.TrimRight]. rewrite IH.
  destruct (String.append s (Upstream.TrimRight t c)) eqn:Hs; [|done].
  by apply append_empty in Hs.
Qed.

Lemma getEnv_nonempty g key def : def <> "" -> getEnv g key def <> "".
Proof. intros Hd. unfold getEnv. by destruct (String.eqb_spec (g key) ""). Qed.

End ConfigFacts.

(** X21: [loadConfig].  The upstream base URL it returns always ends in
    [/api]; one that ends in [/api] already is taken as it is, so the
    normalisation changes nothing when it is applied to its own result;
    and no field is empty, a variable that is not set or empty giving its
    default. *)
Theorem loadConfig_upstream :
  forall Getenv,
    Config.HasSuffix (Config.UpstreamBaseURL (Config.loadConfig Getenv)) "/api" = true /\
    (Config.HasSuffix (Config.getEnv Getenv "PROXY_UPSTREAM_BASE_URL" "http://localhost:8080")
       "/api" = true ->
     Config.UpstreamBaseURL (Config.loadConfig Getenv) =
       Config.getEnv Getenv "PROXY_UPSTREAM_BASE_URL" "http://localhost:8080") /\
    Config.UpstreamBaseURL
      (Config.loadConfig
         (Config.setenv "PROXY_UPSTREAM_BASE_URL"
            (Config.UpstreamBaseURL (Config.loadConfig Getenv)) Getenv)) =
      Config.UpstreamBaseURL (Config.loadConfig Getenv) /\
    Config.ListenAddr (Config.loadConfig Getenv) <> "" /\
    Config.UpstreamBaseURL (Config.loadConfig Getenv) <> "" /\
    Config.ConsensusAPIURL (Config.loadConfig Getenv) <> "" /\
    ((forall key, Getenv key = "") ->
     Config.loadConfig Getenv =
       {| Config.ListenAddr := ":8081";
          Config.UpstreamBaseURL := "http://localhost:8080/api";
          Config.ConsensusAPIURL := "http://localhost:5052" |}).
Proof.
  intros g.
  assert (Hs : Config.HasSuffix (Config.UpstreamBaseURL (Config.loadConfig g)) "/api" = true).
  { unfold Config.loadConfig. cbv zeta. cbn [Config.UpstreamBaseURL].
    destruct (Config.HasSuffix (Config.getEnv g _ _) "/api") eqn:H; cbn [negb Config.UpstreamBaseURL];
      [done|apply HasSuffix_append]. }
  assert (Hne : forall s, Config.HasSuffix s "/api" = true -> s <> "").
  { intros s H ->. discriminate H. }
  split; [done|]. split; [|split; [|split; [|split; [|split]]]].
  - intros H. unfold Config.loadConfig. cbv zeta. cbn [Config.UpstreamBaseURL].
    by rewrite H.
  - set (u := Config.UpstreamBaseURL (Config.loadConfig g)) in *.
    unfold Config.loadConfig at 1. cbv zeta. cbn [Config.UpstreamBaseURL].
    assert (Hg : Config.getEnv (Config.setenv "PROXY_UPSTREAM_BASE_URL" u g)
                   "PROXY_UPSTREAM_BASE_URL" "http://localhost:8080" = u).
    { unfold Config.getEnv, Config.setenv. cbn [String.eqb Ascii.eqb Bool.eqb].
      destruct (String.eqb_spec u ""); [by destruct (Hne u Hs)|done]. }
    by rewrite Hg, Hs.
  - unfold Config.loadConfig. cbv zeta.
    destruct (negb _); cbn [Config.ListenAddr]; by apply getEnv_nonempty.
  - by apply Hne.
  - unfold Config.loadConfig. cbv zeta.
    destruct (negb _); cbn [Config.ConsensusAPIURL]; by apply getEnv_nonempty.
  - intros Hunset. unfold Config.loadConfig, Config.getEnv. rewrite !Hunset. reflexivity.
Qed.

(** X22: an upstream base URL that is given with a slash after [/api]
    gets a second [/api]: the suffix test sees the slash, and the slash is
    trimmed only afterwards. *)
Theorem loadConfig_trailing_slash :
  forall Getenv base,
    Getenv "PROXY_UPSTREAM_BASE_URL" = String.append base "/api/" ->
    Config.UpstreamBaseURL (Config.loadConfig Getenv) = String.append base "/api/api".
Proof.
  intros g base Hg. unfold Config.loadConfig, Config.getEnv. cbv zeta.
  cbn [Config.UpstreamBaseURL]. rewrite Hg.
  assert (Hne : String.eqb (String.append base "/api/") "" = false).
  { apply String.eqb_neq. intros H. by apply append_empty in H. }
  rewrite Hne. cbn [negb].
  rewrite (HasSuffix_tail base "/api/" "/api") by (cbn; lia).
  change (Config.HasSuffix "/api/" "/api") with false. cbn [negb Config.UpstreamBaseURL].
  rewrite TrimRight_append by (vm_compute; discriminate).
  change (Upstream.TrimRight "/api/" "/") with "/api".
  by rewrite append_assoc.
Qed.

Lemma loadConfig_trailing_slash_witness :
  Config.UpstreamBaseURL
    (Config.loadConfig (Config.setenv "PROXY_UPSTREAM_BASE_URL" "http://dora/api/" (fun _ => ""))) =
  String.append "http://dora" "/api/api".
Proof. apply loadConfig_trailing_slash. reflexivity. Defined.

(** ** processSlot: the cache and the count after a block *)

Section MarksFacts.

Import Voter Upstream Block Marks.













End MarksFacts.



(** ** The headers of the upstream request *)

Section HeaderFacts.

Import Headers.

Variable canon : string -> string.

Lemma add_all (dst : Header) k vv :
  canon k = k ->
  fold_left (fun d v => Add canon d k v) vv dst =
    match vv with
    | [] => dst
    | _ :: _ => <[k := default [] (dst !! k) ++ vv]> dst
    end.
Proof.
  intros Hk. revert dst. induction vv as [|v vv IH]; intros dst; [done|].
  cbn [fold_left]. rewrite IH. unfold Add. rewrite Hk.
  destruct vv as [|v' vv]; [done|].
  rewrite lookup_insert_eq, insert_insert_eq. cbn [default from_option id].
  by rewrite <- app_assoc.
Qed.

Lemma copyHeaders_cons (dst : Header) k vv l :
  copyHeaders canon dst ((k, vv) :: l) =
    copyHeaders canon
      (if shouldSkipHeader k then dst else fold_left (fun d v => Add canon d k v) vv dst) l.
Proof. reflexivity. Qed.

(** What the copy leaves under a key, for entries with distinct canonical
    names. *)
Lemma copyHeaders_lookup (l : list (string * list string)) :
  NoDup (l.*1) -> (forall k, k ∈ l.*1 -> canon k = k) ->
  forall (dst : Header) key,
    (key ∉ l.*1 -> copyHeaders canon dst l !! key = dst !! key) /\
    (forall vv, (key, vv) ∈ l ->
       copyHeaders canon dst l !! key =
         if decide (forwarded (key, vv)) then Some (default [] (dst !! key) ++ vv)
         else dst !! key).
Proof.
  induction l as [|[k vv] l IH]; intros Hnd Hc dst key.
  { split; [done|]. intros vv H. by apply elem_of_nil in H. }
  cbn [fmap list_fmap fst] in Hnd, Hc. apply NoDup_cons in Hnd as [Hk Hnd].
  assert (Hc' : forall k0, k0 ∈ l.*1 -> canon k0 = k0).
  { intros k0 H0. apply Hc. by apply list_elem_of_further. }
  specialize (IH Hnd Hc').
  rewrite copyHeaders_cons, add_all by (apply Hc; apply list_elem_of_here).
  set (dst1 := if shouldSkipHeader k then dst
               else match vv with
                    | [] => dst
                    | _ :: _ => <[k := default [] (dst !! k) ++ vv]> dst
                    end).
  assert (Hother : forall key0, key0 <> k -> dst1 !! key0 = dst !! key0).
  { intros key0 Hne. subst dst1. destruct (shouldSkipHeader k); [done|].
    destruct vv; [done|]. by rewrite lookup_insert_ne. }
  split.
  - intros Hkey. cbn [fmap list_fmap fst] in Hkey. apply not_elem_of_cons in Hkey as [Hne Hkey].
    rewrite (proj1 (IH dst1 key) Hkey). by apply Hother.
  - intros vv0 Hin. apply elem_of_cons in Hin as [[= -> ->]|Hin].
    + rewrite (proj1 (IH dst1 k) Hk). subst dst1.
      destruct (decide (forwarded (k, vv))) as [[Hs Hv]|Hn]; cbn [fst snd] in *.
      * rewrite Hs. destruct vv as [|v vv]; [done|]. by rewrite lookup_insert_eq.
      * destruct (shouldSkipHeader k) eqn:Hs; [done|]. destruct vv as [|v vv]; [done|].
        exfalso. apply Hn. by split.
    + assert (Hne : key <> k).
      { intros ->. apply Hk. apply list_elem_of_fmap. by exists (k, vv0). }
      rewrite (proj2 (IH dst1 key) vv0 Hin), (Hother key Hne). done.
Qed.

End HeaderFacts.

(** X24: [copyHeaders] into an empty header, for a request whose header
    names are canonical.  In whatever order the [range] visits the
    entries, the copy holds exactly the entries that are not hop-by-hop
    and have a value, each with its values as they were; so none of the
    ten hop-by-hop names reaches upstream, in any letter case.  The
    upstream request then carries [Accept: application/json], whatever the
    client asked for. *)
Theorem headers_forwarded :
  forall canon (src : Headers.Header) order,
    order ≡ₚ map_to_list src ->
    (forall k, is_Some (src !! k) -> canon k = k) ->
    Headers.copyHeaders canon ∅ order = filter Headers.forwarded src /\
    (forall k vv,
       Headers.copyHeaders canon ∅ order !! k = Some vv ->
       src !! k = Some vv /\ Hex.ToLower k ∉ Headers.hop_by_hop) /\
    (canon "Accept" = "Accept" ->
     Headers.upstream_headers canon order !! "Accept" = Some ["application/json"] /\
     forall k, k <> "Accept" ->
       Headers.upstream_headers canon order !! k = filter Headers.forwarded src !! k).
Proof.
  intros canon src order Hperm Hcanon.
  assert (Hnd : NoDup (order.*1)).
  { rewrite Hperm. apply NoDup_fst_map_to_list. }
  assert (Hc : forall k, k ∈ order.*1 -> canon k = k).
  { intros k Hk. apply list_elem_of_fmap in Hk as ([k' vv] & -> & Hin).
    rewrite Hperm in Hin. apply elem_of_map_to_list in Hin. apply Hcanon. by eexists. }
  assert (Heq : Headers.copyHeaders canon ∅ order = filter Headers.forwarded src).
  { apply map_eq. intros key. rewrite map_lookup_filter.
    destruct (copyHeaders_lookup canon order Hnd Hc ∅ key) as [Hout Hin].
    destruct (src !! key) as [vv|] eqn:Hs; cbn.
    - rewrite (Hin vv) by (rewrite Hperm; by apply elem_of_map_to_list).
      rewrite lookup_empty. cbn.
      destruct (decide (Headers.forwarded (key, vv))) as [Hf|Hf];
        [rewrite option_guard_True by done | rewrite option_guard_False by done]; done.
    - rewrite Hout, lookup_empty; [done|].
      intros Hk. apply list_elem_of_fmap in Hk as ([k' vv] & Hk & Hin'). cbn in Hk. subst k'.
      rewrite Hperm in Hin'. apply elem_of_map_to_list in Hin'. congruence. }
  split; [exact Heq|]. split.
  - intros k vv. rewrite Heq. intros H.
    apply map_lookup_filter_Some in H as [Hs [Hskip _]]. split; [done|].
    cbn [fst] in Hskip. unfold Headers.shouldSkipHeader in Hskip.
    intros Hin. apply not_true_iff_false in Hskip. apply Hskip.
    apply existsb_exists. exists (Hex.ToLower k).
    split; [by apply list_elem_of_In|apply String.eqb_refl].
  - intros Ha. unfold Headers.upstream_headers, Headers.Set_. rewrite Ha, Heq.
    split; [apply lookup_insert_eq|]. intros k Hk. by rewrite lookup_insert_ne.
Qed.

Lemma headers_forwarded_witness :
  Headers.copyHeaders (fun k => k) ∅
    (map_to_list (<["Connection" := ["close"]]> (<["X-Id" := ["7"]]> ∅) : Headers.Header)) =
  filter Headers.forwarded (<["Connection" := ["close"]]> (<["X-Id" := ["7"]]> ∅) : Headers.Header).
Proof.
  apply (headers_forwarded (fun k => k)
           (<["Connection" := ["close"]]> (<["X-Id" := ["7"]]> ∅))
           (map_to_list (<["Connection" := ["close"]]> (<["X-Id" := ["7"]]> ∅) : Headers.Header))).
  - reflexivity.
  - intros k _. reflexivity.
Defined.

(** ** The scanner over successive ticks *)

Section TicksOrder.

Import Upstream Scanner.

(** What a tick with the cursor above 0 hands to [processSlot]: a run of
    slots from the cursor's successor, ending at or below the new cursor. *)
Lemma tick_run E api live t t' rep visited :
  below_max E api ->
  lastScannedSlot t <> 0 -> lastScannedSlot t < U64.max ->
  tick E api live t = Some (t', rep, visited) ->
  exists k,
    visited = map (fun i => lastScannedSlot t + 1 + N.of_nat i) (seq 0 k) /\
    lastScannedSlot t + N.of_nat k <= lastScannedSlot t'.
Proof.
  intros Hb H0 Hc. unfold tick.
  pose proof (Hb (log (world_ t))) as Hhead.
  destruct (getHeadSlot _ _ _) as [lg [h|]]; cbn [snd] in Hhead.
  2:{ intros [= <- _ <-]. exists 0%nat. cbn. split; [done|lia]. }
  specialize (Hhead h eq_refl). cbv zeta.
  destruct (N.eqb_spec (lastScannedSlot t) 0); [done|].
  rewrite add_exact by (unfold U64.max in Hc; lia).
  destruct (N.ltb_spec h (lastScannedSlot t + 1)).
  { intros [= <- _ <-]. exists 0%nat. cbn. split; [done|lia]. }
  destruct (slotsLoop_prefix E api h (N.to_nat (h - lastScannedSlot t)) live
              (lastScannedSlot t + 1) {| log := lg; cache := cache (world_ t) |} 0 0 [])
    as (w' & up & ->); [lia|done|unfold U64.max in Hhead; lia|].
  intros [= <- _ <-]. cbn [lastScannedSlot app].
  eexists. split; [reflexivity|]. lia.
Qed.

Lemma sorted_app (l1 l2 : list N) :
  Sorted.StronglySorted N.lt l1 -> Sorted.StronglySorted N.lt l2 ->
  (forall x y, In x l1 -> In y l2 -> x < y) ->
  Sorted.StronglySorted N.lt (l1 ++ l2).
Proof.
  intros H1 H2 H. induction H1 as [|a l1 H1 IH Ha]; [done|].
  cbn [app]. constructor.
  - apply IH. intros x y Hx Hy. apply H; [by right|done].
  - apply Forall_app. split; [done|].
    apply Forall_forall. intros y Hy. apply list_elem_of_In in Hy. apply H; [by left|done].
Qed.

Lemma run_sorted c k :
  Sorted.StronglySorted N.lt (map (fun i => c + 1 + N.of_nat i) (seq 0 k)) /\
  Forall (fun v => c < v <= c + N.of_nat k)
         (map (fun i => c + 1 + N.of_nat i) (seq 0 k)).
Proof.
  induction k as [|k [IHs IHf]].
  - split; constructor.
  - rewrite seq_S, map_app. cbn [map Nat.add]. split.
    + apply sorted_app; [done|repeat constructor|].
      intros x y Hx Hy. rewrite Forall_forall in IHf.
      apply list_elem_of_In in Hx. specialize (IHf x Hx).
      cbn in Hy. destruct Hy as [<-|[]]. lia.
    + apply Forall_app. split.
      * eapply Forall_impl; [exact IHf|]. cbn. intros x Hx. lia.
      * repeat constructor; lia.
Qed.

(** Over successive ticks the runs follow one another. *)
Lemma ticks_sorted E api lives :
  forall t t' vs,
    below_max E api ->
    lastScannedSlot t <> 0 -> lastScannedSlot t < U64.max ->
    ticks E api lives t = Some (t', vs) ->
    Sorted.StronglySorted N.lt (concat vs) /\
    Forall (fun v => lastScannedSlot t < v <= lastScannedSlot t') (concat vs) /\
    lastScannedSlot t <= lastScannedSlot t' /\
    length vs = length lives.
Proof.
  induction lives as [|live lives IH]; intros t t' vs Hb H0 Hc; cbn [ticks].
  - intros [= <- <-]. cbn. repeat split; [constructor|constructor|lia].
  - destruct (tick E api live t) as [[[t1 rep] visited1]|] eqn:Ht; [|done].
    destruct (ticks E api lives t1) as [[t2 vs2]|] eqn:Hts; [|done].
    intros [= <- <-].
    destruct (tick_above _ _ _ _ _ _ _ Hb H0 Hc Ht) as (Hle & Hlt & _).
    destruct (tick_run _ _ _ _ _ _ _ Hb H0 Hc Ht) as (k & -> & Hk).
    destruct (run_sorted (lastScannedSlot t) k) as [Hs Hf].
    destruct (IH t1 t2 vs2 Hb) as (Hs2 & Hf2 & Hle2 & Hlen); [lia|done|done|].
    cbn [concat length]. rewrite Forall_forall in Hf, Hf2.
    split; [|split; [|split; [lia|by rewrite Hlen]]].
    + apply sorted_app; [done|done|].
      intros x y Hx Hy. apply list_elem_of_In in Hx, Hy.
      specialize (Hf x Hx). specialize (Hf2 y Hy). lia.
    + apply Forall_app. split; apply Forall_forall; intros x Hx.
      * specialize (Hf x Hx). lia.
      * specialize (Hf2 x Hx). lia.
Qed.

End TicksOrder.

(** X25: the scanner over any number of ticks, from a cursor that is not
    0 and against a node that never reports slot 2^64-1.  The slots handed
    to [processSlot], taken over all the ticks in order, are strictly
    ascending: no slot is processed twice, whatever the heads the node
    reports and wherever the deadlines fall; and all of them lie above the
    cursor at the start and at or below the cursor at the end. *)
Theorem scanner_never_revisits :
  forall E consensusAPI lives t t' vs,
    Scanner.below_max E consensusAPI ->
    Scanner.lastScannedSlot t <> 0 ->
    Scanner.lastScannedSlot t < U64.max ->
    Scanner.ticks E consensusAPI lives t = Some (t', vs) ->
    Sorted.StronglySorted N.lt (concat vs) /\
    NoDup (concat vs) /\
    Forall (fun v => Scanner.lastScannedSlot t < v <= Scanner.lastScannedSlot t') (concat vs).
Proof.
  intros E api lives t t' vs Hb H0 Hc Hts.
  destruct (ticks_sorted E api lives t t' vs Hb H0 Hc Hts) as (Hs & Hf & _).
  split; [done|]. split; [|done].
  clear -Hs. induction Hs as [|a l Hs IH Ha]; [constructor|].
  apply NoDup_cons. split; [|done].
  intros Hin. rewrite Forall_forall in Ha. specialize (Ha a Hin). lia.
Qed.

Lemma scanner_never_revisits_witness :
  exists t' vs,
    Scanner.ticks (Scanner.node_at "5") "http://node" [1%nat; 1%nat]
      {| Scanner.lastScannedSlot := 3; Scanner.world_ := Scanner.world_ Scanner.fresh |} =
      Some (t', vs) /\
    NoDup (concat vs).
Proof.
  destruct (Scanner.ticks (Scanner.node_at "5") "http://node" [1%nat; 1%nat]
      {| Scanner.lastScannedSlot := 3; Scanner.world_ := Scanner.world_ Scanner.fresh |})
    as [[t' vs]|] eqn:Hts; [|vm_compute in Hts; discriminate Hts].
  exists t', vs. split; [reflexivity|].
  refine (proj1 (proj2 (scanner_never_revisits (Scanner.node_at "5") "http://node"
                          [1%nat; 1%nat] _ t' vs node_at_5_below_max _ _ Hts))).
  - discriminate.
  - reflexivity.
Defined.

(** ** The slot response, field by field *)

Section ResponseFacts.

Import Dyn Slot Tags.

Lemma filled_asString m m' k offer :
  filled m m' k offer ->
  asString (at_key m' k) = preferred (asString (at_key m k)) offer.
Proof.
  intros [Hkeep Hfill]. unfold preferred.
  destruct (String.eqb_spec (asString (at_key m k)) "") as [He|Hne].
  - destruct (String.eqb_spec offer "") as [->|Ho].
    + unfold at_key in *. by rewrite Hkeep by auto.
    + unfold at_key at 1. by rewrite (Hfill He Ho).
  - unfold at_key in *. by rewrite Hkeep by auto.
Qed.

End ResponseFacts.

(** X26: the string fields the slot route adds.  When the block of the
    consensus node arrives with [data.message.body], each of the eleven
    string fields of [BeaconMissingFields] in the response is the string
    of the upstream data if that is not empty, and else the string of the
    block ([data.signature], [eth1_data], [sync_aggregate],
    [randao_reveal], [execution_payload]); when the enrichment makes no
    request or gets no such block, the response is the projection of the
    upstream data alone. *)
Theorem slot_response_strings :
  forall uint64_of_float ParseFloat E consensusAPI id lg m,
    (forall b payload data message body_,
       Upstream.parses E (Slot.enrich_url consensusAPI id) = true ->
       Upstream.answer E (Upstream.requests lg) (Slot.enrich_url consensusAPI id) =
         Upstream.Response 200 b ->
       Upstream.as_block b = Some payload ->
       Voter.as_object payload "data" = Some data ->
       Voter.as_object data "message" = Some message ->
       Voter.as_object message "body" = Some body_ ->
       forall k s,
         (k, s) ∈ ("signature", fst (Voter.as_string data "signature")) ::
                  Slot.offered data body_ ->
         k <> "exec_timestamp" ->
         Tags.beacon_string
           (Slot.Beacon (snd (Slot.slot_response uint64_of_float ParseFloat E consensusAPI id lg m)))
           k =
         Some (Tags.preferred (Slot.asString (Slot.at_key m k)) s)) /\
    (snd (Slot.enrichSlotConsensus uint64_of_float E consensusAPI id lg (Some m)) = Some m ->
     snd (Slot.slot_response uint64_of_float ParseFloat E consensusAPI id lg m) =
       Slot.buildSlotResponseFromMap uint64_of_float ParseFloat m) /\
    (Upstream.parses E (Slot.enrich_url consensusAPI id) = false \/
     Upstream.answer E (Upstream.requests lg) (Slot.enrich_url consensusAPI id) =
       Upstream.NetErr \/
     (exists status b,
        Upstream.answer E (Upstream.requests lg) (Slot.enrich_url consensusAPI id) =
          Upstream.Response status b /\
        (status <> 200 \/ Upstream.as_block b = None)) ->
     snd (Slot.enrichSlotConsensus uint64_of_float E consensusAPI id lg (Some m)) = Some m).
Proof.
  intros conv pf E api bid lg m.
  assert (Hr : snd (Slot.slot_response conv pf E api bid lg m) =
               Slot.buildSlotResponseFromMap conv pf
                 (default ∅ (snd (Slot.enrichSlotConsensus conv E api bid lg (Some m))))).
  { unfold Slot.slot_response. by destruct (Slot.enrichSlotConsensus _ _ _ _ _ _). }
  split; [|split].
  - intros b payload data message body_ Hp Ha Hb Hd Hm Hy k s Hks Hk.
    assert (Hfill : snd (Slot.enrichSlotConsensus conv E api bid lg (Some m)) =
                    Slot.fill conv data body_ (Some m)).
    { unfold Slot.enrichSlotConsensus. cbv zeta. by rewrite Hp, Ha, Hb, Hd, Hm, Hy. }
    rewrite Hr, Hfill.
    destruct (fill_effect conv data body_ m) as (m' & -> & _ & Hsig & Hoff & _).
    cbn [default from_option].
    assert (Hf : Slot.filled m m' k s).
    { apply elem_of_cons in Hks as [[= -> ->]|Hks]; [done|by apply Hoff]. }
    apply filled_asString in Hf. rewrite <- Hf. clear Hf Hsig Hoff.
    unfold Slot.offered in Hks.
    repeat (apply elem_of_cons in Hks as [[= -> ->]|Hks]; [try done; reflexivity|]).
    by apply elem_of_nil in Hks.
  - intros H. by rewrite Hr, H.
  - intros H. unfold Slot.enrichSlotConsensus. cbv zeta.
    destruct H as [->|[Hn|(status & b & Ha & Hs)]]; [done| |].
    + destruct (Upstream.parses E _); [|done]. cbn [negb]. by rewrite Hn.
    + destruct (Upstream.parses E _); [|done]. cbn [negb]. rewrite Ha.
      destruct (N.eqb_spec status Upstream.StatusOK) as [->|]; [|done].
      destruct Hs as [Hs|Hs]; [done|]. cbn [negb]. by rewrite Hs.
Qed.
